(** * Rolling-median scoring service: a model of [main.py] and its properties

    The service keeps, per user, a deque of [(timestamp, score)] pairs
    ([user_scores]), a dictionary of counters and latency samples ([stats])
    and a model loaded once at start-up ([_loaded_model]).  Three handlers
    work on that state: [ingest], [get_user_median] and [get_stats].

    Modelling choices.
    - Python integers are [Z]; Python floats (scores, latencies, clock
      readings) are exact rationals [Q], so rounding is outside the model.
    - A [deque] is a [list] whose head is the deque's left end.
    - [user_scores], a [defaultdict(deque)] keyed by user id, is a
      [gmap string (list sample)]; a key bound to [[]] is a user whose deque
      exists and is empty, an unbound key is a user never seen.
    - [event.get(k)] is [None] when the key is missing or bound to [null];
      events carry their fields at the types the handler's helpers declare
      ([user_id: str], [timestamp: int], [features: List[float]]), at which
      the conversions [int(ts)] and [float(score)] change nothing.
    - The clock ([time.perf_counter]) and the network's forward pass are
      inputs of the model.

    This first model is the service on request bodies of the documented
    types and with finite scores.  A request body is whatever JSON the
    client sends, though, and a score can be NaN: module [Raw], further
    down, models the handlers on arbitrary JSON bodies, with the exceptions
    that [int(ts)] and [user_scores[user_id]] raise outside the [try] and
    with NaN among the scores.  The two models agree where the first one
    applies ([typed_bodies_agree]).  The guarded block that loads the model
    when [main] is imported is modelled statement by statement
    ([import_main]). *)

From Stdlib Require Import ZArith QArith Qminmax List Lia Lqa Permutation Sorted Ascii.
From stdpp Require Import gmap strings pretty list fin_maps.

Local Open Scope Z_scope.

(** ** Data *)

(** A deque entry, the tuple [(timestamp, score)]. *)
Abbreviation sample := (Z * Q)%type.

(** [ROLLING_WINDOW_SECONDS = 300] *)
Definition ROLLING_WINDOW_SECONDS : Z := 300.

(** ** The rolling window: [_update_user_scores] *)

(** [while dq and dq[0][0] < cutoff: dq.popleft()] *)
Fixpoint prune (cutoff : Z) (dq : list sample) : list sample :=
  match dq with
  | [] => []
  | s :: rest => if fst s <? cutoff then prune cutoff rest else dq
  end.

(** The deque [user_scores[user_id]] after [dq.append((timestamp, score))]
    and the pruning loop. *)
Definition record_sample (dq : list sample) (timestamp : Z) (score : Q)
  : list sample :=
  let dq := dq ++ [(timestamp, score)] in
  let cutoff := timestamp - ROLLING_WINDOW_SECONDS in
  prune cutoff dq.

(** [_update_user_scores(user_id, timestamp, score)].  Indexing the
    [defaultdict] yields the user's deque, a fresh empty one when the key is
    unbound; the deque is then mutated in place, so the store maps the user to
    the appended and pruned deque. *)
Definition _update_user_scores (user_scores : gmap string (list sample))
    (user_id : string) (timestamp : Z) (score : Q)
  : gmap string (list sample) :=
  let dq := default [] (user_scores !! user_id) in
  <[user_id := record_sample dq timestamp score]> user_scores.

(** The window of a user: the deque, empty for a user never seen. *)
Definition window (user_scores : gmap string (list sample)) (user_id : string)
  : list sample :=
  default [] (user_scores !! user_id).

(** A run of [_update_user_scores] calls for one user, oldest call first. *)
Definition record_all (user_scores : gmap string (list sample))
    (user_id : string) (calls : list sample) : gmap string (list sample) :=
  fold_left (fun m c => _update_user_scores m user_id (fst c) (snd c))
            calls user_scores.

(** ** The median: [statistics.median] *)

(** [sorted(data)] is a stable sort: insertion from the right puts an element
    before the first one that is not smaller, so equal scores keep their
    order.  Scores here are finite; [Raw.sorted] is the sort with NaN among
    the data. *)
Fixpoint insert_sorted (x : Q) (l : list Q) : list Q :=
  match l with
  | [] => [x]
  | y :: l' => if Qle_bool x y then x :: l else y :: insert_sorted x l'
  end.

Definition sorted (data : list Q) : list Q := foldr insert_sorted [] data.

(** [statistics.median(data)]: [None] stands for [StatisticsError], raised on
    empty data.

    [data = sorted(data); n = len(data)]
    [if n % 2 == 1: return data[n // 2]]
    [else: i = n // 2; return (data[i - 1] + data[i]) / 2] *)
Definition median (data : list Q) : option Q :=
  let data := sorted data in
  let n := length data in
  if (n =? 0)%nat then None
  else if (n mod 2 =? 1)%nat then data !! (n / 2)%nat
  else
    let i := (n / 2)%nat in
    a ← data !! (i - 1)%nat; b ← data !! i; Some ((a + b) / 2)%Q.

(** The median in the spec's words: of the scores in sorted order, the single
    middle value for an odd count, the average of the two middle values for an
    even count. *)
Definition middle (srt : list Q) : option Q :=
  let n := length srt in
  if Nat.odd n then srt !! (n / 2)%nat
  else a ← srt !! (n / 2 - 1)%nat; b ← srt !! (n / 2)%nat; Some ((a + b) / 2)%Q.

(** [m] is the standard median of [scores]: it is the middle of an ordered
    arrangement of the scores, and whatever ordered arrangement is taken, its
    middle is the same number. *)
Definition standard_median (scores : list Q) (m : Q) : Prop :=
  (∃ srt, Permutation srt scores ∧ StronglySorted Qle srt ∧ middle srt = Some m)
  ∧ (∀ srt, Permutation srt scores → StronglySorted Qle srt →
       ∃ m', middle srt = Some m' ∧ (m == m')%Q).

(** How many scores satisfy a test; the tests used are "below [x]" and
    "not above [x]". *)
Definition count (f : Q → bool) (l : list Q) : nat := length (List.filter f l).
Definition below (x : Q) : Q → bool := λ z, negb (Qle_bool x z).
Definition upto (x : Q) : Q → bool := λ z, Qle_bool z x.

(** ** Service state *)

(** The [stats] dictionary. *)
Record Stats := mkStats {
  ingest_requests : Z;
  events_processed : Z;
  median_requests : Z;
  ingest_latencies : list Q
}.

(** [stats] as the module initialises it. *)
Definition stats_init : Stats := mkStats 0 0 0 [].

(** The network's forward pass on a feature vector,
    [_loaded_model(x).squeeze().item()]; [None] when it raises. *)
Definition Model : Type := list Q -> option Q.

(** The module's globals. *)
Record Service := mkService {
  _loaded_model : option Model;
  user_scores : gmap string (list sample);
  stats : Stats
}.

(** The globals as the module body leaves them, given the value bound to
    [_loaded_model]. *)
Definition fresh (model : option Model) : Service :=
  mkService model ∅ stats_init.

(** ** Scoring: [_predict_sync] *)

Inductive exn :=
| RuntimeError (msg : string)
| ModelError.

Definition model_not_loaded : string :=
  "Model not loaded. Ensure inefficient_model.pt is present in the working directory.".

Definition _predict_sync (model : option Model) (features : list Q)
  : exn + Q :=
  match model with
  | None => inl (RuntimeError model_not_loaded)
  | Some forward =>
      match forward features with
      | Some output => inr output
      | None => inl ModelError
      end
  end.

(** ** Requests and responses *)

(** An event object of the documented types; a field is [None] when
    [event.get] finds no value.  Items of other types are [Raw.json]
    values. *)
Record Event := mkEvent {
  user_id : option string;
  timestamp : option Z;
  features : option (list Q)
}.

(** The request body; [events] is [payload.get("events")]. *)
Record Payload := mkPayload { events : option (list Event) }.

Inductive Response (A : Type) :=
| OK (body : A)
| HTTPException (status_code : Z) (detail : string).
Arguments OK {A} body.
Arguments HTTPException {A} status_code detail.

(** [{"processed": processed_count}] *)
Record IngestBody := mkIngestBody { processed : Z }.

(** [{"median": ...}], [None] for JSON [null]. *)
Record MedianBody := mkMedianBody { median_field : option Q }.

(** The body of [/stats]. *)
Record StatsBody := mkStatsBody {
  body_ingest_requests : Z;
  body_events_processed : Z;
  body_median_requests : Z;
  avg_ingest_latency_seconds : Q
}.

(** ** [ingest] *)

(** One turn of [for event in events], on the window store and the local
    [processed_count]: the three [event.get], the test for [None], the scoring
    call inside [try], whose [except Exception] skips the item, then
    [_update_user_scores(user_id, int(ts), float(score))] and the count.  On
    an integer [int] is the identity and a string has a hash, so nothing
    raises after the [try]; [Raw.ingest_event] is the turn on any item. *)
Definition ingest_event (model : option Model)
    (acc : gmap string (list sample) * Z) (event : Event)
  : gmap string (list sample) * Z :=
  match user_id event, timestamp event, features event with
  | Some uid, Some ts, Some fs =>
      match _predict_sync model fs with
      | inl _ => acc
      | inr score => (_update_user_scores acc.1 uid ts score, acc.2 + 1)
      end
  | _, _, _ => acc
  end.

Definition missing_events : string := "Missing 'events' in request body".

(** The handler of [POST /ingest] on a body of the documented types;
    [start_time] and [end_time] are the two readings of
    [time.perf_counter()].  [Raw.ingest] is the handler on any body. *)
Definition ingest (sv : Service) (payload : Payload) (start_time end_time : Q)
  : Response IngestBody * Service :=
  match events payload with
  | None => (HTTPException 400 missing_events, sv)
  | Some evs =>
      let st := stats sv in
      let st := mkStats (ingest_requests st + 1) (events_processed st)
                        (median_requests st) (ingest_latencies st) in
      let '(us, processed_count) :=
        fold_left (ingest_event (_loaded_model sv)) evs (user_scores sv, 0) in
      let duration := (end_time - start_time)%Q in
      let st := mkStats (ingest_requests st)
                        (events_processed st + processed_count)
                        (median_requests st)
                        (ingest_latencies st ++ [duration]) in
      (OK (mkIngestBody processed_count),
       mkService (_loaded_model sv) us st)
  end.

(** ** [get_user_median] *)

(** The handler of [GET /users/{user_id}/median].  [user_scores.get] is a
    plain lookup; [not dq] holds for [None] and for the empty deque. *)
Definition get_user_median (sv : Service) (uid : string)
  : Response MedianBody * Service :=
  let st := stats sv in
  let st := mkStats (ingest_requests st) (events_processed st)
                    (median_requests st + 1) (ingest_latencies st) in
  let sv' := mkService (_loaded_model sv) (user_scores sv) st in
  match user_scores sv !! uid with
  | None | Some [] => (OK (mkMedianBody None), sv')
  | Some dq =>
      let scores := map snd dq in
      match median scores with
      | Some m => (OK (mkMedianBody (Some m)), sv')
      | None => (HTTPException 500 "StatisticsError", sv')
      end
  end.

(** ** [get_stats] *)

(** [sum(latencies)]: the built-in adds from the left, starting at [0].  The
    sum and the quotient below are exact; the rounding of floats is outside
    the model. *)
Definition sum (latencies : list Q) : Q := fold_left Qplus latencies 0%Q.

Definition avg_latency (latencies : list Q) : Q :=
  match latencies with
  | [] => 0%Q
  | _ => (sum latencies / inject_Z (Z.of_nat (length latencies)))%Q
  end.

(** The handler of [GET /stats]; it updates nothing. *)
Definition get_stats (sv : Service) : Response StatsBody * Service :=
  let latencies := ingest_latencies (stats sv) in
  (OK (mkStatsBody (ingest_requests (stats sv))
                   (events_processed (stats sv))
                   (median_requests (stats sv))
                   (avg_latency latencies)),
   sv).

(** ** Notions used to state the properties *)

(** The arithmetic mean of latency samples: their sum over their number. *)
Definition arithmetic_mean (samples : list Q) : Q :=
  (foldr Qplus 0 samples / inject_Z (Z.of_nat (length samples)))%Q.

(** An item has all three fields. *)
Definition has_all_fields (e : Event) : bool :=
  bool_decide (is_Some (user_id e))
  && bool_decide (is_Some (timestamp e))
  && bool_decide (is_Some (features e)).

(** The scoring call on the item's features returns a score. *)
Definition scoring_succeeds (model : option Model) (e : Event) : bool :=
  match features e with
  | Some fs => match _predict_sync model fs with inr _ => true | inl _ => false end
  | None => false
  end.

(** The items a batch is credited for. *)
Definition counted (model : option Model) (e : Event) : bool :=
  has_all_fields e && scoring_succeeds model e.

(** An item lacks one of the three fields. *)
Definition missing_field (e : Event) : Prop :=
  user_id e = None ∨ timestamp e = None ∨ features e = None.

(** The calls a client can make, and the state they leave. *)
Inductive Request :=
| ReqIngest (payload : Payload) (start_time end_time : Q)
| ReqMedian (uid : string)
| ReqStats.

Definition serve (sv : Service) (rq : Request) : Service :=
  match rq with
  | ReqIngest payload t0 t1 => (ingest sv payload t0 t1).2
  | ReqMedian uid => (get_user_median sv uid).2
  | ReqStats => (get_stats sv).2
  end.

Definition serve_all (sv : Service) (rqs : list Request) : Service :=
  fold_left serve rqs sv.

(** The state with the counter of median requests advanced by one. *)
Definition with_median_request (st : Stats) : Stats :=
  mkStats (ingest_requests st) (events_processed st)
          (median_requests st + 1) (ingest_latencies st).

(** A service without model, with one known user. *)
Definition sv_example : Service :=
  mkService None
            {[ "u1" := [(1700000000, (3#1)%Q); (1700000010, (1#1)%Q);
                         (1700000020, (2#1)%Q)] ]}
            (mkStats 2 3 1 [(1#4)%Q; (3#4)%Q]).

(** A forward pass that accepts vectors of three features and returns their
    sum. *)
Definition sum3 : Model :=
  λ fs, match fs with
        | [a; b; c] => Some (a + b + c)%Q
        | _ => None
        end.

(** ** Concurrent requests

    The handlers are coroutines on one event loop; a request in flight is a
    [Task]: a point in its handler together with the handler's local
    variables.  Accesses to [stats] are modelled at the finest grain: taking
    [stats_lock], each read of a field, each write, the append and the release
    are steps of their own, and [x += v] is a read followed by a write, so any
    task may run between any two of them.  The event loop switches tasks only
    at an [await]; every schedule it can produce is among those considered
    here.  One turn of the ingest loop, which awaits the score and then runs
    [_update_user_scores] without suspension, is one step. *)

Inductive Task :=
(* ingest: before [payload.get("events")] *)
| IngestStart (payload : Payload) (t0 t1 : Q)
(* before the first [async with stats_lock] *)
| IngestAcquire1 (evs : list Event) (t0 t1 : Q)
(* [stats["ingest_requests"] += 1]: before the read, before the write *)
| IngestReadRequests (evs : list Event) (t0 t1 : Q)
| IngestWriteRequests (tmp : Z) (evs : list Event) (t0 t1 : Q)
(* before leaving the first [async with] *)
| IngestRelease1 (evs : list Event) (t0 t1 : Q)
(* in [for event in events], with the events still to come *)
| IngestLoop (evs : list Event) (processed_count : Z) (t0 t1 : Q)
(* [duration] computed, before the second [async with stats_lock] *)
| IngestAcquire2 (processed_count : Z) (duration : Q)
(* [stats["events_processed"] += processed_count]: read, then write *)
| IngestReadProcessed (processed_count : Z) (duration : Q)
| IngestWriteProcessed (tmp : Z) (processed_count : Z) (duration : Q)
(* before [stats["ingest_latencies"].append(duration)] *)
| IngestAppend (processed_count : Z) (duration : Q)
(* before leaving the second [async with] *)
| IngestRelease2 (processed_count : Z) (duration : Q)
(* returned [{"processed": processed_count}], or raised *)
| IngestReturned (processed_count : Z) (duration : Q)
| IngestRaised (status_code : Z) (detail : string)
(* get_user_median: before [async with stats_lock] *)
| MedianAcquire (uid : string)
(* [stats["median_requests"] += 1]: read, then write *)
| MedianRead (uid : string)
| MedianWrite (tmp : Z) (uid : string)
| MedianRelease (uid : string)
(* before [user_scores.get(user_id)] and the rest of the body *)
| MedianLookup (uid : string)
| MedianDone (r : Response MedianBody)
(* get_stats: before [async with stats_lock] *)
| StatsAcquire
(* before [latencies = stats["ingest_latencies"]], which binds the list
   itself, not a copy *)
| StatsLatencies
(* before [avg_latency = ...], which reads the list *)
| StatsAverage
(* before each of the three reads in the answer *)
| StatsReadRequests (avg : Q)
| StatsReadProcessed (avg : Q) (r1 : Z)
| StatsReadMedian (avg : Q) (r1 r2 : Z)
| StatsRelease (avg : Q) (r1 r2 r3 : Z)
| StatsDone (body : StatsBody).

(** The task a request starts as. *)
Definition spawn (rq : Request) : Task :=
  match rq with
  | ReqIngest payload t0 t1 => IngestStart payload t0 t1
  | ReqMedian uid => MedianAcquire uid
  | ReqStats => StatsAcquire
  end.

Definition set_stats (sv : Service) (st : Stats) : Service :=
  mkService (_loaded_model sv) (user_scores sv) st.

Definition set_user_scores (sv : Service) (us : gmap string (list sample))
  : Service :=
  mkService (_loaded_model sv) us (stats sv).

(** One step of a task on the shared state [sv] and the lock ([true] when
    held); [None] when the task cannot move: it waits for the lock or it has
    finished. *)
Definition step_task (sv : Service) (locked : bool) (t : Task)
  : option (Service * bool * Task) :=
  let st := stats sv in
  match t with
  | IngestStart payload t0 t1 =>
      match events payload with
      | None => Some (sv, locked, IngestRaised 400 missing_events)
      | Some evs => Some (sv, locked, IngestAcquire1 evs t0 t1)
      end
  | IngestAcquire1 evs t0 t1 =>
      if locked then None else Some (sv, true, IngestReadRequests evs t0 t1)
  | IngestReadRequests evs t0 t1 =>
      Some (sv, locked, IngestWriteRequests (ingest_requests st) evs t0 t1)
  | IngestWriteRequests tmp evs t0 t1 =>
      Some (set_stats sv (mkStats (tmp + 1) (events_processed st)
                                  (median_requests st) (ingest_latencies st)),
            locked, IngestRelease1 evs t0 t1)
  | IngestRelease1 evs t0 t1 => Some (sv, false, IngestLoop evs 0 t0 t1)
  | IngestLoop [] n t0 t1 => Some (sv, locked, IngestAcquire2 n (t1 - t0)%Q)
  | IngestLoop (e :: evs) n t0 t1 =>
      let acc := ingest_event (_loaded_model sv) (user_scores sv, n) e in
      Some (set_user_scores sv acc.1, locked, IngestLoop evs acc.2 t0 t1)
  | IngestAcquire2 n d =>
      if locked then None else Some (sv, true, IngestReadProcessed n d)
  | IngestReadProcessed n d =>
      Some (sv, locked, IngestWriteProcessed (events_processed st) n d)
  | IngestWriteProcessed tmp n d =>
      Some (set_stats sv (mkStats (ingest_requests st) (tmp + n)
                                  (median_requests st) (ingest_latencies st)),
            locked, IngestAppend n d)
  | IngestAppend n d =>
      Some (set_stats sv (mkStats (ingest_requests st) (events_processed st)
                                  (median_requests st)
                                  (ingest_latencies st ++ [d])),
            locked, IngestRelease2 n d)
  | IngestRelease2 n d => Some (sv, false, IngestReturned n d)
  | IngestReturned _ _ | IngestRaised _ _ => None
  | MedianAcquire uid =>
      if locked then None else Some (sv, true, MedianRead uid)
  | MedianRead uid => Some (sv, locked, MedianWrite (median_requests st) uid)
  | MedianWrite tmp uid =>
      Some (set_stats sv (mkStats (ingest_requests st) (events_processed st)
                                  (tmp + 1) (ingest_latencies st)),
            locked, MedianRelease uid)
  | MedianRelease uid => Some (sv, false, MedianLookup uid)
  | MedianLookup uid =>
      match user_scores sv !! uid with
      | None | Some [] => Some (sv, locked, MedianDone (OK (mkMedianBody None)))
      | Some dq =>
          match median (map snd dq) with
          | Some m => Some (sv, locked, MedianDone (OK (mkMedianBody (Some m))))
          | None => Some (sv, locked, MedianDone (HTTPException 500 "StatisticsError"))
          end
      end
  | MedianDone _ => None
  | StatsAcquire => if locked then None else Some (sv, true, StatsLatencies)
  | StatsLatencies => Some (sv, locked, StatsAverage)
  | StatsAverage =>
      Some (sv, locked, StatsReadRequests (avg_latency (ingest_latencies st)))
  | StatsReadRequests avg =>
      Some (sv, locked, StatsReadProcessed avg (ingest_requests st))
  | StatsReadProcessed avg r1 =>
      Some (sv, locked, StatsReadMedian avg r1 (events_processed st))
  | StatsReadMedian avg r1 r2 =>
      Some (sv, locked, StatsRelease avg r1 r2 (median_requests st))
  | StatsRelease avg r1 r2 r3 =>
      Some (sv, false, StatsDone (mkStatsBody r1 r2 r3 avg))
  | StatsDone _ => None
  end.

(** The whole system: the module's globals, [stats_lock] and the requests in
    flight or answered. *)
Record Config := mkConfig {
  service : Service;
  stats_lock : bool;
  tasks : list Task
}.

Definition initial (sv : Service) : Config := mkConfig sv false [].

(** What the scheduler or a client does next. *)
Inductive Action :=
| Arrive (rq : Request)
| Run (i : nat).

Definition act (c : Config) (a : Action) : option Config :=
  match a with
  | Arrive rq => Some (mkConfig (service c) (stats_lock c) (tasks c ++ [spawn rq]))
  | Run i =>
      t ← tasks c !! i;
      r ← step_task (service c) (stats_lock c) t;
      Some (mkConfig r.1.1 r.1.2 (<[i := r.2]> (tasks c)))
  end.

Definition step (c c' : Config) : Prop := ∃ a, act c a = Some c'.

(** [run c0 past c]: the system goes from [c0] to [c] through the
    configurations [past], oldest first ([c] itself not included). *)
Inductive run (c0 : Config) : list Config → Config → Prop :=
| run_start : run c0 [] c0
| run_step past c c' : run c0 past c → step c c' → run c0 (past ++ [c]) c'.

(** The run that a list of actions drives, when each of them is possible. *)
Fixpoint play (c : Config) (past : list Config) (acts : list Action)
  : option (list Config * Config) :=
  match acts with
  | [] => Some (past, c)
  | a :: acts => c' ← act c a; play c' (past ++ [c]) acts
  end.

(** A task holds [stats_lock]. *)
Definition critical (t : Task) : Z :=
  match t with
  | IngestReadRequests _ _ _ | IngestWriteRequests _ _ _ _ | IngestRelease1 _ _ _
  | IngestReadProcessed _ _ | IngestWriteProcessed _ _ _ | IngestAppend _ _
  | IngestRelease2 _ _
  | MedianRead _ | MedianWrite _ _ | MedianRelease _
  | StatsLatencies | StatsAverage | StatsReadRequests _ | StatsReadProcessed _ _
  | StatsReadMedian _ _ _ | StatsRelease _ _ _ _ => 1
  | _ => 0
  end.

(** What a task has added to [ingest_requests] so far. *)
Definition requests_added (t : Task) : Z :=
  match t with
  | IngestRelease1 _ _ _ | IngestLoop _ _ _ _ | IngestAcquire2 _ _
  | IngestReadProcessed _ _ | IngestWriteProcessed _ _ _ | IngestAppend _ _
  | IngestRelease2 _ _ | IngestReturned _ _ => 1
  | _ => 0
  end.

(** What a task has added to [events_processed] so far. *)
Definition processed_added (t : Task) : Z :=
  match t with
  | IngestAppend n _ | IngestRelease2 n _ | IngestReturned n _ => n
  | _ => 0
  end.

(** What a task has added to [median_requests] so far. *)
Definition median_added (t : Task) : Z :=
  match t with
  | MedianRelease _ | MedianLookup _ | MedianDone _ => 1
  | _ => 0
  end.

(** What a task has appended to [ingest_latencies] so far. *)
Definition latencies_added (t : Task) : list Q :=
  match t with
  | IngestRelease2 _ d | IngestReturned _ d => [d]
  | _ => []
  end.

Definition total (f : Task → Z) (ts : list Task) : Z :=
  foldr (λ t acc, f t + acc) 0 ts.

(** The values a task holding the lock has read are those [stats] holds. *)
Definition locals_ok (st : Stats) (t : Task) : Prop :=
  match t with
  | IngestWriteRequests tmp _ _ _ => tmp = ingest_requests st
  | IngestWriteProcessed tmp _ _ => tmp = events_processed st
  | MedianWrite tmp _ => tmp = median_requests st
  | StatsReadRequests avg => avg = avg_latency (ingest_latencies st)
  | StatsReadProcessed avg r1 =>
      avg = avg_latency (ingest_latencies st) ∧ r1 = ingest_requests st
  | StatsReadMedian avg r1 r2 =>
      avg = avg_latency (ingest_latencies st) ∧ r1 = ingest_requests st
      ∧ r2 = events_processed st
  | StatsRelease avg r1 r2 r3 =>
      avg = avg_latency (ingest_latencies st) ∧ r1 = ingest_requests st
      ∧ r2 = events_processed st ∧ r3 = median_requests st
  | _ => True
  end.

(** What holds of every configuration the system reaches from
    [initial sv0]. *)
Record Inv (sv0 : Service) (c : Config) : Prop := mkInv {
  inv_mutex : total critical (tasks c) = if stats_lock c then 1 else 0;
  inv_requests :
    ingest_requests (stats (service c))
    = ingest_requests (stats sv0) + total requests_added (tasks c);
  inv_processed :
    events_processed (stats (service c))
    = events_processed (stats sv0) + total processed_added (tasks c);
  inv_median :
    median_requests (stats (service c))
    = median_requests (stats sv0) + total median_added (tasks c);
  inv_latencies :
    Permutation (ingest_latencies (stats (service c)))
                (ingest_latencies (stats sv0)
                 ++ flat_map latencies_added (tasks c));
  inv_locals : Forall (locals_ok (stats (service c))) (tasks c)
}.

(** What one step of a task does to [stats], to the lock and to the task's
    own account. *)
Record Effect (st : Stats) (l : bool) (t : Task)
              (st' : Stats) (l' : bool) (t' : Task) : Prop := mkEffect {
  eff_lock :
    critical t' + (if l then 1 else 0) = critical t + (if l' then 1 else 0);
  eff_requests :
    ingest_requests st' + requests_added t
    = ingest_requests st + requests_added t';
  eff_processed :
    events_processed st' + processed_added t
    = events_processed st + processed_added t';
  eff_median :
    median_requests st' + median_added t
    = median_requests st + median_added t';
  eff_latencies :
    ingest_latencies st' ++ latencies_added t
    = ingest_latencies st ++ latencies_added t';
  eff_locals : locals_ok st' t';
  eff_frame : st' = st ∨ critical t = 1
}.

(** [c'] can be reached from [c]. *)
Definition reach (c c' : Config) : Prop := ∃ past, run c past c'.

(** The answers of finished tasks. *)
Definition ingest_answer (t : Task) : option (Response IngestBody) :=
  match t with
  | IngestReturned n _ => Some (OK (mkIngestBody n))
  | IngestRaised status detail => Some (HTTPException status detail)
  | _ => None
  end.

Definition median_answer (t : Task) : option (Response MedianBody) :=
  match t with
  | MedianDone r => Some r
  | _ => None
  end.

Definition stats_answer (t : Task) : option (Response StatsBody) :=
  match t with
  | StatsDone body => Some (OK body)
  | _ => None
  end.

(** A schedule of three requests, an ingest of one event, a [get_stats] and a
    [get_user_median], whose steps interleave. *)
Definition demo_schedule : list Action :=
  [ Arrive (ReqIngest
              (mkPayload (Some [mkEvent (Some "u1") (Some 1700000000)
                                        (Some [1#10; 2#10; 3#10]%Q)]))
              (10#1) (11#1));
    Arrive ReqStats;
    Arrive (ReqMedian "u1");
    Run 0; Run 0; Run 0; Run 0; Run 0;
    Run 1; Run 0; Run 1; Run 0; Run 1; Run 1; Run 1; Run 1; Run 1;
    Run 0; Run 0; Run 0; Run 0; Run 0;
    Run 2; Run 2; Run 2; Run 2; Run 2 ].

Definition demo_run : list Config * Config :=
  default ([], initial (fresh (Some sum3)))
          (play (initial (fresh (Some sum3))) [] demo_schedule).

(** ** Notions used to state further properties *)

(** What the loop of [ingest] records for an item: the user, the timestamp
    and the score, when the item has its three fields and the scoring call
    returns. *)
Definition scored_sample (model : option Model) (e : Event)
  : option (string * sample) :=
  match user_id e, timestamp e, features e with
  | Some uid, Some ts, Some fs =>
      match _predict_sync model fs with
      | inr score => Some (uid, (ts, score))
      | inl _ => None
      end
  | _, _, _ => None
  end.

(** The samples a batch records for one user, in batch order. *)
Definition samples_of (model : option Model) (uid : string)
    (evs : list Event) : list sample :=
  omap (λ e, match scored_sample model e with
             | Some (u, s) => if decide (u = uid) then Some s else None
             | None => None
             end) evs.

(** No user is bound to an empty deque. *)
Definition no_empty (us : gmap string (list sample)) : Prop :=
  ∀ uid dq, us !! uid = Some dq → dq ≠ [].

(** What a request, served, adds to [stats]: one to [ingest_requests] and one
    latency sample for an ingest with ["events"], the batch's count to
    [events_processed], one to [median_requests] for a median request. *)
Definition request_ingests (rq : Request) : Z :=
  match rq with
  | ReqIngest payload _ _ =>
      match events payload with Some _ => 1 | None => 0 end
  | _ => 0
  end.

Definition request_processed (model : option Model) (rq : Request) : Z :=
  match rq with
  | ReqIngest payload _ _ =>
      match events payload with
      | Some evs => Z.of_nat (length (List.filter (counted model) evs))
      | None => 0
      end
  | _ => 0
  end.

Definition request_medians (rq : Request) : Z :=
  match rq with
  | ReqMedian _ => 1
  | _ => 0
  end.

Definition request_latency (rq : Request) : list Q :=
  match rq with
  | ReqIngest payload t0 t1 =>
      match events payload with Some _ => [(t1 - t0)%Q] | None => [] end
  | _ => []
  end.

Definition sumZ (l : list Z) : Z := foldr Z.add 0 l.

(** ** The network: [create_model.py]

    [InefficientModel] is [nn.Sequential] of [Linear(in_dim, 128)], [ReLU],
    [Dropout(p=0.0)], [Linear(128, 128)], [ReLU], [Linear(128, 1)], applied to
    [x.clone() * 1.0] and followed by [squeeze(-1)].  The service feeds it
    one row, [[features]].  Parameters are rationals, as scores are. *)

(** [nn.Linear]: [weight] has [out_features] rows of [in_features] entries,
    [bias] has [out_features] entries. *)
Record Linear := mkLinear {
  in_features : nat;
  out_features : nat;
  weight : list (list Q);
  bias : list Q
}.

Definition dot (w x : list Q) : Q := foldr Qplus 0%Q (zip_with Qmult w x).

(** [Linear.forward] on one row: [x @ weight.T + bias]; it raises ([None])
    when the row does not have [in_features] entries. *)
Definition linear_forward (L : Linear) (x : list Q) : option (list Q) :=
  if (length x =? in_features L)%nat
  then Some (zip_with (λ row b, (dot row x + b)%Q) (weight L) (bias L))
  else None.

Definition ReLU (x : list Q) : list Q := map (Qmax 0) x.

(** [Dropout(p=0.0)] keeps every entry, in training and in evaluation. *)
Definition Dropout0 (x : list Q) : list Q := x.

Record InefficientModel := mkInefficientModel {
  layer0 : Linear;
  layer3 : Linear;
  layer5 : Linear
}.

(** The shapes [InefficientModel(in_dim)] declares; [load_state_dict] accepts
    a state only with these shapes. *)
Definition linear_shaped (n_in n_out : nat) (L : Linear) : Prop :=
  in_features L = n_in ∧ out_features L = n_out
  ∧ length (weight L) = n_out ∧ Forall (λ row, length row = n_in) (weight L)
  ∧ length (bias L) = n_out.

Definition well_shaped (in_dim : nat) (M : InefficientModel) : Prop :=
  linear_shaped in_dim 128 (layer0 M)
  ∧ linear_shaped 128 128 (layer3 M)
  ∧ linear_shaped 128 1 (layer5 M).

(** [InefficientModel.forward] on one row; the result is the row of outputs
    of the last layer, which [squeeze(-1)] turns into a number when it has
    one entry. *)
Definition model_forward (M : InefficientModel) (x : list Q)
  : option (list Q) :=
  let x := map (λ v, (v * 1)%Q) x in
  h ← linear_forward (layer0 M) x;
  h ← linear_forward (layer3 M) (Dropout0 (ReLU h));
  linear_forward (layer5 M) (ReLU h).

(** The loaded model as [_predict_sync] uses it:
    [_loaded_model(x).squeeze().item()], which raises unless one number is
    left. *)
Definition as_model (M : InefficientModel) : Model :=
  λ features,
    y ← model_forward M features;
    match y with
    | [output] => Some output
    | _ => None
    end.

(** ** The load generator: [scripts/load_test.py] *)

(** [int(x)] on a float: truncation towards zero. *)
Definition int (x : Q) : Z := Z.quot (Qnum x) (Zpos (Qden x)).

(** [make_event(uid)]; [now] is [time.time()] and [r1], [r2], [r3] are the
    three [random.random()]. *)
Definition make_event (uid : Z) (now : Q) (r1 r2 r3 : Q) : Event :=
  mkEvent (Some ("user-" +:+ pretty uid)) (Some (int now)) (Some [r1; r2; r3]).

(** An event that [make_event] can return. *)
Definition generated (e : Event) : Prop :=
  ∃ uid now r1 r2 r3, e = make_event uid now r1 r2 r3.

Definition batch_size : Z := 10.

(** [batches_per_sec = max(1, rps // batch_size)] *)
Definition batches_per_sec (rps : Z) : Z := Z.max 1 (rps / batch_size).

(** [interval = 1.0 / batches_per_sec] *)
Definition interval (rps : Z) : Q := (1 / inject_Z (batches_per_sec rps))%Q.

(** A network of the declared shapes, with all parameters zero. *)
Definition zero_linear (n_in n_out : nat) : Linear :=
  mkLinear n_in n_out (replicate n_out (replicate n_in 0%Q)) (replicate n_out 0%Q).

Definition zero_model : InefficientModel :=
  mkInefficientModel (zero_linear 3 128) (zero_linear 128 128) (zero_linear 128 1).

(** ** Notions for runs of concurrent requests *)

(** The task has answered. *)
Definition finished (t : Task) : bool :=
  match t with
  | IngestReturned _ _ | IngestRaised _ _ | MedianDone _ | StatsDone _ => true
  | _ => false
  end.

(** The number of steps a task still has to make. *)
Definition remaining (t : Task) : Z :=
  match t with
  | IngestStart payload _ _ =>
      match events payload with
      | Some evs => 11 + Z.of_nat (length evs)
      | None => 1
      end
  | IngestAcquire1 evs _ _ => 10 + Z.of_nat (length evs)
  | IngestReadRequests evs _ _ => 9 + Z.of_nat (length evs)
  | IngestWriteRequests _ evs _ _ => 8 + Z.of_nat (length evs)
  | IngestRelease1 evs _ _ => 7 + Z.of_nat (length evs)
  | IngestLoop evs _ _ _ => 6 + Z.of_nat (length evs)
  | IngestAcquire2 _ _ => 5
  | IngestReadProcessed _ _ => 4
  | IngestWriteProcessed _ _ _ => 3
  | IngestAppend _ _ => 2
  | IngestRelease2 _ _ => 1
  | IngestReturned _ _ | IngestRaised _ _ => 0
  | MedianAcquire _ => 5
  | MedianRead _ => 4
  | MedianWrite _ _ => 3
  | MedianRelease _ => 2
  | MedianLookup _ => 1
  | MedianDone _ => 0
  | StatsAcquire => 7
  | StatsLatencies => 6
  | StatsAverage => 5
  | StatsReadRequests _ => 4
  | StatsReadProcessed _ _ => 3
  | StatsReadMedian _ _ _ => 2
  | StatsRelease _ _ _ _ => 1
  | StatsDone _ => 0
  end.

(** The requests that arrive in a list of actions, in order, and the number
    of steps in it. *)
Definition arrivals (acts : list Action) : list Request :=
  omap (λ a, match a with Arrive rq => Some rq | Run _ => None end) acts.

Definition runs (acts : list Action) : Z :=
  sumZ (map (λ a, match a with Arrive _ => 0 | Run _ => 1 end) acts).

(** The number of counted items among [evs]. *)
Definition count_counted (model : option Model) (evs : list Event) : Z :=
  Z.of_nat (length (List.filter (counted model) evs)).

(** Task [t] is the request [rq] somewhere on its way: it carries the
    request's data, and once in the loop its count so far plus the counted
    items still to come make the count of the batch. *)
Definition tracks (model : option Model) (rq : Request) (t : Task) : Prop :=
  match rq with
  | ReqIngest payload t0 t1 =>
      match t with
      | IngestStart payload' a b => payload' = payload ∧ a = t0 ∧ b = t1
      | IngestAcquire1 evs a b | IngestReadRequests evs a b
      | IngestWriteRequests _ evs a b | IngestRelease1 evs a b =>
          events payload = Some evs ∧ a = t0 ∧ b = t1
      | IngestLoop evs n a b =>
          (∃ all, events payload = Some all
                  ∧ n + count_counted model evs = count_counted model all)
          ∧ a = t0 ∧ b = t1
      | IngestAcquire2 n d | IngestReadProcessed n d
      | IngestWriteProcessed _ n d | IngestAppend n d | IngestRelease2 n d
      | IngestReturned n d =>
          (∃ all, events payload = Some all ∧ n = count_counted model all)
          ∧ d = (t1 - t0)%Q
      | IngestRaised _ _ => events payload = None
      | _ => False
      end
  | ReqMedian uid =>
      match t with
      | MedianAcquire u | MedianRead u | MedianWrite _ u | MedianRelease u
      | MedianLookup u => u = uid
      | MedianDone _ => True
      | _ => False
      end
  | ReqStats =>
      match t with
      | StatsAcquire | StatsLatencies | StatsAverage | StatsReadRequests _
      | StatsReadProcessed _ _ | StatsReadMedian _ _ _ | StatsRelease _ _ _ _
      | StatsDone _ => True
      | _ => False
      end
  end.

(** The number of items a request carries. *)
Definition request_items (rq : Request) : Z :=
  match rq with
  | ReqIngest payload _ _ =>
      match events payload with
      | Some evs => Z.of_nat (length evs)
      | None => 0
      end
  | _ => 0
  end.

(** A request as the integration test sends them: a batch of events built by
    [make_event], a median request or a [get_stats] request. *)
Definition test_request (rq : Request) : Prop :=
  match rq with
  | ReqIngest payload _ _ => ∃ evs, events payload = Some evs ∧ Forall generated evs
  | _ => True
  end.

(** Two batches of two events built by [make_event] and a median request;
    the two ingests run interleaved. *)
Definition test_batch1 : list Event :=
  [make_event 0 (1700000000#1) 0 (1#2) (1#4);
   make_event 1 (1700000000#1) (1#2) 0 (3#4)]%Q.

Definition test_batch2 : list Event :=
  [make_event 0 (1700000001#1) (1#4) (1#2) 0;
   make_event 2 (1700000001#1) (3#4) (1#4) (1#2)]%Q.

Definition test_requests : list Request :=
  [ ReqIngest (mkPayload (Some test_batch1)) 0%Q 1%Q;
    ReqIngest (mkPayload (Some test_batch2)) 0%Q 1%Q;
    ReqMedian "user-0" ].

Definition test_schedule : list Action :=
  map Arrive test_requests
  ++ replicate 5 (Run 0) ++ replicate 5 (Run 1)
  ++ concat (replicate 3 [Run 0; Run 1])
  ++ replicate 5 (Run 0) ++ replicate 5 (Run 1)
  ++ replicate 5 (Run 2).

Definition test_run : list Config * Config :=
  default ([], initial (fresh (Some (as_model zero_model))))
          (play (initial (fresh (Some (as_model zero_model)))) [] test_schedule).

(** ** Module import: the guarded block

    [try:]
    [    from create_model import InefficientModel]
    [    MODEL_PATH = "inefficient_model.pt"]
    [    state = torch.load(MODEL_PATH)]
    [    _loaded_model = InefficientModel()]
    [    _loaded_model.load_state_dict(state)]
    [    _loaded_model.eval()]
    [except Exception as exc:]
    [    print(f"Warning: could not load model from {MODEL_PATH}: {exc}")]
    [    _loaded_model = None] *)

(** The two names the block binds; [None] is a name not yet bound, and
    [_loaded_model] bound to Python's [None] is [Some None]. *)
Record Globals (M : Type) := mkGlobals {
  MODEL_PATH : option string;
  loaded_model : option (option M)
}.
Arguments mkGlobals {M} MODEL_PATH loaded_model.
Arguments MODEL_PATH {M} g.
Arguments loaded_model {M} g.

(** What the environment decides: whether [create_model] can be imported, and
    what reading the file and building the network give, [None] when one of
    [torch.load], [InefficientModel()], [load_state_dict] or [eval] raises. *)
Record Environment (M : Type) := mkEnvironment {
  create_model_imports : bool;
  load_and_build : option M
}.
Arguments mkEnvironment {M} create_model_imports load_and_build.
Arguments create_model_imports {M} e.
Arguments load_and_build {M} e.

(** An exception that leaves the module body. *)
Inductive ImportFailure := NameError (name : string).

(** The [try] suite from the globals [g]: the import, the binding of
    [MODEL_PATH], then reading the file and building the network.  The
    boolean tells whether a statement raised.  When one of the last four
    statements raises, [_loaded_model] may already be bound to the network
    under construction; the [except] suite rebinds it, so the binding is
    left as it was here. *)
Definition try_suite {M} (env : Environment M) (g : Globals M)
  : bool * Globals M :=
  if create_model_imports env then
    let g := mkGlobals (Some "inefficient_model.pt") (loaded_model g) in
    match load_and_build env with
    | Some model => (false, mkGlobals (MODEL_PATH g) (Some (Some model)))
    | None => (true, g)
    end
  else (true, g).

(** The [except] suite: the f-string reads [MODEL_PATH], then
    [_loaded_model = None]. *)
Definition except_suite {M} (g : Globals M) : ImportFailure + Globals M :=
  match MODEL_PATH g with
  | None => inl (NameError "MODEL_PATH")
  | Some _ => inr (mkGlobals (MODEL_PATH g) (Some None))
  end.

(** The guarded block, run when [main] is imported; [inr model] is the value
    of [_loaded_model] the handlers will see. *)
Definition import_main {M} (env : Environment M) : ImportFailure + option M :=
  let '(raised, g) := try_suite env (mkGlobals None None) in
  match (if raised then except_suite g else inr g) with
  | inl e => inl e
  | inr g =>
      match loaded_model g with
      | Some model => inr model
      | None => inl (NameError "_loaded_model")
      end
  end.

(** ** The handlers on arbitrary JSON bodies

    FastAPI hands [ingest] the request body as parsed by [json.loads], a
    [Dict[str, Any]]: nothing makes ["events"] a list, an item an object, a
    timestamp an integer or a user id a string, and a score can be NaN.
    Module [Raw] models the three handlers on such bodies.  Compared with the
    model above:
    - a body is a list of key-value pairs whose values are [json] values;
    - a float is a finite value, kept as an exact rational, an infinity or
      NaN;
    - [user_scores] is a list of pairs (key, deque), looked up with Python's
      equality of keys, since any hashable value can come as ["user_id"];
    - an exception that leaves a handler is part of its result, together with
      the state as the handler left it.
    On bodies of the documented types and with finite scores the two models
    agree. *)
Module Raw.

(** A Python float: a finite value, [inf] or [-inf], or NaN.  Arithmetic on
    finite values is exact: rounding, and overflow of a sum of finite values,
    are outside the model. *)
Inductive pyfloat :=
| Num (q : Q)
| Inf (negative : bool)
| NaN.

#[local] Set Warnings "-register-all".

(** A value as [json.loads] returns it.  An object keeps its pairs in the
    order of the text; of two pairs with one key the later counts. *)
Inductive json :=
| JNull
| JBool (b : bool)
| JInt (z : Z)
| JFloat (x : pyfloat)
| JStr (s : string)
| JList (items : list json)
| JObj (fields : list (string * json)).

(** A deque entry, the tuple [(timestamp, score)]. *)
Abbreviation sample := (Z * pyfloat)%type.

(** Exceptions that a handler raises or lets through.  [HTTPException]
    carries its status; the others reach the client as status 500. *)
Inductive exn :=
| HTTPException (status_code : Z) (detail : string)
| RuntimeError (msg : string)
| ModelError
| TypeError
| AttributeError
| ValueError
| OverflowError
| StatisticsError.

Inductive Response (A : Type) :=
| OK (body : A)
| Raise (e : exn).
Arguments OK {A} body.
Arguments Raise {A} e.

(** The status the client sees. *)
Definition status_code {A} (r : Response A) : Z :=
  match r with
  | OK _ => 200
  | Raise (HTTPException status _) => status
  | Raise _ => 500
  end.

(** [{"median": ...}] *)
Record MedianBody := mkMedianBody { median_field : option pyfloat }.

(** [d.get(k)] on a dictionary read from JSON text: [JNull] is Python's
    [None], returned for a missing key as for a key bound to [null]. *)
Definition dict_get (k : string) (d : list (string * json)) : json :=
  fold_left (λ found kv, if String.eqb kv.1 k then kv.2 else found) d JNull.

Definition is_None (v : json) : bool :=
  match v with
  | JNull => true
  | _ => false
  end.

(** *** [statistics.median] on floats *)

(** [a < b]: false when either side is NaN. *)
Definition lt (a b : pyfloat) : bool :=
  match a, b with
  | NaN, _ | _, NaN => false
  | Num x, Num y => negb (Qle_bool y x)
  | Inf true, Inf true => false
  | Inf true, _ => true
  | _, Inf true => false
  | Inf false, _ => false
  | _, Inf false => true
  end.

(** [a == b]: false when either side is NaN. *)
Definition eqb (a b : pyfloat) : bool :=
  match a, b with
  | Num x, Num y => Qeq_bool x y
  | Inf s, Inf s' => Bool.eqb s s'
  | _, _ => false
  end.

(** [a + b]: [inf + (-inf)] is NaN. *)
Definition add (a b : pyfloat) : pyfloat :=
  match a, b with
  | NaN, _ | _, NaN => NaN
  | Num x, Num y => Num (x + y)
  | Inf s, Num _ | Num _, Inf s => Inf s
  | Inf s, Inf s' => if Bool.eqb s s' then Inf s else NaN
  end.

(** [a / n] for a positive integer [n]. *)
Definition div (a : pyfloat) (n : positive) : pyfloat :=
  match a with
  | Num x => Num (x / inject_Z (Zpos n))
  | Inf s => Inf s
  | NaN => NaN
  end.

(** [sorted(data)] compares with [<] alone.  The list it returns is fixed by
    the comparisons in two cases: when the data holds no NaN, [<] orders it
    and a stable sort has one result; and when no element is below its
    predecessor, the sort finds a single ascending run and returns the list
    as it is, NaN included.  In both cases it is the list that the insertion
    below returns.  For other data with NaN the result depends on how the
    sort splits and merges runs, which is not modelled. *)
Fixpoint insert_sorted (x : pyfloat) (l : list pyfloat) : list pyfloat :=
  match l with
  | [] => [x]
  | y :: l' => if lt y x then y :: insert_sorted x l' else x :: l
  end.

Definition sorted (data : list pyfloat) : list pyfloat :=
  foldr insert_sorted [] data.

(** [statistics.median(data)], [None] for [StatisticsError]. *)
Definition median (data : list pyfloat) : option pyfloat :=
  let data := sorted data in
  let n := length data in
  if (n =? 0)%nat then None
  else if (n mod 2 =? 1)%nat then data !! (n / 2)%nat
  else
    let i := (n / 2)%nat in
    a ← data !! (i - 1)%nat; b ← data !! i; Some (div (add a b) 2%positive).

(** The median in the spec's words, on floats.  Scores are in sorted order
    when none is below an earlier one; two floats are the same value when
    they are equal numbers, the same infinity, or NaN both. *)
Definition le (a b : pyfloat) : Prop := lt b a = false.

Definition same_value (a b : pyfloat) : Prop :=
  match a, b with
  | Num x, Num y => (x == y)%Q
  | Inf s, Inf s' => s = s'
  | NaN, NaN => True
  | _, _ => False
  end.

Definition middle (srt : list pyfloat) : option pyfloat :=
  let n := length srt in
  if Nat.odd n then srt !! (n / 2)%nat
  else a ← srt !! (n / 2 - 1)%nat; b ← srt !! (n / 2)%nat;
       Some (div (add a b) 2%positive).

Definition standard_median (scores : list pyfloat) (m : pyfloat) : Prop :=
  (∃ srt, Permutation srt scores ∧ StronglySorted le srt ∧ middle srt = Some m)
  ∧ (∀ srt, Permutation srt scores → StronglySorted le srt →
       ∃ m', middle srt = Some m' ∧ same_value m m').

(** How many scores satisfy a test; the tests used are "below [x]" and
    "not above [x]". *)
Definition count (f : pyfloat → bool) (l : list pyfloat) : nat :=
  length (List.filter f l).
Definition below (x : pyfloat) : pyfloat → bool := λ z, lt z x.
Definition upto (x : pyfloat) : pyfloat → bool := λ z, negb (lt x z).

(** *** State *)

(** [_loaded_model(x).squeeze().item()] after [torch.tensor([features])], on
    whatever came as ["features"]; [None] when building the tensor or the
    forward pass raises. *)
Definition Model : Type := json → option pyfloat.

Record Service := mkService {
  _loaded_model : option Model;
  user_scores : list (json * list sample);
  stats : Stats
}.

Definition fresh (model : option Model) : Service :=
  mkService model [] stats_init.

Definition _predict_sync (model : option Model) (features : json)
  : exn + pyfloat :=
  match model with
  | None => inl (RuntimeError model_not_loaded)
  | Some forward =>
      match forward features with
      | Some output => inr output
      | None => inl ModelError
      end
  end.

(** *** Keys of [user_scores] *)

(** Lists and dictionaries have no hash. *)
Definition hashable (k : json) : bool :=
  match k with
  | JList _ | JObj _ => false
  | _ => true
  end.

(** The number a key stands for: [True == 1 == 1.0]. *)
Definition number (k : json) : option pyfloat :=
  match k with
  | JBool b => Some (Num (inject_Z (Z.b2z b)))
  | JInt z => Some (Num (inject_Z z))
  | JFloat x => Some x
  | _ => None
  end.

(** Two keys are one key of the dictionary: equal strings, or equal numbers.
    A NaN parsed from the body equals no key. *)
Definition same_key (k k' : json) : bool :=
  match k, k' with
  | JStr s, JStr s' => String.eqb s s'
  | JNull, JNull => true
  | _, _ =>
      match number k, number k' with
      | Some x, Some x' => eqb x x'
      | _, _ => false
      end
  end.

(** [user_scores.get(k)] *)
Fixpoint store_get (k : json) (store : list (json * list sample))
  : option (list sample) :=
  match store with
  | [] => None
  | (k', dq) :: rest => if same_key k' k then Some dq else store_get k rest
  end.

(** The dictionary with the deque of key [k] set to [dq]; a new key goes to
    the end. *)
Fixpoint store_set (k : json) (dq : list sample)
    (store : list (json * list sample)) : list (json * list sample) :=
  match store with
  | [] => [(k, dq)]
  | (k', dq') :: rest =>
      if same_key k' k then (k', dq) :: rest
      else (k', dq') :: store_set k dq rest
  end.

(** *** [_update_user_scores] *)

Fixpoint prune (cutoff : Z) (dq : list sample) : list sample :=
  match dq with
  | [] => []
  | s :: rest => if fst s <? cutoff then prune cutoff rest else dq
  end.

(** [dq = user_scores[user_id]] raises [TypeError] for a key without hash,
    before anything is changed. *)
Definition _update_user_scores (user_scores : list (json * list sample))
    (user_id : json) (timestamp : Z) (score : pyfloat)
  : exn + list (json * list sample) :=
  if hashable user_id then
    let dq := default [] (store_get user_id user_scores) in
    let dq := dq ++ [(timestamp, score)] in
    let cutoff := timestamp - ROLLING_WINDOW_SECONDS in
    inr (store_set user_id (prune cutoff dq) user_scores)
  else inl TypeError.

(** *** [ingest] *)

Section Handlers.

(** [int(s)] on a string, [None] when it raises [ValueError]. *)
Variable int_of_str : string → option Z.

(** [int(ts)] on a value other than [None]. *)
Definition int (ts : json) : exn + Z :=
  match ts with
  | JBool b => inr (Z.b2z b)
  | JInt z => inr z
  | JFloat (Num q) => inr (int q)
  | JFloat (Inf _) => inl OverflowError
  | JFloat NaN => inl ValueError
  | JStr s =>
      match int_of_str s with
      | Some z => inr z
      | None => inl ValueError
      end
  | JNull | JList _ | JObj _ => inl TypeError
  end.

(** One turn of [for event in events].  [event.get] exists on dictionaries
    only.  The scoring call sits inside [try]; [int(ts)] and the call of
    [_update_user_scores] come after it, outside. *)
Definition ingest_event (model : option Model)
    (acc : list (json * list sample) * Z) (event : json)
  : exn + list (json * list sample) * Z :=
  match event with
  | JObj fields =>
      let user_id := dict_get "user_id" fields in
      let ts := dict_get "timestamp" fields in
      let features := dict_get "features" fields in
      if is_None user_id || is_None ts || is_None features then inr acc
      else
        match _predict_sync model features with
        | inl _ => inr acc
        | inr score =>
            match int ts with
            | inl e => inl e
            | inr timestamp =>
                match _update_user_scores acc.1 user_id timestamp score with
                | inl e => inl e
                | inr us => inr (us, acc.2 + 1)
                end
            end
        end
  | _ => inl AttributeError
  end.

(** The loop; an exception ends it, and what earlier turns did to the store
    stays done. *)
Fixpoint ingest_loop (model : option Model) (events : list json)
    (acc : list (json * list sample) * Z)
  : option exn * (list (json * list sample) * Z) :=
  match events with
  | [] => (None, acc)
  | event :: rest =>
      match ingest_event model acc event with
      | inl e => (Some e, acc)
      | inr acc => ingest_loop model rest acc
      end
  end.

(** The characters of a string, each a string of its own. *)
Fixpoint characters (s : string) : list json :=
  match s with
  | EmptyString => []
  | String c s' => JStr (String c EmptyString) :: characters s'
  end.

(** What [for event in events] goes through.  A string yields its
    characters and a dictionary its keys, strings all of them; a number or a
    boolean is not iterable. *)
Definition iterate (events : json) : exn + list json :=
  match events with
  | JList items => inr items
  | JStr s => inr (characters s)
  | JObj fields => inr (map (λ kv, JStr kv.1) fields)
  | JNull | JBool _ | JInt _ | JFloat _ => inl TypeError
  end.

Definition with_ingest_request (st : Stats) : Stats :=
  mkStats (ingest_requests st + 1) (events_processed st)
          (median_requests st) (ingest_latencies st).

(** The handler of [POST /ingest]. *)
Definition ingest (sv : Service) (payload : list (string * json))
    (start_time end_time : Q) : Response IngestBody * Service :=
  let events := dict_get "events" payload in
  if is_None events then (Raise (HTTPException 400 missing_events), sv)
  else
    let st := with_ingest_request (stats sv) in
    match iterate events with
    | inl e => (Raise e, mkService (_loaded_model sv) (user_scores sv) st)
    | inr items =>
        let '(raised, (us, processed_count)) :=
          ingest_loop (_loaded_model sv) items (user_scores sv, 0) in
        match raised with
        | Some e => (Raise e, mkService (_loaded_model sv) us st)
        | None =>
            let duration := (end_time - start_time)%Q in
            let st := mkStats (ingest_requests st)
                              (events_processed st + processed_count)
                              (median_requests st)
                              (ingest_latencies st ++ [duration]) in
            (OK (mkIngestBody processed_count),
             mkService (_loaded_model sv) us st)
        end
    end.

(** *** [get_user_median] and [get_stats] *)

(** The path parameter [user_id] is a string. *)
Definition get_user_median (sv : Service) (uid : string)
  : Response MedianBody * Service :=
  let sv' := mkService (_loaded_model sv) (user_scores sv)
                       (with_median_request (stats sv)) in
  match store_get (JStr uid) (user_scores sv) with
  | None | Some [] => (OK (mkMedianBody None), sv')
  | Some dq =>
      match median (map snd dq) with
      | Some m => (OK (mkMedianBody (Some m)), sv')
      | None => (Raise StatisticsError, sv')
      end
  end.

Definition get_stats (sv : Service) : Response StatsBody * Service :=
  let latencies := ingest_latencies (stats sv) in
  (OK (mkStatsBody (ingest_requests (stats sv))
                   (events_processed (stats sv))
                   (median_requests (stats sv))
                   (avg_latency latencies)),
   sv).

(** *** Requests *)

Inductive Request :=
| ReqIngest (payload : list (string * json)) (start_time end_time : Q)
| ReqMedian (uid : string)
| ReqStats.

Definition serve (sv : Service) (rq : Request) : Service :=
  match rq with
  | ReqIngest payload t0 t1 => (ingest sv payload t0 t1).2
  | ReqMedian uid => (get_user_median sv uid).2
  | ReqStats => (get_stats sv).2
  end.

Definition serve_all (sv : Service) (rqs : list Request) : Service :=
  fold_left serve rqs sv.

(** *** Notions used to state the properties *)

(** The item is an object with its three fields. *)
Definition has_all_fields (event : json) : bool :=
  match event with
  | JObj fields =>
      negb (is_None (dict_get "user_id" fields))
      && negb (is_None (dict_get "timestamp" fields))
      && negb (is_None (dict_get "features" fields))
  | _ => false
  end.

(** The scoring call on the item's features returns a score. *)
Definition scoring_succeeds (model : option Model) (event : json) : bool :=
  match event with
  | JObj fields =>
      match _predict_sync model (dict_get "features" fields) with
      | inr _ => true
      | inl _ => false
      end
  | _ => false
  end.

(** The items a batch is credited for. *)
Definition counted (model : option Model) (event : json) : bool :=
  has_all_fields event && scoring_succeeds model event.

(** The item can go into a deque: [int] takes its timestamp and its user id
    has a hash. *)
Definition recordable (event : json) : bool :=
  match event with
  | JObj fields =>
      match int (dict_get "timestamp" fields) with
      | inr _ => hashable (dict_get "user_id" fields)
      | inl _ => false
      end
  | _ => false
  end.

Definition is_object (event : json) : bool :=
  match event with
  | JObj _ => true
  | _ => false
  end.

(** The loop gets past the item: it is an object, and when it has its fields
    and a score it can go into a deque. *)
Definition passes (model : option Model) (event : json) : bool :=
  is_object event && (negb (counted model event) || recordable event).

(** What a request, served, adds to [stats]. *)
Definition request_ingests (rq : Request) : Z :=
  match rq with
  | ReqIngest payload _ _ =>
      if is_None (dict_get "events" payload) then 0 else 1
  | _ => 0
  end.

Definition request_medians (rq : Request) : Z :=
  match rq with
  | ReqMedian _ => 1
  | _ => 0
  end.

(** The count an ingest request is answered with, if it is answered with
    one. *)
Definition answered_count (model : option Model) (rq : Request) : option Z :=
  match rq with
  | ReqIngest payload _ _ =>
      let events := dict_get "events" payload in
      if is_None events then None
      else
        match iterate events with
        | inr items =>
            if forallb (passes model) items
            then Some (Z.of_nat (length (List.filter (counted model) items)))
            else None
        | inl _ => None
        end
  | _ => None
  end.

Definition request_processed (model : option Model) (rq : Request) : Z :=
  default 0 (answered_count model rq).

Definition request_latency (model : option Model) (rq : Request) : list Q :=
  match rq, answered_count model rq with
  | ReqIngest _ t0 t1, Some _ => [(t1 - t0)%Q]
  | _, _ => []
  end.

End Handlers.

(** An instance of [int] on strings, for the examples: an optional sign and
    ASCII digits.  Python takes these strings, with this value. *)
Definition digit (c : Ascii.ascii) : option Z :=
  let n := Z.of_nat (Ascii.nat_of_ascii c) - 48 in
  if (0 <=? n) && (n <=? 9) then Some n else None.

Fixpoint digits (s : string) (value : Z) : option Z :=
  match s with
  | EmptyString => Some value
  | String c s' =>
      match digit c with
      | Some d => digits s' (10 * value + d)
      | None => None
      end
  end.

Definition int_of_decimal (s : string) : option Z :=
  match s with
  | EmptyString => None
  | String "-"%char (String c s') => Z.opp <$> digits (String c s') 0
  | String "+"%char (String c s') => digits (String c s') 0
  | String c s' => digits (String c s') 0
  end.

End Raw.

(** ** Bodies of the documented types *)

Definition of_sample (s : sample) : Raw.sample := (s.1, Raw.Num s.2).

(** The JSON text of an event, of a body and of a feature vector. *)
Definition of_features (fs : list Q) : Raw.json :=
  Raw.JList (map (λ q, Raw.JFloat (Raw.Num q)) fs).

Definition of_event (e : Event) : Raw.json :=
  Raw.JObj [ ("user_id", from_option Raw.JStr Raw.JNull (user_id e));
             ("timestamp", from_option Raw.JInt Raw.JNull (timestamp e));
             ("features", from_option of_features Raw.JNull (features e)) ].

Definition of_payload (p : Payload) : list (string * Raw.json) :=
  match events p with
  | Some evs => [("events", Raw.JList (map of_event evs))]
  | None => []
  end.

(** A list of finite floats, as the forward pass of the model above takes
    it. *)
Definition to_floats (features : Raw.json) : option (list Q) :=
  match features with
  | Raw.JList items =>
      mapM (λ v, match v with
                 | Raw.JFloat (Raw.Num q) => Some q
                 | _ => None
                 end) items
  | _ => None
  end.

Definition of_model (forward : Model) : Raw.Model :=
  λ features, fs ← to_floats features; Raw.Num <$> forward fs.

(** The two stores hold, for every user id, the same deque. *)
Definition same_windows (us : gmap string (list sample))
    (rus : list (Raw.json * list Raw.sample)) : Prop :=
  ∀ uid, Raw.store_get (Raw.JStr uid) rus = map of_sample <$> (us !! uid).

(** The two states hold the same: the same model, the same counters and
    latencies, the same deques. *)
Definition same_state (sv : Service) (rsv : Raw.Service) : Prop :=
  Raw._loaded_model rsv = of_model <$> _loaded_model sv
  ∧ Raw.stats rsv = stats sv
  ∧ same_windows (user_scores sv) (Raw.user_scores rsv).

(** A forward pass on three finite floats. *)
Definition raw_sum3 : Raw.Model := of_model sum3.

(** The answer on a body of the documented types, as the handlers on
    arbitrary bodies give it. *)
Definition of_response {A} (r : Response A) : Raw.Response A :=
  match r with
  | OK body => Raw.OK body
  | HTTPException status detail => Raw.Raise (Raw.HTTPException status detail)
  end.

Definition of_median_response (r : Response MedianBody)
  : Raw.Response Raw.MedianBody :=
  match r with
  | OK body => Raw.OK (Raw.mkMedianBody (Raw.Num <$> median_field body))
  | HTTPException status detail => Raw.Raise (Raw.HTTPException status detail)
  end.

(** A list of two items, the second without features. *)
Definition raw_batch_example : list Raw.json :=
  [ Raw.JObj [("user_id", Raw.JStr "u1"); ("timestamp", Raw.JInt 5);
              ("features", Raw.JList [Raw.JFloat (Raw.Num 1);
                                      Raw.JFloat (Raw.Num 2);
                                      Raw.JFloat (Raw.Num 3)])];
    Raw.JObj [("user_id", Raw.JStr "u1"); ("timestamp", Raw.JInt 6)] ].

(** * Properties *)

Example prune_ex :
  record_sample [(1000, (1#2)%Q)] 1400 (3#4)%Q = [(1400, (3#4)%Q)].
Proof. reflexivity. Qed.

Example median_ex1 : median [(3#1); (1#1); (2#1)]%Q = Some (2#1)%Q.
Proof. reflexivity. Qed.

Example median_ex2 : median [(4#1); (1#1); (2#1); (3#1)]%Q = Some ((2 + 3) / 2)%Q.
Proof. reflexivity. Qed.

(** ** The pruning loop *)

Section Prune.
Implicit Types (dq : list sample) (cutoff : Z).

(** The loop removes a prefix, and every removed entry is older than the
    cutoff. *)
Lemma prune_split cutoff dq :
  ∃ pruned, dq = pruned ++ prune cutoff dq
            ∧ Forall (λ s, fst s < cutoff) pruned.
Proof.
  induction dq as [|s rest IH]; simpl.
  - exists []. split; [reflexivity | constructor].
  - destruct (Z.ltb_spec (fst s) cutoff) as [Hlt|Hge].
    + destruct IH as (pruned & Heq & Hall).
      exists (s :: pruned). split.
      * simpl. f_equal. exact Heq.
      * constructor; assumption.
    + exists []. split; [reflexivity | constructor].
Qed.

(** The loop stops at the first entry that is not older than the cutoff. *)
Lemma prune_head cutoff dq h rest :
  prune cutoff dq = h :: rest → cutoff <= fst h.
Proof.
  induction dq as [|s dq' IH]; simpl; [discriminate|].
  destruct (Z.ltb_spec (fst s) cutoff) as [Hlt|Hge]; [exact IH|].
  intros [= <- _]. exact Hge.
Qed.

Lemma prune_all_old cutoff dq :
  Forall (λ s, fst s < cutoff) dq → prune cutoff dq = [].
Proof.
  induction 1 as [|s rest Hs _ IH]; simpl; [reflexivity|].
  destruct (Z.ltb_spec (fst s) cutoff); [exact IH | lia].
Qed.

Lemma prune_keep cutoff s rest :
  cutoff <= fst s → prune cutoff (s :: rest) = s :: rest.
Proof.
  intros Hge. simpl. destruct (Z.ltb_spec (fst s) cutoff); [lia | reflexivity].
Qed.

(** An entry that is not older than the cutoff, at the right end, is never
    popped. *)
Lemma prune_snoc cutoff dq x :
  cutoff <= fst x → prune cutoff (dq ++ [x]) = prune cutoff dq ++ [x].
Proof.
  intros Hx. induction dq as [|s rest IH]; simpl.
  - destruct (Z.ltb_spec (fst x) cutoff); [lia | reflexivity].
  - destruct (Z.ltb_spec (fst s) cutoff); [exact IH | reflexivity].
Qed.

(** When the timestamps do not decrease from left to right, what the loop
    leaves is at or after the cutoff. *)
Lemma prune_sorted cutoff dq :
  StronglySorted Z.le (map fst dq) →
  Forall (λ s, cutoff <= fst s) (prune cutoff dq).
Proof.
  induction dq as [|s rest IH]; simpl; intros Hs; [constructor|].
  apply StronglySorted_inv in Hs as [Hrest Hall].
  destruct (Z.ltb_spec (fst s) cutoff) as [Hlt|Hge]; [auto|].
  constructor; [exact Hge|].
  rewrite Forall_map in Hall.
  eapply Forall_impl; [exact Hall|]. simpl. intros; lia.
Qed.

Lemma prune_sorted_keeps cutoff dq :
  StronglySorted Z.le (map fst dq) →
  StronglySorted Z.le (map fst (prune cutoff dq)).
Proof.
  induction dq as [|s rest IH]; simpl; intros Hs; [constructor|].
  destruct (fst s <? cutoff); [|exact Hs].
  apply IH. by apply StronglySorted_inv in Hs as [? _].
Qed.
(** On timestamps in order the loop removes all the entries older than the
    cutoff and no other. *)
Lemma prune_sorted_filter cutoff dq :
  StronglySorted Z.le (map fst dq) →
  prune cutoff dq = List.filter (λ s, cutoff <=? fst s) dq.
Proof.
  induction dq as [|s rest IH]; simpl; intros Hs; [reflexivity|].
  apply StronglySorted_inv in Hs as [Hrest Hall].
  destruct (Z.ltb_spec (fst s) cutoff) as [Hlt|Hge].
  - destruct (Z.leb_spec cutoff (fst s)); [lia | auto].
  - destruct (Z.leb_spec cutoff (fst s)); [|lia]. f_equal.
    rewrite Forall_map in Hall. clear -Hall Hge.
    induction Hall as [|x l Hx _ IHl]; simpl; [reflexivity|].
    simpl in Hx. destruct (Z.leb_spec cutoff (fst x)); [|lia].
    by rewrite <- IHl.
Qed.
End Prune.

(** ** [_update_user_scores] *)

Lemma window_update us uid ts sc :
  window (_update_user_scores us uid ts sc) uid
  = record_sample (window us uid) ts sc.
Proof. unfold window, _update_user_scores. by rewrite lookup_insert_eq. Qed.

Lemma window_update_ne us uid uid' ts sc :
  uid ≠ uid' →
  _update_user_scores us uid ts sc !! uid' = us !! uid'.
Proof. intros Hne. unfold _update_user_scores. by rewrite lookup_insert_ne. Qed.

Lemma record_sample_snoc dq ts sc :
  record_sample dq ts sc
  = prune (ts - ROLLING_WINDOW_SECONDS) dq ++ [(ts, sc)].
Proof.
  unfold record_sample. apply prune_snoc. simpl.
  unfold ROLLING_WINDOW_SECONDS. lia.
Qed.

(** The deque is never left empty by an insertion. *)
Lemma record_sample_nonempty dq ts sc : record_sample dq ts sc ≠ [].
Proof. rewrite record_sample_snoc. by destruct (prune _ dq). Qed.

(** What an insertion guarantees whatever the order of arrival: the left end
    of the deque is not older than the cutoff of this insertion. *)
Lemma record_sample_head dq ts sc h rest :
  record_sample dq ts sc = h :: rest → ts - ROLLING_WINDOW_SECONDS <= fst h.
Proof. unfold record_sample. apply prune_head. Qed.

(** Insertions in timestamp order keep the deque in timestamp order, and then
    every entry is inside the window of the entry just inserted. *)
Lemma record_sample_in_order dq ts sc :
  StronglySorted Z.le (map fst dq) →
  Forall (λ s, fst s <= ts) dq →
  StronglySorted Z.le (map fst (record_sample dq ts sc))
  ∧ Forall (λ s, fst s <= ts) (record_sample dq ts sc)
  ∧ Forall (λ s, ts - ROLLING_WINDOW_SECONDS <= fst s) (record_sample dq ts sc).
Proof.
  intros Hs Hle.
  assert (Hs' : StronglySorted Z.le (map fst (dq ++ [(ts, sc)]))).
  { rewrite map_app. clear -Hs Hle.
    induction dq as [|s rest IH]; simpl.
    - repeat constructor.
    - apply StronglySorted_inv in Hs as [Hrest Hall].
      apply Forall_cons in Hle as [Hs Hle].
      constructor; [by apply IH|].
      rewrite Forall_app. split; [exact Hall|]. by repeat constructor. }
  assert (Hle' : Forall (λ s, fst s <= ts) (dq ++ [(ts, sc)])).
  { rewrite Forall_app. split; [exact Hle|]. repeat constructor. simpl. lia. }
  unfold record_sample. cbv zeta.
  destruct (prune_split (ts - ROLLING_WINDOW_SECONDS) (dq ++ [(ts, sc)]))
    as (pruned & Heq & _).
  split; [by apply prune_sorted_keeps|].
  split; [|by apply prune_sorted].
  rewrite Heq in Hle'. by apply Forall_app in Hle' as [_ ?].
Qed.

(** The window bound for a user whose events arrive in timestamp order: after
    the last of a run of insertions, each kept entry is at most
    [ROLLING_WINDOW_SECONDS] older than that insertion. *)
Lemma window_bound_in_order us uid calls c :
  window us uid = [] →
  StronglySorted Z.le (map fst (calls ++ [c])) →
  Forall (λ s, fst c - ROLLING_WINDOW_SECONDS <= fst s)
         (window (record_all us uid (calls ++ [c])) uid).
Proof.
  intros Hempty Hsorted.
  enough (H : ∀ calls us,
             StronglySorted Z.le (map fst (window us uid ++ calls)) →
             StronglySorted Z.le (map fst (window (record_all us uid calls) uid))
             ∧ (∀ c calls', calls = calls' ++ [c] →
                  Forall (λ s, fst c - ROLLING_WINDOW_SECONDS <= fst s)
                         (window (record_all us uid calls) uid))).
  { destruct (H (calls ++ [c]) us) as [_ Hb]; [by rewrite Hempty|]. eauto. }
  clear. intros calls. induction calls as [|c calls IH] using rev_ind; intros us Hs.
  - simpl. rewrite app_nil_r in Hs. split; [exact Hs|].
    intros c calls' Heq. by destruct calls'.
  - rewrite app_assoc in Hs.
    unfold record_all. rewrite fold_left_app. simpl.
    fold (record_all us uid calls). rewrite window_update.
    destruct c as [ts sc]. simpl.
    assert (Hpre : StronglySorted Z.le (map fst (window us uid ++ calls))
                   ∧ Forall (λ s, fst s <= ts) (window us uid ++ calls)).
    { rewrite map_app in Hs. simpl in Hs. clear IH.
      revert Hs. generalize (window us uid ++ calls). intros l.
      induction l as [|s rest IHl]; simpl; intros Hs.
      - split; constructor.
      - apply StronglySorted_inv in Hs as [Hrest Hall].
        destruct (IHl Hrest) as [Hs1 Hle1].
        rewrite Forall_app in Hall. destruct Hall as [Hall Hlast].
        split; [by constructor|].
        constructor; [|exact Hle1]. by apply Forall_inv in Hlast. }
    destruct Hpre as [Hpre Hle].
    destruct (IH us Hpre) as [Hsorted _].
    assert (Hle' : Forall (λ s, fst s <= ts) (window (record_all us uid calls) uid)).
    { clear -Hle. apply Forall_app in Hle as [Hw Hc].
      revert us Hw. induction calls as [|c calls IH] using rev_ind; intros us Hw.
      - exact Hw.
      - apply Forall_app in Hc as [Hc Hlast]. apply Forall_inv in Hlast.
        unfold record_all. rewrite fold_left_app. simpl.
        fold (record_all us uid calls). rewrite window_update.
        rewrite record_sample_snoc. rewrite Forall_app. split.
        + destruct (prune_split (fst c - ROLLING_WINDOW_SECONDS)
                      (window (record_all us uid calls) uid)) as (p & Heq & _).
          specialize (IH Hc us Hw). rewrite Heq in IH.
          by apply Forall_app in IH as [_ ?].
        + repeat constructor. exact Hlast. }
    destruct (record_sample_in_order _ ts sc Hsorted Hle') as (H1 & _ & H3).
    split; [exact H1|].
    intros c' calls' Heq. apply app_inj_tail in Heq as [_ <-]. exact H3.
Qed.

(** C1, at an input where it fails.  Three events of one user arrive with
    timestamps 1000, 0 and 1000.  The third insertion has cutoff 700; the loop
    looks at the left end only, finds 1000 and stops, so the entry with
    timestamp 0 stays in the deque although it is older than the cutoff.  The
    bound "every retained timestamp >= inserted timestamp - 300" does not hold
    for events out of timestamp order, be they recorded by
    [_update_user_scores] directly or ingested as one batch. *)
Theorem window_bound_broken_out_of_order :
  let us := record_all ∅ "u" [(1000, 1%Q); (0, 2%Q); (1000, 3%Q)] in
  let batch :=
    [ mkEvent (Some "u") (Some 1000) (Some [1; 0; 0]%Q);
      mkEvent (Some "u") (Some 0) (Some [2; 0; 0]%Q);
      mkEvent (Some "u") (Some 1000) (Some [3; 0; 0]%Q) ] in
  let sv := (ingest (fresh (Some sum3)) (mkPayload (Some batch)) 0%Q 1%Q).2 in
  window us "u" = [(1000, 1%Q); (0, 2%Q); (1000, 3%Q)]
  ∧ ¬ Forall (λ s, 1000 - ROLLING_WINDOW_SECONDS <= fst s) (window us "u")
  ∧ map fst (window (user_scores sv) "u") = [1000; 0; 1000]
  ∧ ¬ Forall (λ s, 1000 - ROLLING_WINDOW_SECONDS <= fst s)
             (window (user_scores sv) "u").
Proof.
  cbv zeta.
  assert (Hbad : ∀ w : list sample,
             map fst w = [1000; 0; 1000] →
             ¬ Forall (λ s, 1000 - ROLLING_WINDOW_SECONDS <= fst s) w).
  { intros w Hw H. apply (Forall_map fst (λ z, 1000 - ROLLING_WINDOW_SECONDS <= z)) in H.
    rewrite Hw in H.
    apply Forall_cons in H as [_ H]. apply Forall_cons in H as [H _].
    unfold ROLLING_WINDOW_SECONDS in H. lia. }
  split; [reflexivity|]. split; [by apply Hbad|].
  split; [reflexivity|]. by apply Hbad.
Qed.

(** X23.  [_update_user_scores us uid T sc] puts [(T, sc)] at the right end of
    the user's deque and then pops from the left end: what is popped is a
    prefix [pruned] of the appended deque, every popped entry has a timestamp
    below [T - ROLLING_WINDOW_SECONDS], popping stops at the first entry that
    is not below that cutoff (so the new left end is not below it), and the
    entry just inserted stays at the right end.  The cutoff depends on [T]
    alone.  No other user's deque changes.  When the timestamps of the deque
    are in order, the entries popped are all those below the cutoff and no
    other.  In particular, for a user with no entry at or after [T + 100] (a
    new user, say), insertions at [T] and then at [T + 400] leave the deque
    with the [T + 400] entry alone. *)
Theorem record_appends_then_prunes_head us uid T sc :
  let cutoff := T - ROLLING_WINDOW_SECONDS in
  let us' := _update_user_scores us uid T sc in
  (∃ pruned kept,
      window us uid ++ [(T, sc)] = pruned ++ window us' uid
      ∧ Forall (λ s, fst s < cutoff) pruned
      ∧ window us' uid = kept ++ [(T, sc)]
      ∧ (∀ h, head (window us' uid) = Some h → cutoff <= fst h))
  ∧ (∀ uid', uid ≠ uid' → us' !! uid' = us !! uid')
  ∧ (StronglySorted Z.le (map fst (window us uid ++ [(T, sc)])) →
     window us' uid
     = List.filter (λ s, cutoff <=? fst s) (window us uid ++ [(T, sc)]))
  ∧ (∀ sc',
       Forall (λ s, fst s < T + 400 - ROLLING_WINDOW_SECONDS) (window us uid) →
       window (_update_user_scores us' uid (T + 400) sc') uid
       = [(T + 400, sc')]).
Proof.
  cbv zeta. split; [|split; [|split]].
  - rewrite window_update.
    destruct (prune_split (T - ROLLING_WINDOW_SECONDS) (window us uid ++ [(T, sc)]))
      as (pruned & Heq & Hold).
    exists pruned, (prune (T - ROLLING_WINDOW_SECONDS) (window us uid)).
    split; [exact Heq|]. split; [exact Hold|].
    split; [apply record_sample_snoc|].
    intros h Hh. destruct (record_sample _ T sc) as [|h' rest] eqn:E; [discriminate|].
    injection Hh as <-. by apply record_sample_head in E.
  - intros uid' Hne. by apply window_update_ne.
  - intros Hs. rewrite window_update. by apply prune_sorted_filter.
  - intros sc' Hold. rewrite !window_update.
    rewrite (record_sample_snoc _ (T + 400)).
    rewrite prune_all_old; [reflexivity|].
    rewrite record_sample_snoc. rewrite Forall_app. split.
    + destruct (prune_split (T - ROLLING_WINDOW_SECONDS) (window us uid))
        as (p & Heq & _).
      rewrite Heq in Hold. by apply Forall_app in Hold as [_ ?].
    + repeat constructor. simpl. unfold ROLLING_WINDOW_SECONDS. lia.
Qed.

Lemma record_appends_then_prunes_head_witness :
  window (_update_user_scores ∅ "u2" 1700000000 (1#2)%Q) "u2"
  = List.filter (λ s, 1700000000 - ROLLING_WINDOW_SECONDS <=? fst s)
                [(1700000000, (1#2)%Q)]
  ∧ window (_update_user_scores
              (_update_user_scores ∅ "u2" 1700000000 (1#2)%Q)
              "u2" (1700000000 + 400) (3#4)%Q) "u2"
    = [(1700000000 + 400, (3#4)%Q)].
Proof.
  destruct (record_appends_then_prunes_head ∅ "u2" 1700000000 (1#2)%Q)
    as (_ & _ & Hfilter & Hscenario).
  split.
  - apply Hfilter. repeat constructor.
  - apply Hscenario. constructor.
Defined.

(** ** [statistics.median] *)

Section Sorting.
Implicit Types (l srt : list Q) (x y : Q).

Lemma insert_sorted_perm x l : Permutation (insert_sorted x l) (x :: l).
Proof.
  induction l as [|y l IH]; simpl; [reflexivity|].
  destruct (Qle_bool x y); [reflexivity|].
  rewrite IH. apply perm_swap.
Qed.

Lemma insert_sorted_sorted x l :
  StronglySorted Qle l → StronglySorted Qle (insert_sorted x l).
Proof.
  induction l as [|y l IH]; simpl; intros Hs.
  - repeat constructor.
  - apply StronglySorted_inv in Hs as Hinv. destruct Hinv as [Hl Hall].
    destruct (Qle_bool x y) eqn:E.
    + apply Qle_bool_iff in E. constructor; [exact Hs|].
      constructor; [exact E|].
      eapply Forall_impl; [exact Hall|]. simpl. intros z Hz.
      by apply Qle_trans with y.
    + assert (Hyx : (y <= x)%Q).
      { apply Qlt_le_weak, Qnot_le_lt. intros H.
        apply Qle_bool_iff in H. congruence. }
      constructor; [by apply IH|].
      rewrite (insert_sorted_perm x l). by constructor.
Qed.

Lemma sorted_perm l : Permutation (sorted l) l.
Proof.
  induction l as [|x l IH]; simpl; [reflexivity|].
  rewrite insert_sorted_perm. by constructor.
Qed.

Lemma sorted_sorted l : StronglySorted Qle (sorted l).
Proof.
  induction l as [|x l IH]; simpl; [constructor|].
  by apply insert_sorted_sorted.
Qed.

Lemma sorted_length l : length (sorted l) = length l.
Proof. apply Permutation_length, sorted_perm. Qed.

(** On data that is not empty, the library function is the middle of the
    sorted data. *)
Lemma median_middle l : l ≠ [] → median l = middle (sorted l).
Proof.
  intros Hne. unfold median, middle. cbv zeta.
  assert (Hlen : length (sorted l) ≠ 0%nat).
  { rewrite sorted_length. by destruct l. }
  destruct (Nat.eqb_spec (length (sorted l)) 0) as [|_]; [done|].
  pose proof (Nat.bit0_mod (length (sorted l))) as Hbit.
  rewrite Nat.bit0_odd in Hbit. rewrite <- Hbit.
  by destruct (Nat.odd (length (sorted l))).
Qed.

Lemma middle_is_Some srt : srt ≠ [] → is_Some (middle srt).
Proof.
  intros Hne. unfold middle. cbv zeta.
  assert (Hpos : (0 < length srt)%nat) by (destruct srt; [done | simpl; lia]).
  assert (Hhalf : (length srt / 2 < length srt)%nat)
    by (apply Nat.div_lt; lia).
  destruct (Nat.odd (length srt)).
  - by apply lookup_lt_is_Some_2.
  - destruct (lookup_lt_is_Some_2 srt (length srt / 2 - 1)) as [a ->]; [lia|].
    destruct (lookup_lt_is_Some_2 srt (length srt / 2)) as [b ->]; [lia|].
    simpl. eauto.
Qed.
End Sorting.

(** The value at a given rank of an ordered arrangement does not depend on the
    arrangement: it is fixed by how many scores lie below it and how many do
    not lie above it, and these counts are the same for all arrangements. *)
Section Rank.
Implicit Types (l srt : list Q) (x y : Q) (f g : Q → bool).

Lemma count_perm f l l' : Permutation l l' → count f l = count f l'.
Proof.
  unfold count. induction 1 as [|z l l' _ IH|a b l|l l' l'' _ IH1 _ IH2]; simpl.
  - reflexivity.
  - destruct (f z); simpl; congruence.
  - destruct (f a), (f b); reflexivity.
  - congruence.
Qed.

Lemma count_app f l l' : count f (l ++ l') = (count f l + count f l')%nat.
Proof. unfold count. by rewrite List.filter_app, length_app. Qed.

Lemma count_mono f g l :
  (∀ z, f z = true → g z = true) → (count f l <= count g l)%nat.
Proof.
  intros Hfg. unfold count. induction l as [|z l IH]; simpl; [lia|].
  destruct (f z) eqn:E.
  - rewrite (Hfg z E). simpl. lia.
  - destruct (g z); simpl; lia.
Qed.

Lemma count_none f l : Forall (λ z, f z = false) l → count f l = 0%nat.
Proof.
  unfold count. induction 1 as [|z l Hz _ IH]; simpl; [reflexivity|].
  by rewrite Hz.
Qed.

Lemma count_all f l : Forall (λ z, f z = true) l → count f l = length l.
Proof.
  unfold count. induction 1 as [|z l Hz _ IH]; simpl; [reflexivity|].
  rewrite Hz. simpl. by rewrite IH.
Qed.

Lemma count_le_length f l : (count f l <= length l)%nat.
Proof.
  unfold count. induction l as [|z l IH]; simpl; [lia|].
  destruct (f z); simpl; lia.
Qed.

Lemma below_spec x z : below x z = true ↔ (z < x)%Q.
Proof.
  unfold below. rewrite negb_true_iff. split.
  - intros H. apply Qnot_le_lt. intros Hle.
    apply Qle_bool_iff in Hle. congruence.
  - intros Hlt. destruct (Qle_bool x z) eqn:E; [|reflexivity].
    apply Qle_bool_iff in E. by apply Qlt_not_le in Hlt.
Qed.

Lemma sorted_split (l1 l2 : list Q) x :
  StronglySorted Qle (l1 ++ x :: l2) →
  Forall (λ z, (z <= x)%Q) l1 ∧ Forall (λ z, (x <= z)%Q) l2.
Proof.
  induction l1 as [|y l1 IH]; simpl; intros Hs.
  - apply StronglySorted_inv in Hs as [_ Hall]. split; [constructor | exact Hall].
  - apply StronglySorted_inv in Hs as [Hs Hall].
    destruct (IH Hs) as [H1 H2]. split; [|exact H2].
    constructor; [|exact H1].
    rewrite Forall_app in Hall. destruct Hall as [_ Hall].
    by apply Forall_inv in Hall.
Qed.

(** In an ordered arrangement with [x] at rank [k], fewer than [k + 1]
    scores are below [x] and at least [k + 1] are not above it. *)
Lemma rank_counts srt k x :
  StronglySorted Qle srt → srt !! k = Some x →
  (count (below x) srt <= k)%nat ∧ (k < count (upto x) srt)%nat.
Proof.
  intros Hs Hk.
  pose proof (lookup_lt_Some _ _ _ Hk) as Hlt.
  rewrite <- (take_drop_middle _ _ _ Hk) in Hs |- *.
  destruct (sorted_split _ _ _ Hs) as [H1 H2].
  assert (Hlen : length (take k srt) = k) by (rewrite length_take; lia).
  rewrite !count_app. split.
  - change (x :: drop (S k) srt) with ([x] ++ drop (S k) srt).
    rewrite count_app.
    rewrite (count_none (below x) (drop (S k) srt)).
    + rewrite (count_none (below x) [x]).
      * pose proof (count_le_length (below x) (take k srt)). lia.
      * repeat constructor. unfold below. apply negb_false_iff.
        apply Qle_bool_iff, Qle_refl.
    + eapply Forall_impl; [exact H2|]. simpl. intros z Hz.
      unfold below. apply negb_false_iff. by apply Qle_bool_iff.
  - rewrite (count_all (upto x) (take k srt)).
    + change (x :: drop (S k) srt) with ([x] ++ drop (S k) srt).
      rewrite count_app. rewrite (count_all (upto x) [x]); [simpl; lia|].
      repeat constructor. apply Qle_bool_iff, Qle_refl.
    + eapply Forall_impl; [exact H1|]. simpl. intros z Hz.
      by apply Qle_bool_iff.
Qed.

Lemma rank_le srt srt' k x y :
  Permutation srt srt' →
  StronglySorted Qle srt → StronglySorted Qle srt' →
  srt !! k = Some x → srt' !! k = Some y → (x <= y)%Q.
Proof.
  intros Hp Hs Hs' Hx Hy.
  apply Qnot_lt_le. intros Hlt.
  destruct (rank_counts _ _ _ Hs Hx) as [Hbelow _].
  destruct (rank_counts _ _ _ Hs' Hy) as [_ Hupto].
  rewrite <- (count_perm _ _ _ Hp) in Hupto.
  assert (Hm : (count (upto y) srt <= count (below x) srt)%nat).
  { apply count_mono. intros z Hz. apply below_spec.
    apply Qle_bool_iff in Hz. by apply Qle_lt_trans with y. }
  lia.
Qed.

Lemma rank_unique srt srt' k x y :
  Permutation srt srt' →
  StronglySorted Qle srt → StronglySorted Qle srt' →
  srt !! k = Some x → srt' !! k = Some y → (x == y)%Q.
Proof.
  intros Hp Hs Hs' Hx Hy. apply Qle_antisym.
  - by apply (rank_le srt srt' k).
  - by apply (rank_le srt' srt k).
Qed.

(** Two ordered arrangements of the same scores have the same middle. *)
Lemma middle_unique srt srt' m :
  Permutation srt srt' →
  StronglySorted Qle srt → StronglySorted Qle srt' →
  middle srt = Some m →
  ∃ m', middle srt' = Some m' ∧ (m == m')%Q.
Proof.
  intros Hp Hs Hs' Hm. unfold middle in *. cbv zeta in *.
  rewrite <- (Permutation_length Hp).
  assert (Hlk : ∀ k x, srt !! k = Some x → ∃ y, srt' !! k = Some y ∧ (x == y)%Q).
  { intros k x Hx.
    destruct (lookup_lt_is_Some_2 srt' k) as [y Hy].
    - rewrite <- (Permutation_length Hp). by eapply lookup_lt_Some.
    - exists y. split; [exact Hy|]. by apply (rank_unique srt srt' k). }
  destruct (Nat.odd (length srt)).
  - apply Hlk in Hm as (y & -> & Hxy). eauto.
  - destruct (srt !! (length srt / 2 - 1)%nat) as [a|] eqn:Ea; [|discriminate].
    destruct (srt !! (length srt / 2)%nat) as [b|] eqn:Eb; [|discriminate].
    simpl in Hm. injection Hm as <-.
    apply Hlk in Ea as (a' & -> & Ha). apply Hlk in Eb as (b' & -> & Hb).
    simpl. eexists. split; [reflexivity|]. by rewrite Ha, Hb.
Qed.
End Rank.

(** On data that is not empty, [statistics.median] returns the standard
    median. *)
Lemma median_standard scores :
  scores ≠ [] → ∃ m, median scores = Some m ∧ standard_median scores m.
Proof.
  intros Hne. rewrite (median_middle _ Hne).
  assert (Hs : sorted scores ≠ []).
  { intros E. apply (f_equal length) in E. rewrite sorted_length in E.
    by destruct scores. }
  destruct (middle_is_Some _ Hs) as [m Hm].
  exists m. split; [exact Hm|]. split.
  - exists (sorted scores). auto using sorted_perm, sorted_sorted.
  - intros srt Hp Hsrt.
    apply (middle_unique (sorted scores)); auto using sorted_sorted.
    by rewrite sorted_perm, Hp.
Qed.

(** ** [get_user_median] *)

Lemma get_user_median_state sv uid :
  (get_user_median sv uid).2
  = mkService (_loaded_model sv) (user_scores sv) (with_median_request (stats sv)).
Proof.
  unfold get_user_median. cbv zeta.
  destruct (user_scores sv !! uid) as [[|s dq]|]; try reflexivity.
  by destruct (median _).
Qed.

Example get_user_median_ex :
  (get_user_median sv_example "u1").1 = OK (mkMedianBody (Some (2#1)%Q))
  ∧ (get_user_median sv_example "u9").1 = OK (mkMedianBody None).
Proof. split; reflexivity. Qed.

(** C10.  [get_user_median] leaves the window store as it was, for known and
    unknown users alike: the store after the call is the store before it, so
    no key is added and no deque is changed.  Of the whole state, the counter
    [median_requests] alone changes, by one. *)
Theorem get_user_median_frame sv uid :
  let sv' := (get_user_median sv uid).2 in
  user_scores sv' = user_scores sv
  ∧ dom (user_scores sv') = dom (user_scores sv)
  ∧ user_scores sv' !! uid = user_scores sv !! uid
  ∧ _loaded_model sv' = _loaded_model sv
  ∧ ingest_requests (stats sv') = ingest_requests (stats sv)
  ∧ events_processed (stats sv') = events_processed (stats sv)
  ∧ ingest_latencies (stats sv') = ingest_latencies (stats sv)
  ∧ median_requests (stats sv') = median_requests (stats sv) + 1.
Proof. cbv zeta. rewrite get_user_median_state. simpl. tauto. Qed.

(** ** [get_stats] *)

Lemma fold_left_Qplus (l : list Q) (a : Q) :
  (fold_left Qplus l a == a + foldr Qplus 0 l)%Q.
Proof.
  revert a. induction l as [|x l IH]; intros a; simpl.
  - by rewrite Qplus_0_r.
  - rewrite IH. by rewrite Qplus_assoc.
Qed.

Lemma avg_latency_mean (l : list Q) :
  l ≠ [] → (avg_latency l == arithmetic_mean l)%Q.
Proof.
  intros Hne. destruct l as [|x l]; [done|].
  unfold avg_latency, arithmetic_mean, sum.
  by rewrite fold_left_Qplus, Qplus_0_l.
Qed.

(** C5.  [get_stats] answers with the three counters as they stand and with
    [avg_ingest_latency_seconds]: [0] when no latency has been recorded, the
    arithmetic mean of the recorded latencies otherwise.  The state is not
    changed. *)
Theorem get_stats_snapshot sv :
  ∃ body,
    get_stats sv = (OK body, sv)
    ∧ body_ingest_requests body = ingest_requests (stats sv)
    ∧ body_events_processed body = events_processed (stats sv)
    ∧ body_median_requests body = median_requests (stats sv)
    ∧ match ingest_latencies (stats sv) with
      | [] => avg_ingest_latency_seconds body = 0%Q
      | _ => (avg_ingest_latency_seconds body
              == arithmetic_mean (ingest_latencies (stats sv)))%Q
      end.
Proof.
  eexists. split; [reflexivity|]. simpl. repeat split.
  destruct (ingest_latencies (stats sv)) as [|x l] eqn:E; [reflexivity|].
  by apply avg_latency_mean.
Qed.

Example get_stats_ex :
  (get_stats sv_example).1 = OK (mkStatsBody 2 3 1 ((0 + (1#4) + (3#4)) / 2)%Q).
Proof. reflexivity. Qed.

(** ** [ingest] *)

Section Ingest.
Variable model : option Model.
Implicit Types (acc : gmap string (list sample) * Z) (e : Event).

Lemma ingest_event_skip acc e :
  counted model e = false → ingest_event model acc e = acc.
Proof.
  unfold counted, has_all_fields, scoring_succeeds, ingest_event.
  destruct (user_id e), (timestamp e), (features e) as [fs|];
    try reflexivity.
  destruct (_predict_sync model fs); [reflexivity|].
  rewrite !bool_decide_eq_true_2 by eauto. discriminate.
Qed.

Lemma ingest_event_count acc e :
  counted model e = true → (ingest_event model acc e).2 = acc.2 + 1.
Proof.
  unfold counted, has_all_fields, scoring_succeeds, ingest_event.
  destruct (user_id e), (timestamp e), (features e) as [fs|];
    rewrite ?andb_false_r; try discriminate;
    try (rewrite bool_decide_eq_false_2 by (by intros [? ?]);
         rewrite ?andb_false_r; discriminate).
  destruct (_predict_sync model fs); [|reflexivity].
  rewrite andb_false_r. discriminate.
Qed.

Lemma ingest_event_missing acc e :
  missing_field e → ingest_event model acc e = acc.
Proof.
  unfold ingest_event. intros [H|[H|H]]; rewrite H.
  - reflexivity.
  - by destruct (user_id e).
  - by destruct (user_id e), (timestamp e).
Qed.

(** The local counter after the loop. *)
Lemma ingest_loop_count evs acc :
  (fold_left (ingest_event model) evs acc).2
  = acc.2 + Z.of_nat (length (List.filter (counted model) evs)).
Proof.
  revert acc. induction evs as [|e evs IH]; intros acc; simpl; [lia|].
  rewrite IH. destruct (counted model e) eqn:E.
  - rewrite (ingest_event_count _ _ E). simpl length. lia.
  - by rewrite (ingest_event_skip _ _ E).
Qed.
End Ingest.

Lemma ingest_ok sv evs t0 t1 :
  let loop := fold_left (ingest_event (_loaded_model sv)) evs (user_scores sv, 0) in
  ingest sv (mkPayload (Some evs)) t0 t1
  = (OK (mkIngestBody loop.2),
     mkService (_loaded_model sv) loop.1
       (mkStats (ingest_requests (stats sv) + 1)
                (events_processed (stats sv) + loop.2)
                (median_requests (stats sv))
                (ingest_latencies (stats sv) ++ [(t1 - t0)%Q]))).
Proof.
  cbv zeta. unfold ingest. simpl.
  by destruct (fold_left _ evs _) as [us n].
Qed.

Example ingest_ex :
  (ingest (fresh (Some sum3))
     (mkPayload (Some [ mkEvent (Some "u1") (Some 1700000000) (Some [1#10; 2#10; 3#10]%Q);
                        mkEvent (Some "u1") (Some 1700000001) None;
                        mkEvent (Some "u2") (Some 1700000002) (Some [1#10; 2#10]%Q);
                        mkEvent None (Some 1700000003) (Some [1#10; 2#10; 3#10]%Q);
                        mkEvent (Some "u2") (Some 1700000004) (Some [1#1; 2#1; 3#1]%Q) ]))
     (10#1) (11#1)).1
  = OK (mkIngestBody 2).
Proof. reflexivity. Qed.

(** C9.  A request body without ["events"] is answered with status 400 and the
    state stays as it was: neither [ingest_requests] nor the latency list nor
    anything else is touched. *)
Theorem ingest_missing_events sv payload t0 t1 :
  events payload = None →
  ingest sv payload t0 t1 = (HTTPException 400 missing_events, sv).
Proof. intros H. unfold ingest. by rewrite H. Qed.

Lemma ingest_missing_events_witness :
  ingest sv_example (mkPayload None) (10#1) (11#1)
  = (HTTPException 400 missing_events, sv_example).
Proof. apply ingest_missing_events. reflexivity. Defined.

Lemma ingest_loop_drop model pre e post acc :
  ingest_event model (fold_left (ingest_event model) pre acc) e
  = fold_left (ingest_event model) pre acc →
  fold_left (ingest_event model) (pre ++ e :: post) acc
  = fold_left (ingest_event model) (pre ++ post) acc.
Proof. intros H. rewrite !fold_left_app. simpl. by rewrite H. Qed.

Lemma get_user_median_response sv sv' uid :
  user_scores sv' = user_scores sv →
  (get_user_median sv' uid).1 = (get_user_median sv uid).1.
Proof.
  intros H. unfold get_user_median. cbv zeta. rewrite H.
  destruct (user_scores sv !! uid) as [[|s dq]|]; try reflexivity.
  by destruct (median _).
Qed.

(** C6.  An item [e] that lacks [user_id], [timestamp] or [features] leaves no
    trace: a batch with [e] in it has the same response and the same final
    state as the batch without it, and the loop's turn for [e] returns the
    store and the count it was given.  For the batch made of [e] alone the
    response is [{"processed": 0}], the window store and [events_processed]
    are as before, and the median of every user, the one named in [e]
    included, is answered as before: [null] for a user without deque. *)
Theorem invalid_event_discarded sv pre e post t0 t1 :
  missing_field e →
  let out := ingest sv (mkPayload (Some [e])) t0 t1 in
  ingest sv (mkPayload (Some (pre ++ e :: post))) t0 t1
  = ingest sv (mkPayload (Some (pre ++ post))) t0 t1
  ∧ (∀ acc, ingest_event (_loaded_model sv) acc e = acc)
  ∧ out.1 = OK (mkIngestBody 0)
  ∧ user_scores out.2 = user_scores sv
  ∧ events_processed (stats out.2) = events_processed (stats sv)
  ∧ (∀ uid, (get_user_median out.2 uid).1 = (get_user_median sv uid).1)
  ∧ (∀ uid, user_scores sv !! uid = None →
            (get_user_median out.2 uid).1 = OK (mkMedianBody None)).
Proof.
  intros Hmiss. cbv zeta.
  assert (Hskip : ∀ acc, ingest_event (_loaded_model sv) acc e = acc)
    by (intros; by apply ingest_event_missing).
  assert (Hus : user_scores (ingest sv (mkPayload (Some [e])) t0 t1).2
                = user_scores sv).
  { rewrite ingest_ok. simpl. by rewrite Hskip. }
  split; [|split; [exact Hskip|]].
  { rewrite !ingest_ok. cbv zeta.
    by rewrite (ingest_loop_drop _ pre e post) by apply Hskip. }
  split; [rewrite ingest_ok; simpl; by rewrite Hskip|].
  split; [exact Hus|].
  split; [rewrite ingest_ok; simpl; rewrite Hskip; simpl; lia|].
  split.
  - intros uid. by apply get_user_median_response.
  - intros uid Hnone. rewrite (get_user_median_response sv) by exact Hus.
    unfold get_user_median. cbv zeta. by rewrite Hnone.
Qed.

Lemma invalid_event_discarded_witness :
  let sv := fresh (Some sum3) in
  let e := mkEvent (Some "u1") (Some 1700000000) None in
  let out := ingest sv (mkPayload (Some [e])) (10#1) (11#1) in
  out.1 = OK (mkIngestBody 0)
  ∧ (get_user_median out.2 "u1").1 = OK (mkMedianBody None).
Proof.
  cbv zeta.
  destruct (invalid_event_discarded (fresh (Some sum3)) [] 
              (mkEvent (Some "u1") (Some 1700000000) None) [] (10#1) (11#1))
    as (_ & _ & Hr & _ & _ & _ & Hm).
  - right. right. reflexivity.
  - split; [exact Hr|]. apply Hm. reflexivity.
Defined.

(** ** Running without model *)

Lemma serve_model sv rq : _loaded_model (serve sv rq) = _loaded_model sv.
Proof.
  destruct rq as [payload t0 t1|uid|]; simpl.
  - unfold ingest. destruct (events payload); [|reflexivity].
    by destruct (fold_left _ _ _).
  - by rewrite get_user_median_state.
  - reflexivity.
Qed.

Lemma serve_all_model sv rqs :
  _loaded_model (serve_all sv rqs) = _loaded_model sv.
Proof.
  unfold serve_all. revert sv.
  induction rqs as [|rq rqs IH]; intros sv; simpl; [reflexivity|].
  by rewrite IH, serve_model.
Qed.

Lemma counted_no_model e : counted None e = false.
Proof.
  unfold counted, scoring_succeeds. simpl.
  destruct (features e); apply andb_false_r.
Qed.

(** [get_user_median] never fails. *)
Lemma get_user_median_total sv uid :
  ∃ body, (get_user_median sv uid).1 = OK body.
Proof.
  unfold get_user_median. cbv zeta.
  destruct (user_scores sv !! uid) as [[|s dq]|].
  - simpl. eauto.
  - destruct (median_standard (map snd (s :: dq))) as (m & Hm & _); [done|].
    rewrite Hm. simpl. eauto.
  - simpl. eauto.
Qed.

(** ** Concurrent requests *)

Section Totals.
Variable f : Task → Z.
Implicit Types (ts : list Task) (t : Task).

Lemma total_app ts ts' : total f (ts ++ ts') = total f ts + total f ts'.
Proof. induction ts as [|t ts IH]; simpl; [reflexivity|]. rewrite IH. lia. Qed.

Lemma total_insert ts i t t' :
  ts !! i = Some t → total f (<[i := t']> ts) = total f ts - f t + f t'.
Proof.
  revert i. induction ts as [|t0 ts IH]; intros [|i]; simpl; try discriminate.
  - intros [= ->]. lia.
  - intros H. rewrite (IH _ H). lia.
Qed.

Lemma total_zero ts :
  (∀ t, 0 <= f t) → total f ts = 0 → Forall (λ t, f t = 0) ts.
Proof.
  intros Hpos.
  assert (Hnn : ∀ ts, 0 <= total f ts).
  { intros ts'. induction ts' as [|t' ts' IH']; simpl; [lia|].
    specialize (Hpos t'). lia. }
  induction ts as [|t ts IH]; simpl; intros H; [constructor|].
  specialize (Hpos t). specialize (Hnn ts).
  constructor; [lia|]. apply IH. lia.
Qed.
End Totals.

Lemma critical_range t : critical t = 0 ∨ critical t = 1.
Proof. destruct t; simpl; auto. Qed.

Lemma locals_ok_idle st t : critical t = 0 → locals_ok st t.
Proof. destruct t; simpl; try done. Qed.

(** Mutual exclusion: when a task holds the lock, no other does. *)
Lemma mutex_others ts i t :
  total critical ts = 1 → ts !! i = Some t → critical t = 1 →
  ∀ j t', j ≠ i → ts !! j = Some t' → critical t' = 0.
Proof.
  intros Htot Hi Ht j t' Hne Hj.
  pose proof (total_insert critical ts i t StatsAcquire Hi) as Hins.
  simpl in Hins.
  assert (Hz : total critical (<[i := StatsAcquire]> ts) = 0) by lia.
  apply total_zero in Hz.
  - rewrite Forall_lookup in Hz. apply (Hz j).
    by rewrite list_lookup_insert_ne.
  - intros t0. destruct (critical_range t0); lia.
Qed.

Lemma flat_map_insert {A B} (g : A → list B) (l : list A) i x y :
  l !! i = Some x →
  Permutation (g x ++ flat_map g (<[i := y]> l)) (g y ++ flat_map g l).
Proof.
  revert i. induction l as [|z l IH]; intros [|i]; simpl; try discriminate.
  - intros [= ->]. rewrite !app_assoc. apply Permutation_app_tail.
    apply Permutation_app_comm.
  - intros H. specialize (IH _ H).
    rewrite !app_assoc.
    rewrite (Permutation_app_comm (g x) (g z)).
    rewrite (Permutation_app_comm (g y) (g z)).
    rewrite <- !app_assoc. by apply Permutation_app_head.
Qed.

(** Each step of each handler, against the account kept of it. *)
Lemma step_task_effect sv l t sv' l' t' :
  step_task sv l t = Some (sv', l', t') →
  locals_ok (stats sv) t →
  (critical t = 1 → l = true) →
  Effect (stats sv) l t (stats sv') l' t'.
Proof.
  intros Hstep Hloc Hheld.
  destruct t; simpl in Hstep, Hloc, Hheld;
    repeat case_match; simplify_eq;
    try (pose proof (Hheld eq_refl); subst);
    (split; simpl;
     [ try lia | try lia | try lia | try lia
     | try (by rewrite ?app_nil_r) | try (by intuition) | try (by auto) ]).
Qed.

Lemma spawn_idle rq :
  critical (spawn rq) = 0 ∧ requests_added (spawn rq) = 0
  ∧ processed_added (spawn rq) = 0 ∧ median_added (spawn rq) = 0
  ∧ latencies_added (spawn rq) = [].
Proof. by destruct rq. Qed.

Lemma Inv_initial sv0 : Inv sv0 (initial sv0).
Proof.
  split; simpl; try lia.
  - by rewrite app_nil_r.
  - constructor.
Qed.

(** A task that holds the lock finds it held. *)
Lemma Inv_held sv0 c i t :
  Inv sv0 c → tasks c !! i = Some t → critical t = 1 → stats_lock c = true.
Proof.
  intros HI Hi Ht. destruct (stats_lock c) eqn:El; [reflexivity|].
  pose proof (inv_mutex _ _ HI) as Hm. rewrite El in Hm.
  apply total_zero in Hm.
  - rewrite Forall_lookup in Hm. specialize (Hm _ _ Hi). lia.
  - intros t0. destruct (critical_range t0); lia.
Qed.

Lemma Inv_act sv0 c a c' : Inv sv0 c → act c a = Some c' → Inv sv0 c'.
Proof.
  intros HI Hact. destruct a as [rq|i]; simpl in Hact.
  - injection Hact as <-.
    destruct (spawn_idle rq) as (Hc & Hr & Hp & Hm & Hl).
    destruct HI as [Imx Irq Ipr Imd Ilat Iloc].
    split; simpl; rewrite ?total_app; simpl; rewrite ?Hc, ?Hr, ?Hp, ?Hm;
      try lia.
    + rewrite flat_map_app. simpl. by rewrite Hl, !app_nil_r.
    + apply Forall_app. split; [exact Iloc|].
      repeat constructor. by apply locals_ok_idle.
  - destruct (tasks c !! i) as [t|] eqn:Hi; [|discriminate]. simpl in Hact.
    destruct (step_task (service c) (stats_lock c) t) as [[[sv' l'] t']|] eqn:Hs;
      [|discriminate].
    simpl in Hact. injection Hact as <-.
    pose proof (inv_locals _ _ HI) as Iloc.
    assert (Hloc : locals_ok (stats (service c)) t).
    { rewrite Forall_lookup in Iloc. by apply (Iloc i). }
    assert (Hheld : critical t = 1 → stats_lock c = true)
      by (by apply (Inv_held sv0 c i)).
    destruct (step_task_effect _ _ _ _ _ _ Hs Hloc Hheld)
      as [Elock Erq Epr Emd Elat Eloc Efr].
    destruct HI as [Imx Irq Ipr Imd Ilat _].
    split; simpl; rewrite ?(total_insert _ _ _ _ t' Hi); try lia.
    + apply (Permutation_app_inv_r (latencies_added t)).
      rewrite Elat, Ilat. rewrite <- !app_assoc.
      apply Permutation_app_head.
      rewrite (Permutation_app_comm _ (latencies_added t)).
      rewrite (Permutation_app_comm _ (latencies_added t')).
      symmetry. by apply flat_map_insert.
    + rewrite Forall_lookup. intros j tj Hj.
      destruct (decide (j = i)) as [->|Hne].
      * rewrite list_lookup_insert_eq in Hj by (by eapply lookup_lt_Some).
        by injection Hj as <-.
      * rewrite list_lookup_insert_ne in Hj by done.
        destruct Efr as [->|Hcrit].
        -- rewrite Forall_lookup in Iloc. by apply (Iloc j).
        -- apply locals_ok_idle.
           apply (mutex_others (tasks c) i t) with (j := j); try done.
           rewrite Imx. by rewrite Hheld.
Qed.

Lemma Inv_run sv0 past c : run (initial sv0) past c → Inv sv0 c.
Proof.
  induction 1 as [|past c c' _ IH [a Ha]]; [apply Inv_initial|].
  by apply (Inv_act sv0 c a).
Qed.

(** Every configuration a run went through was reached by a run. *)
Lemma run_past c0 past c c1 :
  run c0 past c → c1 ∈ past → ∃ past1, run c0 past1 c1.
Proof.
  induction 1 as [|past c c' Hrun IH Hstep]; intros Hin.
  - by apply elem_of_nil in Hin.
  - apply elem_of_app in Hin as [Hin|Hin]; [by apply IH|].
    apply list_elem_of_singleton in Hin as ->. eauto.
Qed.

Lemma play_run c0 past c acts past' c' :
  run c0 past c → play c past acts = Some (past', c') → run c0 past' c'.
Proof.
  revert c past. induction acts as [|a acts IH]; intros c past Hrun; simpl.
  - by intros [= <- <-].
  - destruct (act c a) as [c1|] eqn:Ha; [|discriminate]. simpl.
    apply IH. apply run_step; [exact Hrun|]. by exists a.
Qed.

(** The answer of [get_stats] was the state of [stats] at an instant of the
    run at which the answering task held the lock. *)
Lemma stats_done_snapshot sv0 past c body :
  run (initial sv0) past c → StatsDone body ∈ tasks c →
  ∃ c1, c1 ∈ past ∧ stats_lock c1 = true
        ∧ (get_stats (service c1)).1 = OK body.
Proof.
  induction 1 as [|past c c' Hrun IH [a Ha]]; intros Hin.
  - by apply elem_of_nil in Hin.
  - assert (Hold : StatsDone body ∈ tasks c →
                   ∃ c1, c1 ∈ past ++ [c] ∧ stats_lock c1 = true
                         ∧ (get_stats (service c1)).1 = OK body).
    { intros H. destruct (IH H) as (c1 & H1 & H2). exists c1.
      split; [|exact H2]. apply elem_of_app. by left. }
    pose proof (Inv_run _ _ _ Hrun) as HI.
    destruct a as [rq|i]; simpl in Ha.
    + injection Ha as <-. simpl in Hin.
      apply elem_of_app in Hin as [Hin|Hin]; [by apply Hold|].
      apply list_elem_of_singleton in Hin. by destruct rq.
    + destruct (tasks c !! i) as [t|] eqn:Hi; [|discriminate]. simpl in Ha.
      destruct (step_task (service c) (stats_lock c) t) as [[[sv' l'] t']|] eqn:Hs;
        [|discriminate].
      simpl in Ha. injection Ha as <-. simpl in Hin.
      apply list_elem_of_lookup in Hin as [j Hj].
      destruct (decide (j = i)) as [->|Hne].
      * rewrite list_lookup_insert_eq in Hj by (by eapply lookup_lt_Some).
        injection Hj as ->.
        exists c. split; [apply elem_of_app; right; by apply list_elem_of_singleton|].
        split; [by apply (Inv_held sv0 c i t HI Hi); destruct t; simplify_eq;
                   simpl in Hs; repeat case_match; simplify_eq|].
        pose proof (inv_locals _ _ HI) as Iloc.
        rewrite Forall_lookup in Iloc. specialize (Iloc _ _ Hi).
        destruct t; simpl in Hs; repeat case_match; simplify_eq.
        simpl in Iloc. destruct Iloc as (-> & -> & -> & ->). reflexivity.
      * rewrite list_lookup_insert_ne in Hj by done.
        apply Hold. apply list_elem_of_lookup. eauto.
Qed.

Lemma step_task_idle sv l t sv' l' t' :
  step_task sv l t = Some (sv', l', t') → critical t = 0 →
  stats sv' = stats sv.
Proof.
  intros Hs Hc.
  destruct t; simpl in Hs, Hc; try lia; repeat case_match; by simplify_eq.
Qed.

(** A task that does not hold the lock has either added nothing of its batch
    to [stats] or added all of it. *)
Lemma idle_all_or_nothing t :
  critical t = 0 →
  (processed_added t = 0 ∧ latencies_added t = [])
  ∨ (∃ n d, t = IngestReturned n d).
Proof. destruct t; simpl; intros H; try lia; eauto. Qed.

Example demo_run_ex :
  play (initial (fresh (Some sum3))) [] demo_schedule = Some demo_run
  ∧ stats (service demo_run.2) = mkStats 1 1 1 [(11 - 10)%Q]
  ∧ tasks demo_run.2
    = [ IngestReturned 1 (11 - 10)%Q;
        StatsDone (mkStatsBody 1 0 0 0%Q);
        MedianDone (OK (mkMedianBody (Some ((1#10) + (2#10) + (3#10))%Q))) ].
Proof. vm_compute. repeat split. Qed.

(** C8.  In every configuration [c] that concurrent [ingest], [get_stats] and
    [get_user_median] requests reach from [initial sv0], under any schedule:
    - at most one task is between taking and releasing [stats_lock], and one
      is exactly when the lock is held;
    - each counter of [stats] is its initial value plus what the tasks have
      added so far, and the latency list is the initial one plus the samples
      appended so far, each once: no update is lost or counted twice;
    - while a task holds the lock, no step of another task changes [stats],
      and every other ingest task has added either nothing or both its count
      and its latency sample;
    - the body answered by a finished [get_stats] is the state of [stats] at
      one instant of the run, at which that task held the lock. *)
Theorem stats_updates_atomic sv0 past c :
  run (initial sv0) past c →
  let st := stats (service c) in
  total critical (tasks c) = (if stats_lock c then 1 else 0)
  ∧ ingest_requests st
    = ingest_requests (stats sv0) + total requests_added (tasks c)
  ∧ events_processed st
    = events_processed (stats sv0) + total processed_added (tasks c)
  ∧ median_requests st
    = median_requests (stats sv0) + total median_added (tasks c)
  ∧ Permutation (ingest_latencies st)
                (ingest_latencies (stats sv0)
                 ++ flat_map latencies_added (tasks c))
  ∧ (∀ i t j tj, tasks c !! i = Some t → critical t = 1 →
       j ≠ i → tasks c !! j = Some tj →
       ((processed_added tj = 0 ∧ latencies_added tj = [])
        ∨ (∃ n d, tj = IngestReturned n d))
       ∧ ∀ sv' l' tj',
           step_task (service c) (stats_lock c) tj = Some (sv', l', tj') →
           stats sv' = st)
  ∧ (∀ body, StatsDone body ∈ tasks c →
       ∃ c1, c1 ∈ past ∧ stats_lock c1 = true
             ∧ (get_stats (service c1)).1 = OK body).
Proof.
  intros Hrun. cbv zeta.
  pose proof (Inv_run _ _ _ Hrun) as HI.
  destruct HI as [Imx Irq Ipr Imd Ilat Iloc] eqn:EI.
  repeat (split; [assumption|]). split.
  - intros i t j tj Hi Hc Hne Hj.
    assert (Hidle : critical tj = 0).
    { apply (mutex_others (tasks c) i t) with (j := j); try done.
      rewrite Imx. by rewrite (Inv_held sv0 c i t). }
    split; [by apply idle_all_or_nothing|].
    intros sv' l' tj' Hs. by apply (step_task_idle _ _ _ _ _ _ Hs).
  - intros body. by apply (stats_done_snapshot sv0).
Qed.

Lemma stats_updates_atomic_witness :
  run (initial (fresh (Some sum3))) demo_run.1 demo_run.2
  ∧ events_processed (stats (service demo_run.2))
    = 0 + total processed_added (tasks demo_run.2)
  ∧ ∃ c1, c1 ∈ demo_run.1 ∧ stats_lock c1 = true
          ∧ (get_stats (service c1)).1 = OK (mkStatsBody 1 0 0 0%Q).
Proof.
  assert (Hrun : run (initial (fresh (Some sum3))) demo_run.1 demo_run.2).
  { apply (play_run _ [] (initial (fresh (Some sum3))) demo_schedule).
    - apply run_start.
    - vm_compute. reflexivity. }
  split; [exact Hrun|].
  destruct (stats_updates_atomic _ _ _ Hrun) as (_ & _ & Hp & _ & _ & _ & Hs).
  split; [exact Hp|].
  apply Hs. vm_compute. right. left.
Defined.

(** ** A request served alone

    With no other request in flight, the steps of a task take the state to
    the one the handler, read as one function, computes, and end with the
    handler's answer. *)

Lemma run_trans c0 p1 c1 p2 c2 :
  run c0 p1 c1 → run c1 p2 c2 → run c0 (p1 ++ p2) c2.
Proof.
  intros H1 H2. induction H2 as [|past c c' _ IH Hstep].
  - by rewrite app_nil_r.
  - rewrite app_assoc. by apply run_step.
Qed.

Lemma reach_refl c : reach c c.
Proof. exists []. apply run_start. Qed.

Lemma reach_step sv l t sv' l' t' c'' :
  step_task sv l t = Some (sv', l', t') →
  reach (mkConfig sv' l' [t']) c'' →
  reach (mkConfig sv l [t]) c''.
Proof.
  intros Hs [past Hrun].
  exists ([mkConfig sv l [t]] ++ past).
  apply run_trans with (mkConfig sv' l' [t']); [|exact Hrun].
  apply (run_step _ []); [apply run_start|].
  exists (Run 0). simpl. by rewrite Hs.
Qed.

Lemma ingest_loop_alone sv evs n t0 t1 :
  let acc := fold_left (ingest_event (_loaded_model sv)) evs (user_scores sv, n) in
  reach (mkConfig sv false [IngestLoop evs n t0 t1])
        (mkConfig (set_user_scores sv acc.1) false [IngestLoop [] acc.2 t0 t1]).
Proof.
  cbv zeta. revert sv n. induction evs as [|e evs IH]; intros sv n.
  - simpl. destruct sv. apply reach_refl.
  - eapply reach_step; [reflexivity|].
    specialize (IH (set_user_scores sv
                      (ingest_event (_loaded_model sv) (user_scores sv, n) e).1)
                   (ingest_event (_loaded_model sv) (user_scores sv, n) e).2).
    simpl in IH |- *.
    by destruct (ingest_event (_loaded_model sv) (user_scores sv, n) e).
Qed.

Lemma reach_trans c1 c2 c3 : reach c1 c2 → reach c2 c3 → reach c1 c3.
Proof. intros [p1 H1] [p2 H2]. exists (p1 ++ p2). by eapply run_trans. Qed.

Lemma ingest_alone sv payload t0 t1 :
  ∃ t, reach (mkConfig sv false [IngestStart payload t0 t1])
             (mkConfig (ingest sv payload t0 t1).2 false [t])
       ∧ ingest_answer t = Some (ingest sv payload t0 t1).1.
Proof.
  destruct payload as [[evs|]].
  - rewrite ingest_ok. cbv zeta. simpl.
    exists (IngestReturned
              (fold_left (ingest_event (_loaded_model sv)) evs
                         (user_scores sv, 0)).2 (t1 - t0)%Q).
    split; [|reflexivity].
    do 5 (eapply reach_step; [reflexivity|]).
    eapply reach_trans; [apply ingest_loop_alone|]. simpl.
    do 6 (eapply reach_step; [reflexivity|]). apply reach_refl.
  - simpl. exists (IngestRaised 400 missing_events). split; [|reflexivity].
    eapply reach_step; [reflexivity|]. apply reach_refl.
Qed.

Lemma median_alone sv uid :
  ∃ t, reach (mkConfig sv false [MedianAcquire uid])
             (mkConfig (get_user_median sv uid).2 false [t])
       ∧ median_answer t = Some (get_user_median sv uid).1.
Proof.
  rewrite get_user_median_state.
  exists (MedianDone (get_user_median sv uid).1). split; [|reflexivity].
  do 4 (eapply reach_step; [reflexivity|]).
  eapply reach_step; [|apply reach_refl].
  unfold get_user_median. cbv zeta. simpl.
  destruct (user_scores sv !! uid) as [[|s dq]|]; try reflexivity.
  by destruct (median _).
Qed.

Lemma stats_alone sv :
  ∃ t, reach (mkConfig sv false [StatsAcquire])
             (mkConfig (get_stats sv).2 false [t])
       ∧ stats_answer t = Some (get_stats sv).1.
Proof.
  exists (StatsDone (mkStatsBody (ingest_requests (stats sv))
                                 (events_processed (stats sv))
                                 (median_requests (stats sv))
                                 (avg_latency (ingest_latencies (stats sv))))).
  split; [|reflexivity].
  do 7 (eapply reach_step; [reflexivity|]). apply reach_refl.
Qed.


(** * Further properties *)

(** ** The window as a part of the arrival sequence *)

Lemma prune_suffix cutoff (dq : list sample) : prune cutoff dq `suffix_of` dq.
Proof.
  destruct (prune_split cutoff dq) as (pruned & Heq & _). by exists pruned.
Qed.

Lemma record_all_snoc us uid calls c :
  window (record_all us uid (calls ++ [c])) uid
  = record_sample (window (record_all us uid calls) uid) (fst c) (snd c).
Proof.
  unfold record_all. rewrite fold_left_app. simpl. apply window_update.
Qed.

Lemma window_suffix_all us uid calls :
  window (record_all us uid calls) uid `suffix_of` (window us uid ++ calls).
Proof.
  induction calls as [|c calls IH] using rev_ind.
  - simpl. by rewrite app_nil_r.
  - rewrite record_all_snoc. destruct c as [ts sc]. simpl.
    rewrite record_sample_snoc, app_assoc.
    apply suffix_app. etrans; [apply prune_suffix|exact IH].
Qed.

(** X1.  Whatever the order of arrival, after a run of insertions for a user
    the deque is a final segment of the sequence "deque before, then the
    inserted samples in call order": entries leave from the left only, none is
    reordered, duplicated or invented, and the sample of the last call is the
    right end. *)
Theorem window_is_final_segment us uid calls c :
  ∃ kept,
    window (record_all us uid (calls ++ [c])) uid = kept ++ [c]
    ∧ kept `suffix_of` (window us uid ++ calls).
Proof.
  rewrite record_all_snoc. destruct c as [ts sc]. simpl.
  rewrite record_sample_snoc.
  exists (prune (ts - ROLLING_WINDOW_SECONDS) (window (record_all us uid calls) uid)).
  split; [reflexivity|].
  etrans; [apply prune_suffix | apply window_suffix_all].
Qed.

Lemma filter_sorted_fst (f : sample → bool) (l : list sample) :
  StronglySorted Z.le (map fst l) →
  StronglySorted Z.le (map fst (List.filter f l)).
Proof.
  induction l as [|s l IH]; simpl; intros Hs; [constructor|].
  apply StronglySorted_inv in Hs as [Hl Hall].
  destruct (f s); simpl; [|by apply IH].
  constructor; [by apply IH|].
  rewrite Forall_map in Hall |- *. rewrite Forall_forall in Hall |- *.
  intros x Hx. apply Hall. apply list_elem_of_In.
  apply list_elem_of_In in Hx. apply filter_In in Hx. tauto.
Qed.

Lemma filter_filter_cutoff (c1 c2 : Z) (l : list sample) :
  c1 <= c2 →
  List.filter (λ s, c2 <=? fst s) (List.filter (λ s, c1 <=? fst s) l)
  = List.filter (λ s, c2 <=? fst s) l.
Proof.
  intros Hle. induction l as [|s l IH]; simpl; [reflexivity|].
  destruct (Z.leb_spec c1 (fst s)); simpl.
  - by rewrite IH.
  - rewrite IH. destruct (Z.leb_spec c2 (fst s)); [lia | reflexivity].
Qed.

Lemma sorted_snoc_bound (l : list Z) (x : Z) :
  StronglySorted Z.le (l ++ [x]) → Forall (λ z, z <= x) (l ++ [x]).
Proof.
  induction l as [|z l IH]; simpl; intros Hs.
  - repeat constructor. lia.
  - apply StronglySorted_inv in Hs as [Hs Hall].
    constructor; [|by apply IH].
    rewrite Forall_app in Hall. destruct Hall as [_ Hall].
    by apply Forall_inv in Hall.
Qed.

Lemma sorted_snoc_intro (l : list Z) (x : Z) :
  StronglySorted Z.le l → Forall (λ z, z <= x) l →
  StronglySorted Z.le (l ++ [x]).
Proof.
  induction l as [|z l IH]; simpl; intros Hs Hb; [repeat constructor|].
  apply StronglySorted_inv in Hs as [Hs Hall].
  apply Forall_cons in Hb as [Hz Hb].
  constructor; [by apply IH|].
  rewrite Forall_app. split; [exact Hall | by repeat constructor].
Qed.

Lemma sorted_snoc_le (l : list Z) (x y : Z) :
  StronglySorted Z.le (l ++ [x; y]) → x <= y ∧ StronglySorted Z.le (l ++ [x]).
Proof.
  induction l as [|z l IH]; simpl; intros Hs.
  - apply StronglySorted_inv in Hs as [_ H]. apply Forall_inv in H.
    split; [exact H | repeat constructor].
  - apply StronglySorted_inv in Hs as [Hs Hall].
    destruct (IH Hs) as [Hxy Hl]. split; [exact Hxy|].
    constructor; [exact Hl|].
    rewrite Forall_app in Hall |- *. destruct Hall as [H1 H2].
    split; [exact H1|]. apply Forall_inv in H2. by repeat constructor.
Qed.

(** X2.  When a user's samples arrive in timestamp order, the deque after an
    insertion holds exactly the samples, old and new, whose timestamp is at
    most [ROLLING_WINDOW_SECONDS] before the one just inserted, in arrival
    order. *)
Theorem window_in_order_exact us uid calls c :
  StronglySorted Z.le (map fst (window us uid ++ calls ++ [c])) →
  window (record_all us uid (calls ++ [c])) uid
  = List.filter (λ s, fst c - ROLLING_WINDOW_SECONDS <=? fst s)
                (window us uid ++ calls ++ [c]).
Proof.
  revert c. induction calls as [|c' calls IH] using rev_ind; intros c Hs.
  - rewrite (record_all_snoc us uid []). simpl in *.
    unfold record_sample. cbv zeta. destruct c as [ts sc].
    by apply prune_sorted_filter.
  - rewrite record_all_snoc.
    assert (E : window us uid ++ (calls ++ [c']) ++ [c]
                = (window us uid ++ calls) ++ [c'; c])
      by (by rewrite <- !app_assoc).
    rewrite E, map_app in Hs. simpl in Hs.
    apply sorted_snoc_le in Hs as [Hle Hs'].
    pose proof (sorted_snoc_bound _ _ Hs') as Hb.
    change [fst c'] with (map fst [c']) in Hs', Hb.
    rewrite <- map_app, <- app_assoc in Hs', Hb.
    rewrite (IH c' Hs'), E. destruct c as [ts sc]. simpl in *.
    unfold record_sample. cbv zeta.
    rewrite prune_sorted_filter.
    + rewrite List.filter_app, filter_filter_cutoff by lia.
      rewrite <- List.filter_app.
      by rewrite <- !app_assoc.
    + rewrite map_app. simpl. apply sorted_snoc_intro.
      * by apply filter_sorted_fst.
      * rewrite Forall_map in Hb |- *. rewrite Forall_forall in Hb |- *.
        intros x Hx. apply list_elem_of_In, filter_In in Hx as [Hx _].
        apply list_elem_of_In, Hb in Hx. lia.
Qed.

Lemma window_in_order_exact_witness :
  window (record_all ∅ "u" ([(1000, 1%Q); (1200, 2%Q)] ++ [(1400, 3%Q)])) "u"
  = List.filter (λ s, fst (1400, 3%Q) - ROLLING_WINDOW_SECONDS <=? fst s)
                (window ∅ "u" ++ [(1000, 1%Q); (1200, 2%Q)] ++ [(1400, 3%Q)]).
Proof.
  apply (window_in_order_exact ∅ "u" [(1000, 1%Q); (1200, 2%Q)] (1400, 3%Q)).
  repeat constructor; simpl; lia.
Defined.

Example window_in_order_ex :
  window (record_all ∅ "u" [(1000, 1%Q); (1200, 2%Q); (1400, 3%Q)]) "u"
  = [(1200, 2%Q); (1400, 3%Q)].
Proof. reflexivity. Qed.

(** ** What a batch does to the windows *)

Lemma window_record_all us uid calls :
  window (record_all us uid calls) uid
  = fold_left (λ dq c, record_sample dq (fst c) (snd c)) calls (window us uid).
Proof.
  induction calls as [|c calls IH] using rev_ind; [reflexivity|].
  by rewrite record_all_snoc, fold_left_app, IH.
Qed.

Lemma ingest_event_scored model acc e :
  ingest_event model acc e
  = match scored_sample model e with
    | Some (u, s) => (_update_user_scores acc.1 u (fst s) (snd s), acc.2 + 1)
    | None => acc
    end.
Proof.
  unfold ingest_event, scored_sample.
  destruct (user_id e), (timestamp e), (features e) as [fs|]; try reflexivity.
  by destruct (_predict_sync model fs).
Qed.

Lemma counted_scored model e :
  counted model e = true ↔ is_Some (scored_sample model e).
Proof.
  destruct e as [[u|] [ts|] [fs|]];
    unfold counted, has_all_fields, scoring_succeeds, scored_sample; simpl;
    try destruct (_predict_sync model fs); simpl;
    (split; intros H; try done; try (by eauto); try (by destruct H)).
Qed.

Lemma ingest_loop_window model evs acc uid :
  window (fold_left (ingest_event model) evs acc).1 uid
  = fold_left (λ dq c, record_sample dq (fst c) (snd c))
              (samples_of model uid evs) (window acc.1 uid).
Proof.
  revert acc. induction evs as [|e evs IH]; intros acc; [reflexivity|].
  simpl fold_left at 1. rewrite IH, ingest_event_scored.
  unfold samples_of. simpl omap. fold (samples_of model uid evs).
  destruct (scored_sample model e) as [[u s]|]; simpl; [|reflexivity].
  destruct (decide (u = uid)) as [->|Hne]; simpl.
  - by rewrite window_update.
  - unfold window at 1. by rewrite window_update_ne.
Qed.

Lemma ingest_loop_lookup model evs acc uid :
  samples_of model uid evs = [] →
  (fold_left (ingest_event model) evs acc).1 !! uid = acc.1 !! uid.
Proof.
  revert acc. induction evs as [|e evs IH]; intros acc; [reflexivity|].
  unfold samples_of. simpl. intros Hnone.
  rewrite ingest_event_scored.
  destruct (scored_sample model e) as [[u s]|]; simpl in *.
  - destruct (decide (u = uid)) as [->|Hne]; [discriminate|].
    rewrite IH by exact Hnone. simpl. by apply window_update_ne.
  - by apply IH.
Qed.

Lemma ingest_loop_dom model evs acc :
  dom acc.1 ⊆ dom (fold_left (ingest_event model) evs acc).1.
Proof.
  revert acc. induction evs as [|e evs IH]; intros acc; [done|].
  simpl. etrans; [|apply IH]. rewrite ingest_event_scored.
  destruct (scored_sample model e) as [[u s]|]; simpl; [|done].
  unfold _update_user_scores. rewrite dom_insert. set_solver.
Qed.

(** X3.  After [ingest], the deque of each user is what recording that user's
    scored samples of the batch, in batch order, makes of the user's deque
    before: items of other users, items lacking a field and items whose
    scoring raised play no part in it. *)
Theorem ingest_windows sv evs t0 t1 uid :
  window (user_scores (ingest sv (mkPayload (Some evs)) t0 t1).2) uid
  = window (record_all (user_scores sv) uid
                       (samples_of (_loaded_model sv) uid evs)) uid.
Proof.
  rewrite ingest_ok. cbv zeta. simpl.
  by rewrite ingest_loop_window, window_record_all.
Qed.

(** X4.  [ingest] never removes a user from the store, and a user for whom
    the batch has no scored sample keeps the very same entry: no deque is
    created for an item that is skipped. *)
Theorem ingest_frame sv evs t0 t1 :
  let sv' := (ingest sv (mkPayload (Some evs)) t0 t1).2 in
  dom (user_scores sv) ⊆ dom (user_scores sv')
  ∧ (∀ uid, samples_of (_loaded_model sv) uid evs = [] →
            user_scores sv' !! uid = user_scores sv !! uid).
Proof.
  cbv zeta. rewrite ingest_ok. cbv zeta. simpl. split.
  - apply (ingest_loop_dom _ evs (user_scores sv, 0)).
  - intros uid H. by apply (ingest_loop_lookup _ evs (user_scores sv, 0)).
Qed.

Lemma ingest_frame_witness :
  user_scores
    (ingest (fresh (Some sum3))
       (mkPayload (Some [ mkEvent (Some "u1") (Some 1700000000) (Some [1; 2; 3]%Q);
                          mkEvent (Some "u2") (Some 1700000000) (Some [1; 2]%Q) ]))
       0%Q 1%Q).2 !! "u2"
  = user_scores (fresh (Some sum3)) !! "u2".
Proof.
  apply (proj2 (ingest_frame (fresh (Some sum3)) _ 0%Q 1%Q)). reflexivity.
Defined.

(** ** Deques are never empty *)

Lemma no_empty_update us uid ts sc :
  no_empty us → no_empty (_update_user_scores us uid ts sc).
Proof.
  intros H u dq. unfold _update_user_scores.
  destruct (decide (uid = u)) as [->|Hne].
  - rewrite lookup_insert_eq. intros [= <-]. apply record_sample_nonempty.
  - rewrite lookup_insert_ne by done. apply H.
Qed.

Lemma no_empty_ingest_event model acc e :
  no_empty acc.1 → no_empty (ingest_event model acc e).1.
Proof.
  intros H. rewrite ingest_event_scored.
  destruct (scored_sample model e) as [[u s]|]; [|exact H].
  by apply no_empty_update.
Qed.

Lemma no_empty_ingest_loop model evs acc :
  no_empty acc.1 → no_empty (fold_left (ingest_event model) evs acc).1.
Proof.
  revert acc. induction evs as [|e evs IH]; intros acc H; [exact H|].
  simpl. by apply IH, no_empty_ingest_event.
Qed.

Lemma no_empty_serve sv rq :
  no_empty (user_scores sv) → no_empty (user_scores (serve sv rq)).
Proof.
  intros H. destruct rq as [[[evs|]] t0 t1|uid|]; simpl.
  - rewrite ingest_ok. simpl.
    by apply (no_empty_ingest_loop _ evs (user_scores sv, 0)).
  - exact H.
  - by rewrite get_user_median_state.
  - exact H.
Qed.

Lemma no_empty_serve_all sv rqs :
  no_empty (user_scores sv) → no_empty (user_scores (serve_all sv rqs)).
Proof.
  unfold serve_all. revert sv.
  induction rqs as [|rq rqs IH]; intros sv H; simpl; [exact H|].
  by apply IH, no_empty_serve.
Qed.

Lemma get_user_median_null sv uid :
  (get_user_median sv uid).1 = OK (mkMedianBody None)
  ↔ user_scores sv !! uid = None ∨ user_scores sv !! uid = Some [].
Proof.
  unfold get_user_median. cbv zeta.
  destruct (user_scores sv !! uid) as [[|s dq]|]; [simpl; tauto| |simpl; tauto].
  destruct (median_standard (map snd (s :: dq))) as (m & Hm & _); [done|].
  rewrite Hm. simpl. split; [discriminate|]. by intros [?|?].
Qed.

(** X5.  In every state the service reaches from start-up, whatever the
    requests, no user is bound to an empty deque: a user is in the store only
    after a scored sample, and an insertion never pops the sample it has just
    appended.  So [get_user_median] answers [null] exactly for the users that
    are not in the store. *)
Theorem median_null_iff_unknown model rqs uid :
  let sv := serve_all (fresh model) rqs in
  no_empty (user_scores sv)
  ∧ ((get_user_median sv uid).1 = OK (mkMedianBody None)
     ↔ user_scores sv !! uid = None).
Proof.
  cbv zeta.
  assert (Hne : no_empty (user_scores (serve_all (fresh model) rqs))).
  { apply no_empty_serve_all. intros u dq. simpl. by rewrite lookup_empty. }
  split; [exact Hne|].
  rewrite get_user_median_null. split; [|by left].
  intros [H|H]; [exact H|]. by apply Hne in H.
Qed.

(** ** One sample after a long silence *)

Lemma median_singleton (y : Q) : median [y] = Some y.
Proof. reflexivity. Qed.

(** X6.  An event with its three fields, scored [y], of a user whose deque
    holds nothing as recent as [ts - ROLLING_WINDOW_SECONDS] (a new user, for
    one) is counted, and afterwards the user's deque is that one sample and
    the median answered for the user is [y]. *)
Theorem ingest_single_sets_median sv forward uid ts fs y t0 t1 :
  _loaded_model sv = Some forward →
  forward fs = Some y →
  Forall (λ s, fst s < ts - ROLLING_WINDOW_SECONDS)
         (window (user_scores sv) uid) →
  let out := ingest sv (mkPayload (Some [mkEvent (Some uid) (Some ts) (Some fs)]))
                    t0 t1 in
  out.1 = OK (mkIngestBody 1)
  ∧ user_scores out.2 !! uid = Some [(ts, y)]
  ∧ (get_user_median out.2 uid).1 = OK (mkMedianBody (Some y)).
Proof.
  intros Hm Hf Hold. cbv zeta. rewrite ingest_ok. cbv zeta. simpl.
  unfold ingest_event. simpl. rewrite Hm. simpl. rewrite Hf. simpl.
  assert (Hw : _update_user_scores (user_scores sv) uid ts y !! uid
               = Some [(ts, y)]).
  { unfold _update_user_scores. rewrite lookup_insert_eq. f_equal.
    rewrite record_sample_snoc. fold (window (user_scores sv) uid).
    by rewrite prune_all_old. }
  split; [reflexivity|]. split; [exact Hw|].
  unfold get_user_median. cbv zeta. simpl. by rewrite Hw.
Qed.

Lemma ingest_single_sets_median_witness :
  let out := ingest (fresh (Some sum3))
               (mkPayload (Some [mkEvent (Some "u1") (Some 1700000000)
                                         (Some [1#10; 2#10; 3#10]%Q)]))
               0%Q 1%Q in
  out.1 = OK (mkIngestBody 1)
  ∧ user_scores out.2 !! "u1" = Some [(1700000000, ((1#10) + (2#10) + (3#10))%Q)]
  ∧ (get_user_median out.2 "u1").1
    = OK (mkMedianBody (Some ((1#10) + (2#10) + (3#10))%Q)).
Proof.
  apply (ingest_single_sets_median (fresh (Some sum3)) sum3 "u1" 1700000000
           [1#10; 2#10; 3#10]%Q ((1#10) + (2#10) + (3#10))%Q 0%Q 1%Q).
  - reflexivity.
  - reflexivity.
  - constructor.
Defined.

(** ** Batches *)

(** X7.  Sending a batch in two pieces, one request after the other, leaves
    the same windows as sending it whole, and the two counts add up to the
    count of the whole; what differs is the request counter, larger by one,
    and the latency list, longer by one. *)
Theorem ingest_split sv evs1 evs2 t0 t1 t0' t1' t0'' t1'' :
  let whole := ingest sv (mkPayload (Some (evs1 ++ evs2))) t0 t1 in
  let first := ingest sv (mkPayload (Some evs1)) t0' t1' in
  let second := ingest first.2 (mkPayload (Some evs2)) t0'' t1'' in
  ∃ n1 n2,
    first.1 = OK (mkIngestBody n1)
    ∧ second.1 = OK (mkIngestBody n2)
    ∧ whole.1 = OK (mkIngestBody (n1 + n2))
    ∧ user_scores second.2 = user_scores whole.2
    ∧ events_processed (stats second.2) = events_processed (stats whole.2)
    ∧ ingest_requests (stats second.2) = ingest_requests (stats whole.2) + 1
    ∧ length (ingest_latencies (stats second.2))
      = S (length (ingest_latencies (stats whole.2))).
Proof.
  cbv zeta. rewrite !ingest_ok. cbv zeta. simpl.
  rewrite fold_left_app.
  destruct (fold_left (ingest_event (_loaded_model sv)) evs1 (user_scores sv, 0))
    as [us1 n1] eqn:E1.
  simpl.
  pose proof (ingest_loop_count (_loaded_model sv) evs2 (us1, n1)) as Hc.
  pose proof (ingest_loop_count (_loaded_model sv) evs2 (us1, 0)) as Hc0.
  simpl in Hc, Hc0.
  exists n1, (fold_left (ingest_event (_loaded_model sv)) evs2 (us1, 0)).2.
  split; [reflexivity|]. split; [reflexivity|].
  assert (Hus : ∀ evs us n m,
            (fold_left (ingest_event (_loaded_model sv)) evs (us, n)).1
            = (fold_left (ingest_event (_loaded_model sv)) evs (us, m)).1).
  { clear. induction evs as [|e evs IH]; intros us n m; [reflexivity|].
    simpl. rewrite !ingest_event_scored.
    destruct (scored_sample (_loaded_model sv) e) as [[u s]|]; simpl; apply IH. }
  split; [f_equal; f_equal; lia|].
  split; [apply Hus|].
  split; [lia|]. split; [lia|].
  rewrite !length_app. simpl. lia.
Qed.

(** ** The counters over a sequence of requests *)

Lemma sumZ_nonneg {A} (f : A → Z) (l : list A) :
  (∀ x, 0 <= f x) → 0 <= sumZ (map f l).
Proof.
  intros Hf. induction l as [|x l IH]; simpl; [lia|].
  specialize (Hf x). lia.
Qed.

Lemma serve_stats sv rq :
  let m := _loaded_model sv in
  ingest_requests (stats (serve sv rq))
  = ingest_requests (stats sv) + request_ingests rq
  ∧ events_processed (stats (serve sv rq))
    = events_processed (stats sv) + request_processed m rq
  ∧ median_requests (stats (serve sv rq))
    = median_requests (stats sv) + request_medians rq
  ∧ ingest_latencies (stats (serve sv rq))
    = ingest_latencies (stats sv) ++ request_latency rq.
Proof.
  cbv zeta. destruct rq as [[[evs|]] t0 t1|uid|]; simpl.
  - rewrite ingest_ok. cbv zeta. simpl. rewrite ingest_loop_count. simpl.
    repeat split; lia.
  - rewrite app_nil_r. repeat split; lia.
  - rewrite get_user_median_state. simpl. rewrite app_nil_r.
    repeat split; lia.
  - rewrite app_nil_r. repeat split; lia.
Qed.

Lemma serve_all_stats_eq sv rqs :
  ingest_requests (stats (serve_all sv rqs))
  = ingest_requests (stats sv) + sumZ (map request_ingests rqs)
  ∧ events_processed (stats (serve_all sv rqs))
    = events_processed (stats sv)
      + sumZ (map (request_processed (_loaded_model sv)) rqs)
  ∧ median_requests (stats (serve_all sv rqs))
    = median_requests (stats sv) + sumZ (map request_medians rqs)
  ∧ ingest_latencies (stats (serve_all sv rqs))
    = ingest_latencies (stats sv) ++ flat_map request_latency rqs.
Proof.
  unfold serve_all. revert sv.
  induction rqs as [|rq rqs IH]; intros sv; simpl.
  - rewrite app_nil_r. repeat split; lia.
  - destruct (IH (serve sv rq)) as (H1 & H2 & H3 & H4).
    destruct (serve_stats sv rq) as (S1 & S2 & S3 & S4).
    rewrite serve_model in H2.
    rewrite H1, H2, H3, H4, S1, S2, S3, S4, <- app_assoc.
    repeat split; lia.
Qed.

Example serve_all_stats_ex :
  stats (serve_all (fresh (Some sum3))
           [ ReqMedian "u1";
             ReqIngest (mkPayload None) 0%Q 1%Q;
             ReqIngest (mkPayload (Some [mkEvent (Some "u1") (Some 5) (Some [1; 2; 3]%Q);
                                         mkEvent (Some "u1") (Some 6) None]))
                       (2#1) (5#1);
             ReqStats; ReqMedian "u1" ])
  = mkStats 1 1 2 [((5#1) - (2#1))%Q].
Proof. reflexivity. Qed.

(** ** The median and the scores *)

Lemma middle_between (srt : list Q) (lo hi m : Q) :
  Forall (λ x, (lo <= x)%Q ∧ (x <= hi)%Q) srt →
  middle srt = Some m → (lo <= m)%Q ∧ (m <= hi)%Q.
Proof.
  intros Hall. unfold middle. cbv zeta.
  rewrite Forall_lookup in Hall.
  destruct (Nat.odd (length srt)).
  - intros H. by apply Hall in H.
  - destruct (srt !! (length srt / 2 - 1)%nat) as [a|] eqn:Ea; [|discriminate].
    destruct (srt !! (length srt / 2)%nat) as [b|] eqn:Eb; [|discriminate].
    simpl. intros [= <-].
    apply Hall in Ea as [Ha1 Ha2]. apply Hall in Eb as [Hb1 Hb2].
    simpl in Ha1, Ha2, Hb1, Hb2. split.
    + apply Qle_shift_div_l; [reflexivity|]. lra.
    + apply Qle_shift_div_r; [reflexivity|]. lra.
Qed.

(** X10.  The median answered for a user lies between the smallest and the
    largest score in the user's deque: when all the scores are in
    [[lo, hi]], so is the median. *)
Theorem get_user_median_between sv uid dq lo hi m :
  user_scores sv !! uid = Some dq →
  Forall (λ s, (lo <= snd s)%Q ∧ (snd s <= hi)%Q) dq →
  (get_user_median sv uid).1 = OK (mkMedianBody (Some m)) →
  (lo <= m)%Q ∧ (m <= hi)%Q.
Proof.
  intros Hdq Hall. unfold get_user_median. cbv zeta. rewrite Hdq.
  destruct dq as [|s dq]; [discriminate|].
  destruct (median (map snd (s :: dq))) as [m'|] eqn:Em; [|discriminate].
  simpl. intros [= <-].
  rewrite median_middle in Em by done.
  apply (middle_between (sorted (map snd (s :: dq)))); [|exact Em].
  rewrite sorted_perm. by rewrite Forall_map.
Qed.

Lemma get_user_median_between_witness :
  ((1#1) <= (2#1))%Q ∧ ((2#1) <= (3#1))%Q.
Proof.
  apply (get_user_median_between sv_example "u1"
           [(1700000000, (3#1)%Q); (1700000010, (1#1)%Q); (1700000020, (2#1)%Q)]).
  - reflexivity.
  - repeat constructor; simpl; discriminate.
  - reflexivity.
Defined.

(** ** The network and the events it scores *)

Lemma linear_forward_shape n_in n_out L x :
  linear_shaped n_in n_out L →
  (length x = n_in → ∃ y, linear_forward L x = Some y ∧ length y = n_out)
  ∧ (length x ≠ n_in → linear_forward L x = None).
Proof.
  intros (Hin & _ & Hw & _ & Hb). unfold linear_forward. rewrite Hin. split.
  - intros ->. rewrite Nat.eqb_refl. eexists. split; [reflexivity|].
    rewrite length_zip_with. lia.
  - intros Hne. by apply Nat.eqb_neq in Hne as ->.
Qed.

Lemma ReLU_length x : length (ReLU x) = length x.
Proof. apply length_map. Qed.

Lemma zero_linear_shaped n_in n_out : linear_shaped n_in n_out (zero_linear n_in n_out).
Proof.
  unfold linear_shaped, zero_linear. simpl.
  rewrite !length_replicate. repeat split.
  apply Forall_replicate, length_replicate.
Qed.

Lemma zero_model_shaped : well_shaped 3 zero_model.
Proof. repeat split; apply zero_linear_shaped || apply length_replicate
                     || (apply Forall_replicate, length_replicate). Qed.

Lemma as_model_three M fs :
  well_shaped 3 M → is_Some (as_model M fs) ↔ length fs = 3%nat.
Proof.
  intros (H0 & H3 & H5). unfold as_model, model_forward. cbv zeta.
  destruct (linear_forward_shape _ _ _ (map (λ v, (v * 1)%Q) fs) H0) as [Hok Hbad].
  rewrite length_map in Hok, Hbad.
  destruct (decide (length fs = 3%nat)) as [Hlen|Hlen].
  - split; [done|]. intros _.
    destruct (Hok Hlen) as (h1 & -> & Hl1). simpl.
    destruct (linear_forward_shape _ _ _ (Dropout0 (ReLU h1)) H3) as [Hok3 _].
    destruct Hok3 as (h2 & -> & Hl2);
      [unfold Dropout0; by rewrite ReLU_length|].
    simpl.
    destruct (linear_forward_shape _ _ _ (ReLU h2) H5) as [Hok5 _].
    destruct Hok5 as (y & -> & Hy); [by rewrite ReLU_length|].
    simpl. destruct y as [|o [|? ?]]; simpl in Hy; try lia. eauto.
  - rewrite (Hbad Hlen). simpl. split; [by intros [? ?] | done].
Qed.

Lemma counted_three_features M e :
  well_shaped 3 M →
  counted (Some (as_model M)) e = true
  ↔ ∃ uid ts fs, e = mkEvent (Some uid) (Some ts) (Some fs)
                 ∧ length fs = 3%nat.
Proof.
  intros Hw. rewrite counted_scored. unfold scored_sample.
  destruct e as [[u|] [ts|] [fs|]]; simpl;
    try (split; [by intros [? ?] | by intros (? & ? & ? & ? & ?)]).
  pose proof (as_model_three M fs Hw) as Hp.
  destruct (as_model M fs) as [y|]; simpl.
  - split; [|eauto]. intros _. exists u, ts, fs. split; [done|].
    apply Hp. eauto.
  - split; [by intros [? ?]|]. intros (u' & ts' & fs' & [= -> -> ->] & Hlen).
    apply Hp in Hlen as [? ?]. discriminate.
Qed.

(** X13.  With [InefficientModel()] loaded, the scoring call returns a score
    exactly for feature vectors of three entries; on any other length the
    first layer raises.  So the items [ingest] counts are those that have
    their three fields and exactly three features. *)
Theorem scoring_needs_three_features M :
  well_shaped 3 M →
  (∀ fs, (∃ score, _predict_sync (Some (as_model M)) fs = inr score)
         ↔ length fs = 3%nat)
  ∧ (∀ e, counted (Some (as_model M)) e = true
          ↔ ∃ uid ts fs, e = mkEvent (Some uid) (Some ts) (Some fs)
                         ∧ length fs = 3%nat).
Proof.
  intros Hw. split.
  - intros fs. rewrite <- (as_model_three M fs Hw). simpl.
    destruct (as_model M fs) as [y|]; split.
    + eauto.
    + eauto.
    + by intros [? ?].
    + by intros [? ?].
  - intros e. by apply counted_three_features.
Qed.

Lemma scoring_needs_three_features_witness :
  (∃ score, _predict_sync (Some (as_model zero_model)) [1; 2; 3]%Q = inr score)
  ↔ length [1; 2; 3]%Q = 3%nat.
Proof.
  apply (proj1 (scoring_needs_three_features zero_model zero_model_shaped)).
Defined.

Example zero_model_ex :
  _predict_sync (Some (as_model zero_model)) [1; 2; 3]%Q = inr 0%Q
  ∧ _predict_sync (Some (as_model zero_model)) [1; 2]%Q = inl ModelError.
Proof. split; vm_compute; reflexivity. Qed.

(** ** The load generator *)

Lemma generated_counted M e :
  well_shaped 3 M → generated e → counted (Some (as_model M)) e = true.
Proof.
  intros Hw (uid & now & r1 & r2 & r3 & ->).
  apply (counted_three_features M _ Hw).
  unfold make_event. eauto.
Qed.

(** X14.  Every event that [make_event] builds has its three fields and three
    features, so a service with [InefficientModel()] loaded counts each of
    them: a batch made of such events is answered with its full size. *)
Theorem generated_batch_fully_processed M sv evs t0 t1 :
  well_shaped 3 M →
  _loaded_model sv = Some (as_model M) →
  Forall generated evs →
  (ingest sv (mkPayload (Some evs)) t0 t1).1
  = OK (mkIngestBody (Z.of_nat (length evs))).
Proof.
  intros Hw Hm Hgen. rewrite ingest_ok. cbv zeta.
  rewrite ingest_loop_count, Hm.
  assert (Hall : length (List.filter (counted (Some (as_model M))) evs)
                 = length evs).
  { induction Hgen as [|e evs He _ IH]; [reflexivity|].
    simpl. rewrite (generated_counted M e Hw He). simpl. by rewrite IH. }
  rewrite Hall. simpl. do 2 f_equal.
Qed.

Lemma generated_batch_fully_processed_witness :
  (ingest (fresh (Some (as_model zero_model)))
     (mkPayload (Some [make_event 7 (1700000000#1) (1#2) (1#3) (1#4);
                       make_event 8 (1700000000#1) (1#5) (1#6) (1#7)]))
     0%Q 1%Q).1
  = OK (mkIngestBody (Z.of_nat 2)).
Proof.
  apply (generated_batch_fully_processed zero_model).
  - exact zero_model_shaped.
  - reflexivity.
  - repeat constructor; unfold generated; eauto 10.
Defined.

(** X15.  [make_event] gives different users different ids, so their deques
    never collide, and the timestamp is the whole number of seconds in the
    clock reading: not after it and less than a second before it (for a
    clock that is not negative). *)
Theorem make_event_fields uid uid' now now' r1 r2 r3 r1' r2' r3' :
  (user_id (make_event uid now r1 r2 r3)
   = user_id (make_event uid' now' r1' r2' r3') → uid = uid')
  ∧ ((0 <= now)%Q →
     ∃ ts, timestamp (make_event uid now r1 r2 r3) = Some ts
           ∧ (inject_Z ts <= now)%Q ∧ (now < inject_Z ts + 1)%Q).
Proof.
  split.
  - simpl. intros [= H]. by apply (inj pretty).
  - intros Hnow. exists (int now). split; [reflexivity|].
    destruct now as [n d]. unfold int, Qle, Qlt in *. simpl in *.
    assert (Hn : 0 <= n) by lia.
    rewrite Z.quot_div_nonneg by lia.
    pose proof (Z.div_mod n (Z.pos d) ltac:(lia)) as Hdm.
    pose proof (Z.mod_pos_bound n (Z.pos d) ltac:(lia)) as Hmod.
    split; nia.
Qed.

Lemma make_event_fields_witness :
  (7 = 7)
  ∧ ∃ ts, timestamp (make_event 7 (17000000005#10) (1#2) (1#3) (1#4)) = Some ts
          ∧ (inject_Z ts <= (17000000005#10))%Q
          ∧ ((17000000005#10) < inject_Z ts + 1)%Q.
Proof.
  destruct (make_event_fields 7 7 (17000000005#10) (17000000005#10)
              (1#2) (1#3) (1#4) (1#2) (1#3) (1#4)) as [Hinj Hts].
  split; [apply Hinj; reflexivity | apply Hts; discriminate].
Defined.

Example make_event_ex :
  make_event 7 (17000000005#10) (1#2) (1#3) (1#4)
  = mkEvent (Some "user-7") (Some 1700000000) (Some [(1#2); (1#3); (1#4)]%Q).
Proof. reflexivity. Qed.

(** X16.  The load generator never sends fewer than one batch per second:
    a target below [batch_size] events per second is raised to one batch of
    ten, a target of at least [batch_size] is rounded down to whole batches;
    the pause between batches is positive and at most one second, and its
    computation never divides by zero. *)
Theorem batches_per_sec_bounds rps :
  1 <= batches_per_sec rps
  ∧ (rps < batch_size → batches_per_sec rps = 1)
  ∧ (batch_size <= rps →
     batches_per_sec rps * batch_size <= rps
     < batches_per_sec rps * batch_size + batch_size)
  ∧ (0 < interval rps)%Q ∧ (interval rps <= 1)%Q.
Proof.
  unfold batches_per_sec, batch_size.
  pose proof (Z.div_mod rps 10 ltac:(lia)) as Hdm.
  pose proof (Z.mod_pos_bound rps 10 ltac:(lia)) as Hmod.
  split; [lia|]. split; [intros H; lia|]. split; [intros H; lia|].
  unfold interval, batches_per_sec, batch_size.
  assert (Hb : 1 <= Z.max 1 (rps / 10)) by lia.
  set (b := Z.max 1 (rps / 10)) in *.
  assert (Hq : (1 <= inject_Z b)%Q).
  { change 1%Q with (inject_Z 1). by rewrite <- Zle_Qle. }
  split.
  - apply Qlt_shift_div_l; lra.
  - apply Qle_shift_div_r; lra.
Qed.

Lemma batches_per_sec_bounds_witness :
  batches_per_sec 5 = 1
  ∧ batches_per_sec 205 * batch_size <= 205
    < batches_per_sec 205 * batch_size + batch_size.
Proof.
  split.
  - apply (batches_per_sec_bounds 5). reflexivity.
  - apply (batches_per_sec_bounds 205). discriminate.
Defined.

(** ** Runs of concurrent requests: progress and termination *)

Lemma step_task_critical sv l t :
  critical t = 1 → is_Some (step_task sv l t).
Proof. destruct t; simpl; intros H; try lia; eauto. Qed.

Lemma step_task_unlocked sv t :
  finished t = false → is_Some (step_task sv false t).
Proof.
  destruct t; simpl; intros H; try discriminate; eauto;
    repeat case_match; eauto.
Qed.

Lemma total_one_witness (f : Task → Z) (ts : list Task) :
  (∀ t, f t = 0 ∨ f t = 1) → total f ts = 1 →
  ∃ i t, ts !! i = Some t ∧ f t = 1.
Proof.
  intros Hr. induction ts as [|t ts IH]; simpl; [lia|].
  intros Htot. destruct (Hr t) as [H0|H1].
  - destruct IH as (i & t' & Hi & Ht'); [lia|]. by exists (S i), t'.
  - by exists 0%nat, t.
Qed.

(** X17.  The lock never blocks the system: in every configuration reached,
    as long as a request is unanswered some task can take a step.  When the
    lock is held, its holder can; when it is free, every unanswered task
    can. *)
Theorem run_progress sv0 past c t :
  run (initial sv0) past c →
  t ∈ tasks c → finished t = false →
  ∃ i c', act c (Run i) = Some c'.
Proof.
  intros Hrun Hin Hunf.
  pose proof (Inv_run _ _ _ Hrun) as HI.
  assert (Hstep : ∀ i t', tasks c !! i = Some t' →
            is_Some (step_task (service c) (stats_lock c) t') →
            ∃ c', act c (Run i) = Some c').
  { intros i t' Hi [r Hr]. simpl. rewrite Hi. simpl. rewrite Hr. simpl. eauto. }
  destruct (stats_lock c) eqn:El.
  - pose proof (inv_mutex _ _ HI) as Hm. rewrite El in Hm.
    destruct (total_one_witness critical (tasks c) critical_range Hm)
      as (i & t' & Hi & Hc).
    exists i. apply (Hstep i t' Hi). by apply step_task_critical.
  - apply list_elem_of_lookup in Hin as [i Hi].
    exists i. apply (Hstep i t Hi). by apply step_task_unlocked.
Qed.

Lemma run_progress_witness :
  ∃ i c', act (mkConfig (fresh None) false [StatsAcquire]) (Run i) = Some c'.
Proof.
  apply (run_progress (fresh None) [initial (fresh None)]
           (mkConfig (fresh None) false [StatsAcquire]) StatsAcquire).
  - apply (run_step _ [] (initial (fresh None))); [apply run_start|].
    by exists (Arrive ReqStats).
  - by apply list_elem_of_singleton.
  - reflexivity.
Defined.

Lemma step_task_remaining sv l t sv' l' t' :
  step_task sv l t = Some (sv', l', t') → remaining t' = remaining t - 1.
Proof.
  intros Hs. destruct t; simpl in Hs; repeat case_match; simplify_eq;
    simpl; rewrite ?Nat2Z.inj_succ; try lia.
  all: try (match goal with Hev : events _ = _ |- _ => rewrite Hev end; lia).
Qed.

Lemma remaining_nonneg t : 0 <= remaining t.
Proof. destruct t; simpl; repeat case_match; lia. Qed.

Lemma finished_remaining t : finished t = true ↔ remaining t = 0.
Proof.
  destruct t; simpl; repeat case_match; split; intros Hf;
    try done; try lia.
Qed.

Lemma act_remaining c a c' :
  act c a = Some c' →
  total remaining (tasks c')
  = total remaining (tasks c)
    + match a with Arrive rq => remaining (spawn rq) | Run _ => -1 end.
Proof.
  destruct a as [rq|i]; simpl.
  - intros [= <-]. simpl. rewrite total_app. simpl. lia.
  - destruct (tasks c !! i) as [t|] eqn:Hi; [|discriminate]. simpl.
    destruct (step_task (service c) (stats_lock c) t) as [[[sv' l'] t']|] eqn:Hs;
      [|discriminate].
    simpl. intros [= <-]. simpl.
    rewrite (total_insert _ _ _ _ t' Hi).
    rewrite (step_task_remaining _ _ _ _ _ _ Hs). lia.
Qed.

Lemma total_remaining_nonneg ts : 0 <= total remaining ts.
Proof.
  induction ts as [|t ts IH]; simpl; [lia|].
  pose proof (remaining_nonneg t). lia.
Qed.

Lemma all_finished_iff ts :
  Forall (λ t, finished t = true) ts ↔ total remaining ts = 0.
Proof.
  induction ts as [|t ts IH]; simpl.
  - split; [reflexivity | constructor].
  - pose proof (remaining_nonneg t). pose proof (total_remaining_nonneg ts).
    rewrite Forall_cons, IH, finished_remaining. lia.
Qed.

(** X18.  Every request is answered after a fixed number of steps of its own
    task: 11 plus the number of items for an ingest with ["events"], 1 for an
    ingest without, 5 for a median, 7 for [get_stats].  Whatever the
    schedule, the steps still to be made are those the arrived requests need
    minus the steps made, so no schedule makes more steps than that, and the
    tasks have all answered exactly when none is left to make. *)
Theorem run_terminates c past acts past' c' :
  play c past acts = Some (past', c') →
  total remaining (tasks c')
  = total remaining (tasks c)
    + sumZ (map (λ rq, remaining (spawn rq)) (arrivals acts)) - runs acts
  ∧ runs acts
    <= total remaining (tasks c)
       + sumZ (map (λ rq, remaining (spawn rq)) (arrivals acts))
  ∧ (Forall (λ t, finished t = true) (tasks c')
     ↔ total remaining (tasks c') = 0).
Proof.
  intros Hplay.
  pose proof total_remaining_nonneg as Hnn.
  assert (Heq : total remaining (tasks c')
    = total remaining (tasks c)
      + sumZ (map (λ rq, remaining (spawn rq)) (arrivals acts)) - runs acts).
  { revert c past Hplay. induction acts as [|a acts IH]; intros c past; simpl.
    - intros [= <- <-]. unfold runs. simpl. lia.
    - destruct (act c a) as [c1|] eqn:Ha; [|discriminate]. simpl.
      intros Hplay. rewrite (IH _ _ Hplay), (act_remaining _ _ _ Ha).
      unfold runs, arrivals. destruct a as [rq|i]; simpl; lia. }
  split; [exact Heq|]. split; [specialize (Hnn (tasks c')); lia|].
  apply all_finished_iff.
Qed.

Lemma run_terminates_witness :
  total remaining (tasks demo_run.2)
  = total remaining (tasks (initial (fresh (Some sum3))))
    + sumZ (map (λ rq, remaining (spawn rq)) (arrivals demo_schedule))
    - runs demo_schedule.
Proof.
  assert (Hplay : play (initial (fresh (Some sum3))) [] demo_schedule
                  = Some (demo_run.1, demo_run.2))
    by (vm_compute; reflexivity).
  exact (proj1 (run_terminates _ _ _ _ _ Hplay)).
Defined.

(** ** Concurrent requests add up as if served one after the other *)

Lemma step_task_model sv l t sv' l' t' :
  step_task sv l t = Some (sv', l', t') → _loaded_model sv' = _loaded_model sv.
Proof.
  intros Hs. destruct t; simpl in Hs; repeat case_match; by simplify_eq.
Qed.

Lemma count_counted_cons model e evs :
  count_counted model (e :: evs)
  = (if counted model e then 1 else 0) + count_counted model evs.
Proof.
  unfold count_counted. simpl. destruct (counted model e); simpl length; lia.
Qed.

Lemma step_task_tracks sv l t sv' l' t' rq :
  step_task sv l t = Some (sv', l', t') →
  tracks (_loaded_model sv) rq t → tracks (_loaded_model sv) rq t'.
Proof.
  intros Hs Ht.
  destruct rq as [payload t0 t1|uid|]; destruct t; simpl in Hs, Ht;
    try done; repeat case_match; simplify_eq; simpl; try done;
    try (by intuition eauto).
  - (* the start, with ["events"] *)
    destruct Ht as (-> & -> & ->). done.
  - (* the start, without *)
    destruct Ht as (-> & _). done.
  - (* the end of the loop *)
    destruct Ht as [(all & Hall & Hn) [-> ->]].
    split; [|done]. exists all. split; [exact Hall|].
    unfold count_counted in Hn at 1. simpl in Hn. lia.
  - (* a turn of the loop *)
    destruct Ht as [(all & Hall & Hn) [-> ->]].
    split; [|done]. exists all. split; [exact Hall|].
    rewrite count_counted_cons in Hn.
    destruct (counted (_loaded_model sv) e) eqn:Ec.
    + rewrite (ingest_event_count _ _ _ Ec). simpl. lia.
    + rewrite (ingest_event_skip _ _ _ Ec). simpl. lia.
Qed.

Lemma spawn_tracks model rq : tracks model rq (spawn rq).
Proof. by destruct rq. Qed.

Lemma finished_tracks model rq t :
  tracks model rq t → finished t = true →
  requests_added t = request_ingests rq
  ∧ processed_added t = request_processed model rq
  ∧ median_added t = request_medians rq
  ∧ latencies_added t = request_latency rq.
Proof.
  intros Ht Hf.
  destruct rq as [payload t0 t1|uid|]; destruct t; simpl in Ht, Hf;
    try done; simpl.
  - destruct Ht as [(all & -> & ->) ->]. done.
  - by rewrite Ht.
Qed.

Lemma act_tracks model rqs c a c' :
  _loaded_model (service c) = model →
  Forall2 (tracks model) rqs (tasks c) →
  act c a = Some c' →
  _loaded_model (service c') = model
  ∧ Forall2 (tracks model)
            (rqs ++ match a with Arrive rq => [rq] | Run _ => [] end)
            (tasks c').
Proof.
  intros Hm Hall. destruct a as [rq|i]; simpl.
  - intros [= <-]. simpl. split; [exact Hm|].
    apply Forall2_app; [exact Hall|]. repeat constructor. apply spawn_tracks.
  - destruct (tasks c !! i) as [t|] eqn:Hi; [|discriminate]. simpl.
    destruct (step_task (service c) (stats_lock c) t) as [[[sv' l'] t']|] eqn:Hs;
      [|discriminate].
    simpl. intros [= <-]. simpl. rewrite app_nil_r.
    split; [by rewrite (step_task_model _ _ _ _ _ _ Hs)|].
    destruct (Forall2_lookup_r _ _ _ _ _ Hall Hi) as (rq & Hrq & Htr).
    rewrite <- (list_insert_id rqs i rq Hrq).
    apply Forall2_insert; [exact Hall|].
    subst model. by apply (step_task_tracks _ _ _ _ _ _ _ Hs).
Qed.

Lemma play_tracks model rqs c past acts past' c' :
  _loaded_model (service c) = model →
  Forall2 (tracks model) rqs (tasks c) →
  play c past acts = Some (past', c') →
  _loaded_model (service c') = model
  ∧ Forall2 (tracks model) (rqs ++ arrivals acts) (tasks c').
Proof.
  revert rqs c past. induction acts as [|a acts IH]; intros rqs c past Hm Hall.
  - simpl. intros [= <- <-]. by rewrite app_nil_r.
  - simpl. destruct (act c a) as [c1|] eqn:Ha; [|discriminate]. simpl.
    intros Hplay.
    destruct (act_tracks _ _ _ _ _ Hm Hall Ha) as [Hm1 Hall1].
    destruct (IH _ _ _ Hm1 Hall1 Hplay) as [Hm' Hall'].
    split; [exact Hm'|].
    unfold arrivals. destruct a as [rq|i]; simpl.
    + by rewrite <- app_assoc in Hall'.
    + by rewrite app_nil_r in Hall'.
Qed.

Lemma total_tracked model (f : Task → Z) (g : Request → Z) rqs ts :
  Forall2 (tracks model) rqs ts →
  Forall (λ t, finished t = true) ts →
  (∀ rq t, tracks model rq t → finished t = true → f t = g rq) →
  total f ts = sumZ (map g rqs).
Proof.
  intros Hall. induction Hall as [|rq t rqs ts Ht _ IH]; intros Hfin Hfg;
    simpl; [reflexivity|].
  apply Forall_cons in Hfin as [Hf Hfin].
  rewrite (Hfg rq t Ht Hf), IH by done. reflexivity.
Qed.

(** X19.  When all the requests that arrived during a run have been
    answered, whatever the schedule was, the counters of [stats] are those a
    service would have after serving the same requests one after the other,
    and the latency list holds the same samples, possibly in another
    order. *)
Theorem concurrent_totals sv0 acts past c :
  play (initial sv0) [] acts = Some (past, c) →
  Forall (λ t, finished t = true) (tasks c) →
  let sv := serve_all sv0 (arrivals acts) in
  ingest_requests (stats (service c)) = ingest_requests (stats sv)
  ∧ events_processed (stats (service c)) = events_processed (stats sv)
  ∧ median_requests (stats (service c)) = median_requests (stats sv)
  ∧ Permutation (ingest_latencies (stats (service c)))
                (ingest_latencies (stats sv)).
Proof.
  intros Hplay Hfin. cbv zeta.
  pose proof (play_run _ [] _ _ _ _ (run_start _) Hplay) as Hrun.
  destruct (Inv_run _ _ _ Hrun) as [_ Irq Ipr Imd Ilat _].
  destruct (play_tracks (_loaded_model sv0) [] (initial sv0) [] acts past c
              eq_refl (List.Forall2_nil _) Hplay) as [_ Htr].
  simpl in Htr.
  destruct (serve_all_stats_eq sv0 (arrivals acts)) as (S1 & S2 & S3 & S4).
  rewrite S1, S2, S3, S4, Irq, Ipr, Imd, Ilat.
  rewrite (total_tracked _ requests_added request_ingests _ _ Htr Hfin)
    by (intros rq t Ht Hf; by destruct (finished_tracks _ _ _ Ht Hf) as (? & ? & ? & ?)).
  rewrite (total_tracked _ processed_added
             (request_processed (_loaded_model sv0)) _ _ Htr Hfin)
    by (intros rq t Ht Hf; by destruct (finished_tracks _ _ _ Ht Hf) as (? & ? & ? & ?)).
  rewrite (total_tracked _ median_added request_medians _ _ Htr Hfin)
    by (intros rq t Ht Hf; by destruct (finished_tracks _ _ _ Ht Hf) as (? & ? & ? & ?)).
  repeat split.
  apply Permutation_app_head.
  clear -Htr Hfin. induction Htr as [|rq t rqs ts Ht _ IH]; simpl; [done|].
  apply Forall_cons in Hfin as [Hf Hfin].
  destruct (finished_tracks _ _ _ Ht Hf) as (_ & _ & _ & ->).
  by rewrite IH.
Qed.

Lemma concurrent_totals_witness :
  events_processed (stats (service demo_run.2))
  = events_processed
      (stats (serve_all (fresh (Some sum3)) (arrivals demo_schedule))).
Proof.
  assert (Hplay : play (initial (fresh (Some sum3))) [] demo_schedule
                  = Some (demo_run.1, demo_run.2))
    by (vm_compute; reflexivity).
  refine (proj1 (proj2 (concurrent_totals _ _ _ _ Hplay _))).
  vm_compute. repeat constructor.
Defined.

(** X20.  A request served with no other request in flight goes, step by
    step, to the very state the handler computes as one function, with the
    lock released and the handler's answer. *)
Theorem alone_is_sequential sv rq :
  ∃ t, reach (mkConfig sv false [spawn rq]) (mkConfig (serve sv rq) false [t])
       ∧ finished t = true
       ∧ match rq with
         | ReqIngest payload t0 t1 =>
             ingest_answer t = Some (ingest sv payload t0 t1).1
         | ReqMedian uid => median_answer t = Some (get_user_median sv uid).1
         | ReqStats => stats_answer t = Some (get_stats sv).1
         end.
Proof.
  destruct rq as [payload t0 t1|uid|]; simpl.
  - destruct (ingest_alone sv payload t0 t1) as (t & Hr & Ha).
    exists t. split; [exact Hr|]. split; [|exact Ha]. by destruct t.
  - destruct (median_alone sv uid) as (t & Hr & Ha).
    exists t. split; [exact Hr|]. split; [|exact Ha]. by destruct t.
  - destruct (stats_alone sv) as (t & Hr & Ha).
    exists t. split; [exact Hr|]. split; [|exact Ha]. by destruct t.
Qed.

(** ** What the integration test expects *)

Lemma test_request_processed M rq :
  well_shaped 3 M → test_request rq →
  request_processed (Some (as_model M)) rq = request_items rq.
Proof.
  intros Hw. destruct rq as [payload t0 t1|uid|]; simpl; try done.
  intros (evs & -> & Hgen). f_equal.
  induction Hgen as [|e evs He _ IH]; [reflexivity|].
  simpl. rewrite (generated_counted M e Hw He). simpl. by rewrite IH.
Qed.

(** X21.  The integration test's expectation.  With [InefficientModel()]
    loaded, when batches of events built by [make_event] are ingested
    concurrently, together with median and [get_stats] requests, then once
    all are answered [events_processed] has grown by the number of events
    sent, whatever the schedule: no event is lost and none is counted
    twice. *)
Theorem concurrent_batches_all_processed M sv0 acts past c :
  well_shaped 3 M →
  _loaded_model sv0 = Some (as_model M) →
  Forall test_request (arrivals acts) →
  play (initial sv0) [] acts = Some (past, c) →
  Forall (λ t, finished t = true) (tasks c) →
  events_processed (stats (service c))
  = events_processed (stats sv0) + sumZ (map request_items (arrivals acts)).
Proof.
  intros Hw Hm Htest Hplay Hfin.
  pose proof (play_run _ [] _ _ _ _ (run_start _) Hplay) as Hrun.
  destruct (Inv_run _ _ _ Hrun) as [_ _ Ipr _ _ _].
  destruct (play_tracks (_loaded_model sv0) [] (initial sv0) [] acts past c
              eq_refl (List.Forall2_nil _) Hplay) as [_ Htr].
  simpl in Htr. rewrite Ipr. f_equal.
  rewrite (total_tracked _ processed_added
             (request_processed (_loaded_model sv0)) _ _ Htr Hfin)
    by (intros rq t Ht Hf; by destruct (finished_tracks _ _ _ Ht Hf) as (? & ? & ? & ?)).
  rewrite Hm. clear -Hw Htest.
  induction Htest as [|rq rqs Hrq _ IH]; [reflexivity|].
  simpl. by rewrite IH, (test_request_processed M rq Hw Hrq).
Qed.

Lemma test_run_played :
  play (initial (fresh (Some (as_model zero_model)))) [] test_schedule
  = Some (test_run.1, test_run.2).
Proof.
  assert (Hb : match play (initial (fresh (Some (as_model zero_model)))) []
                          test_schedule with
               | Some _ => true
               | None => false
               end = true) by (vm_compute; reflexivity).
  unfold test_run.
  destruct (play (initial (fresh (Some (as_model zero_model)))) [] test_schedule)
    as [[p c]|]; [reflexivity | discriminate].
Qed.

Lemma test_run_finished : Forall (λ t, finished t = true) (tasks test_run.2).
Proof.
  assert (Hb : forallb finished (tasks test_run.2) = true)
    by (vm_compute; reflexivity).
  revert Hb. generalize (tasks test_run.2). intros ts Hb.
  rewrite forallb_forall in Hb. apply Forall_forall.
  intros t Ht. apply Hb. by apply list_elem_of_In.
Qed.

Lemma test_schedule_arrivals : arrivals test_schedule = test_requests.
Proof. reflexivity. Qed.

Lemma test_batch_generated :
  Forall generated test_batch1 ∧ Forall generated test_batch2.
Proof.
  split; (apply List.Forall_cons; [|apply List.Forall_cons; [|apply List.Forall_nil]]).
  - by exists 0, (1700000000#1)%Q, 0%Q, (1#2)%Q, (1#4)%Q.
  - by exists 1, (1700000000#1)%Q, (1#2)%Q, 0%Q, (3#4)%Q.
  - by exists 0, (1700000001#1)%Q, (1#4)%Q, (1#2)%Q, 0%Q.
  - by exists 2, (1700000001#1)%Q, (3#4)%Q, (1#4)%Q, (1#2)%Q.
Qed.

Lemma test_requests_ok : Forall test_request test_requests.
Proof.
  destruct test_batch_generated as [H1 H2].
  apply List.Forall_cons; [by exists test_batch1|].
  apply List.Forall_cons; [by exists test_batch2|].
  apply List.Forall_cons; [exact I | apply List.Forall_nil].
Qed.

Lemma concurrent_batches_all_processed_witness :
  events_processed (stats (service test_run.2))
  = events_processed (stats (fresh (Some (as_model zero_model))))
    + sumZ (map request_items (arrivals test_schedule)).
Proof.
  apply (concurrent_batches_all_processed zero_model
           (fresh (Some (as_model zero_model))) test_schedule
           test_run.1 test_run.2).
  - exact zero_model_shaped.
  - reflexivity.
  - rewrite test_schedule_arrivals. exact test_requests_ok.
  - exact test_run_played.
  - exact test_run_finished.
Defined.

Example test_run_ex :
  events_processed (stats (service test_run.2)) = 4
  ∧ ingest_requests (stats (service test_run.2)) = 2
  ∧ median_requests (stats (service test_run.2)) = 1.
Proof. vm_compute. repeat split. Qed.

(** * The handlers on arbitrary JSON bodies *)

(** ** The order of floats *)

Lemma raw_lt_Num (x y : Q) : Raw.lt (Raw.Num x) (Raw.Num y) = true ↔ (x < y)%Q.
Proof. apply below_spec. Qed.

Lemma raw_le_Num (x y : Q) : Raw.le (Raw.Num x) (Raw.Num y) ↔ (x <= y)%Q.
Proof.
  unfold Raw.le. simpl. rewrite negb_false_iff. apply Qle_bool_iff.
Qed.

Lemma raw_le_refl a : Raw.le a a.
Proof.
  destruct a as [x|[]|]; try reflexivity. apply raw_le_Num, Qle_refl.
Qed.

(** Of two floats one is not below the other. *)
Lemma raw_lt_asym a b : Raw.lt a b = true → Raw.le a b.
Proof.
  destruct a as [x|[]|], b as [y|[]|]; try done.
  rewrite raw_lt_Num, raw_le_Num. apply Qlt_le_weak.
Qed.

Lemma raw_le_trans a b c :
  b ≠ Raw.NaN → Raw.le a b → Raw.le b c → Raw.le a c.
Proof.
  destruct a as [x|[]|], b as [y|[]|], c as [z|[]|]; try done.
  intros _. rewrite !raw_le_Num. apply Qle_trans.
Qed.

Lemma raw_le_lt_trans a b c :
  a ≠ Raw.NaN → Raw.le a b → Raw.lt b c = true → Raw.lt a c = true.
Proof.
  destruct a as [x|[]|], b as [y|[]|], c as [z|[]|]; try done.
  intros _. rewrite raw_le_Num, !raw_lt_Num. apply Qle_lt_trans.
Qed.

Lemma raw_le_antisym a b :
  a ≠ Raw.NaN → b ≠ Raw.NaN → Raw.le a b → Raw.le b a → Raw.same_value a b.
Proof.
  destruct a as [x|[]|], b as [y|[]|]; try done.
  intros _ _. rewrite !raw_le_Num. simpl. apply Qle_antisym.
Qed.

(** The average of the two middle values goes with their values. *)
Lemma raw_average_same a a' b b' :
  Raw.same_value a a' → Raw.same_value b b' →
  Raw.same_value (Raw.div (Raw.add a b) 2) (Raw.div (Raw.add a' b') 2).
Proof.
  destruct a as [x|[]|], a' as [x'|[]|]; try done;
    destruct b as [y|[]|], b' as [y'|[]|]; try done.
  simpl. intros -> ->. reflexivity.
Qed.

(** ** The median of floats *)

Section RawSorting.
Implicit Types (l srt data : list Raw.pyfloat) (x y : Raw.pyfloat).

Lemma raw_insert_sorted_perm x l :
  Permutation (Raw.insert_sorted x l) (x :: l).
Proof.
  induction l as [|y l IH]; simpl; [reflexivity|].
  destruct (Raw.lt y x); [|reflexivity].
  rewrite IH. apply perm_swap.
Qed.

Lemma raw_sorted_perm data : Permutation (Raw.sorted data) data.
Proof.
  unfold Raw.sorted. induction data as [|x l IH]; simpl; [reflexivity|].
  rewrite raw_insert_sorted_perm. by constructor.
Qed.

Lemma raw_sorted_length data : length (Raw.sorted data) = length data.
Proof. apply Permutation_length, raw_sorted_perm. Qed.

Lemma raw_insert_sorted_sorted x l :
  Forall (λ z, z ≠ Raw.NaN) l →
  StronglySorted Raw.le l → StronglySorted Raw.le (Raw.insert_sorted x l).
Proof.
  induction 1 as [|y l Hy Hfin IH]; simpl; intros Hs.
  - repeat constructor.
  - apply StronglySorted_inv in Hs as Hinv. destruct Hinv as [Hl Hall].
    destruct (Raw.lt y x) eqn:E.
    + constructor; [by apply IH|].
      rewrite (raw_insert_sorted_perm x l).
      constructor; [by apply raw_lt_asym | exact Hall].
    + constructor; [exact Hs|].
      constructor; [exact E|].
      eapply Forall_impl; [exact Hall|]. simpl. intros z Hz.
      by apply raw_le_trans with y.
Qed.

(** Without NaN, [sorted] returns the data in ascending order. *)
Lemma raw_sorted_sorted data :
  Forall (λ x, x ≠ Raw.NaN) data → StronglySorted Raw.le (Raw.sorted data).
Proof.
  induction 1 as [|x l Hx Hfin IH]; [constructor|].
  change (Raw.sorted (x :: l)) with (Raw.insert_sorted x (Raw.sorted l)).
  apply raw_insert_sorted_sorted; [|exact IH].
  by rewrite raw_sorted_perm.
Qed.

(** Data in which no element is below its predecessor comes back from
    [sorted] as it is, NaN or not. *)
Lemma raw_sorted_run data :
  (∀ i x y, data !! i = Some x → data !! S i = Some y → Raw.lt y x = false) →
  Raw.sorted data = data.
Proof.
  unfold Raw.sorted. induction data as [|x l IH]; intros Hrun; [reflexivity|].
  simpl. rewrite IH by (intros i a b; apply (Hrun (S i))).
  destruct l as [|y l]; [reflexivity|].
  simpl. by rewrite (Hrun 0%nat x y).
Qed.

(** On data that is not empty, the library function is the middle of the
    sorted data. *)
Lemma raw_median_middle data :
  data ≠ [] → Raw.median data = Raw.middle (Raw.sorted data).
Proof.
  intros Hne. unfold Raw.median, Raw.middle. cbv zeta.
  assert (Hlen : length (Raw.sorted data) ≠ 0%nat).
  { rewrite raw_sorted_length. by destruct data. }
  destruct (Nat.eqb_spec (length (Raw.sorted data)) 0) as [|_]; [done|].
  pose proof (Nat.bit0_mod (length (Raw.sorted data))) as Hbit.
  rewrite Nat.bit0_odd in Hbit. rewrite <- Hbit.
  by destruct (Nat.odd (length (Raw.sorted data))).
Qed.

Lemma raw_middle_is_Some srt : srt ≠ [] → is_Some (Raw.middle srt).
Proof.
  intros Hne. unfold Raw.middle. cbv zeta.
  assert (Hpos : (0 < length srt)%nat) by (destruct srt; [done | simpl; lia]).
  assert (Hhalf : (length srt / 2 < length srt)%nat)
    by (apply Nat.div_lt; lia).
  destruct (Nat.odd (length srt)).
  - by apply lookup_lt_is_Some_2.
  - destruct (lookup_lt_is_Some_2 srt (length srt / 2 - 1)) as [a ->]; [lia|].
    destruct (lookup_lt_is_Some_2 srt (length srt / 2)) as [b ->]; [lia|].
    simpl. eauto.
Qed.

(** [statistics.median] raises on empty data only, NaN or not. *)
Lemma raw_median_is_Some data : data ≠ [] → is_Some (Raw.median data).
Proof.
  intros Hne. rewrite (raw_median_middle _ Hne). apply raw_middle_is_Some.
  intros E. apply (f_equal length) in E. rewrite raw_sorted_length in E.
  by destruct data.
Qed.
End RawSorting.

(** As for the rationals, the value at a given rank of an ascending
    arrangement is fixed by two counts. *)
Section RawRank.
Implicit Types (l srt : list Raw.pyfloat) (x y : Raw.pyfloat)
  (f g : Raw.pyfloat → bool).

Lemma raw_count_perm f l l' : Permutation l l' → Raw.count f l = Raw.count f l'.
Proof.
  unfold Raw.count.
  induction 1 as [|z l l' _ IH|a b l|l l' l'' _ IH1 _ IH2]; simpl.
  - reflexivity.
  - destruct (f z); simpl; congruence.
  - destruct (f a), (f b); reflexivity.
  - congruence.
Qed.

Lemma raw_count_app f l l' :
  Raw.count f (l ++ l') = (Raw.count f l + Raw.count f l')%nat.
Proof. unfold Raw.count. by rewrite List.filter_app, length_app. Qed.

Lemma raw_count_mono f g l :
  Forall (λ z, f z = true → g z = true) l →
  (Raw.count f l <= Raw.count g l)%nat.
Proof.
  unfold Raw.count. induction 1 as [|z l Hz _ IH]; simpl; [lia|].
  destruct (f z) eqn:E.
  - rewrite (Hz eq_refl). simpl. lia.
  - destruct (g z); simpl; lia.
Qed.

Lemma raw_count_none f l :
  Forall (λ z, f z = false) l → Raw.count f l = 0%nat.
Proof.
  unfold Raw.count. induction 1 as [|z l Hz _ IH]; simpl; [reflexivity|].
  by rewrite Hz.
Qed.

Lemma raw_count_all f l :
  Forall (λ z, f z = true) l → Raw.count f l = length l.
Proof.
  unfold Raw.count. induction 1 as [|z l Hz _ IH]; simpl; [reflexivity|].
  rewrite Hz. simpl. by rewrite IH.
Qed.

Lemma raw_count_le_length f l : (Raw.count f l <= length l)%nat.
Proof.
  unfold Raw.count. induction l as [|z l IH]; simpl; [lia|].
  destruct (f z); simpl; lia.
Qed.

Lemma raw_sorted_split l1 l2 x :
  StronglySorted Raw.le (l1 ++ x :: l2) →
  Forall (λ z, Raw.le z x) l1 ∧ Forall (λ z, Raw.le x z) l2.
Proof.
  induction l1 as [|y l1 IH]; simpl; intros Hs.
  - apply StronglySorted_inv in Hs as [_ Hall]. split; [constructor | exact Hall].
  - apply StronglySorted_inv in Hs as [Hs Hall].
    destruct (IH Hs) as [H1 H2]. split; [|exact H2].
    constructor; [|exact H1].
    rewrite Forall_app in Hall. destruct Hall as [_ Hall].
    by apply Forall_inv in Hall.
Qed.

Lemma raw_rank_counts srt k x :
  StronglySorted Raw.le srt → srt !! k = Some x →
  (Raw.count (Raw.below x) srt <= k)%nat
  ∧ (k < Raw.count (Raw.upto x) srt)%nat.
Proof.
  intros Hs Hk.
  pose proof (lookup_lt_Some _ _ _ Hk) as Hlt.
  rewrite <- (take_drop_middle _ _ _ Hk) in Hs |- *.
  destruct (raw_sorted_split _ _ _ Hs) as [H1 H2].
  assert (Hlen : length (take k srt) = k) by (rewrite length_take; lia).
  pose proof (raw_le_refl x) as Hxx.
  rewrite !raw_count_app. split.
  - change (x :: drop (S k) srt) with ([x] ++ drop (S k) srt).
    rewrite raw_count_app.
    rewrite (raw_count_none (Raw.below x) (drop (S k) srt)) by exact H2.
    rewrite (raw_count_none (Raw.below x) [x]) by (by repeat constructor).
    pose proof (raw_count_le_length (Raw.below x) (take k srt)). lia.
  - rewrite (raw_count_all (Raw.upto x) (take k srt)).
    + change (x :: drop (S k) srt) with ([x] ++ drop (S k) srt).
      rewrite raw_count_app.
      rewrite (raw_count_all (Raw.upto x) [x]); [simpl; lia|].
      repeat constructor. unfold Raw.upto. by rewrite Hxx.
    + eapply Forall_impl; [exact H1|]. simpl. intros z Hz.
      unfold Raw.upto. by rewrite Hz.
Qed.

Lemma raw_rank_le srt srt' k x y :
  Permutation srt srt' → Forall (λ z, z ≠ Raw.NaN) srt →
  StronglySorted Raw.le srt → StronglySorted Raw.le srt' →
  srt !! k = Some x → srt' !! k = Some y → Raw.le x y.
Proof.
  intros Hp Hfin Hs Hs' Hx Hy.
  unfold Raw.le. destruct (Raw.lt y x) eqn:Hlt; [exfalso|reflexivity].
  destruct (raw_rank_counts _ _ _ Hs Hx) as [Hbelow _].
  destruct (raw_rank_counts _ _ _ Hs' Hy) as [_ Hupto].
  rewrite <- (raw_count_perm _ _ _ Hp) in Hupto.
  assert (Hm : (Raw.count (Raw.upto y) srt <= Raw.count (Raw.below x) srt)%nat).
  { apply raw_count_mono. eapply Forall_impl; [exact Hfin|]. simpl.
    intros z Hz Hzy. unfold Raw.upto in Hzy. apply negb_true_iff in Hzy.
    unfold Raw.below. by apply raw_le_lt_trans with y. }
  lia.
Qed.

Lemma raw_rank_unique srt srt' k x y :
  Permutation srt srt' → Forall (λ z, z ≠ Raw.NaN) srt →
  StronglySorted Raw.le srt → StronglySorted Raw.le srt' →
  srt !! k = Some x → srt' !! k = Some y → Raw.same_value x y.
Proof.
  intros Hp Hfin Hs Hs' Hx Hy.
  assert (Hfin' : Forall (λ z, z ≠ Raw.NaN) srt') by (by rewrite <- Hp).
  apply raw_le_antisym.
  - rewrite Forall_lookup in Hfin. by apply (Hfin k).
  - rewrite Forall_lookup in Hfin'. by apply (Hfin' k).
  - by apply (raw_rank_le srt srt' k).
  - by apply (raw_rank_le srt' srt k).
Qed.

(** Two ascending arrangements of the same scores, none of them NaN, have
    the same middle. *)
Lemma raw_middle_unique srt srt' m :
  Permutation srt srt' → Forall (λ z, z ≠ Raw.NaN) srt →
  StronglySorted Raw.le srt → StronglySorted Raw.le srt' →
  Raw.middle srt = Some m →
  ∃ m', Raw.middle srt' = Some m' ∧ Raw.same_value m m'.
Proof.
  intros Hp Hfin Hs Hs' Hm. unfold Raw.middle in *. cbv zeta in *.
  rewrite <- (Permutation_length Hp).
  assert (Hlk : ∀ k x, srt !! k = Some x →
                       ∃ y, srt' !! k = Some y ∧ Raw.same_value x y).
  { intros k x Hx.
    destruct (lookup_lt_is_Some_2 srt' k) as [y Hy].
    - rewrite <- (Permutation_length Hp). by eapply lookup_lt_Some.
    - exists y. split; [exact Hy|]. by apply (raw_rank_unique srt srt' k). }
  destruct (Nat.odd (length srt)).
  - apply Hlk in Hm as (y & -> & Hxy). eauto.
  - destruct (srt !! (length srt / 2 - 1)%nat) as [a|] eqn:Ea; [|discriminate].
    destruct (srt !! (length srt / 2)%nat) as [b|] eqn:Eb; [|discriminate].
    simpl in Hm. injection Hm as <-.
    apply Hlk in Ea as (a' & -> & Ha). apply Hlk in Eb as (b' & -> & Hb).
    simpl. eexists. split; [reflexivity|]. by apply raw_average_same.
Qed.
End RawRank.

(** On data that is not empty and holds no NaN, [statistics.median] returns
    the standard median. *)
Lemma raw_median_standard data :
  data ≠ [] → Forall (λ x, x ≠ Raw.NaN) data →
  ∃ m, Raw.median data = Some m ∧ Raw.standard_median data m.
Proof.
  intros Hne Hfin. rewrite (raw_median_middle _ Hne).
  assert (Hs : Raw.sorted data ≠ []).
  { intros E. apply (f_equal length) in E. rewrite raw_sorted_length in E.
    by destruct data. }
  destruct (raw_middle_is_Some _ Hs) as [m Hm].
  exists m. split; [exact Hm|]. split.
  - exists (Raw.sorted data).
    auto using raw_sorted_perm, raw_sorted_sorted.
  - intros srt Hp Hsrt.
    apply (raw_middle_unique (Raw.sorted data));
      auto using raw_sorted_sorted.
    + by rewrite raw_sorted_perm, Hp.
    + by rewrite raw_sorted_perm.
Qed.

(** On finite scores the median of the floats is the median of the
    rationals. *)
Lemma raw_insert_sorted_finite (x : Q) (l : list Q) :
  Raw.insert_sorted (Raw.Num x) (map Raw.Num l)
  = map Raw.Num (insert_sorted x l).
Proof.
  induction l as [|y l IH]; simpl; [reflexivity|].
  destruct (Qle_bool x y); simpl; [reflexivity|]. by rewrite IH.
Qed.

Lemma raw_sorted_finite (scores : list Q) :
  Raw.sorted (map Raw.Num scores) = map Raw.Num (sorted scores).
Proof.
  unfold Raw.sorted, sorted.
  induction scores as [|x l IH]; simpl; [reflexivity|].
  by rewrite IH, raw_insert_sorted_finite.
Qed.

Lemma raw_median_finite (scores : list Q) :
  Raw.median (map Raw.Num scores) = Raw.Num <$> median scores.
Proof.
  unfold Raw.median, median. cbv zeta.
  rewrite raw_sorted_finite, length_map.
  destruct (length (sorted scores) =? 0)%nat; [reflexivity|].
  destruct (length (sorted scores) mod 2 =? 1)%nat.
  - by rewrite list_lookup_fmap.
  - rewrite !list_lookup_fmap.
    by destruct (sorted scores !! (length (sorted scores) / 2 - 1)%nat),
               (sorted scores !! (length (sorted scores) / 2)%nat).
Qed.

(** ** [get_user_median] on floats *)

Lemma raw_get_user_median_state sv uid :
  (Raw.get_user_median sv uid).2
  = Raw.mkService (Raw._loaded_model sv) (Raw.user_scores sv)
                  (with_median_request (Raw.stats sv)).
Proof.
  unfold Raw.get_user_median. cbv zeta.
  destruct (Raw.store_get _ _) as [[|s dq]|]; try reflexivity.
  by destruct (Raw.median _).
Qed.

(** C3, as it holds.  The response of [get_user_median] carries [null]
    exactly when the user is unknown or the user's deque is empty.
    Otherwise, when no score in the deque is NaN, it carries the standard
    median of the scores in the deque: the middle value of the sorted scores
    for an odd count, the average of the two middle values for an even
    count, and that value is the same whatever sorted arrangement is
    taken. *)
Theorem get_user_median_standard_without_nan sv uid :
  let r := (Raw.get_user_median sv uid).1 in
  let dq := Raw.store_get (Raw.JStr uid) (Raw.user_scores sv) in
  (r = Raw.OK (Raw.mkMedianBody None) ↔ dq = None ∨ dq = Some [])
  ∧ (∀ w, dq = Some w → w ≠ [] →
       Forall (λ s, snd s ≠ Raw.NaN) w →
       ∃ m, r = Raw.OK (Raw.mkMedianBody (Some m))
            ∧ Raw.standard_median (map snd w) m).
Proof.
  cbv zeta. unfold Raw.get_user_median. cbv zeta.
  destruct (Raw.store_get _ _) as [[|s dq]|] eqn:E.
  - simpl. split; [tauto|]. by intros w [= <-] ?.
  - destruct (raw_median_is_Some (map snd (s :: dq))) as [m Hm]; [done|].
    rewrite Hm. simpl. split.
    + split; [discriminate|]. by intros [?|?].
    + intros w [= <-] _ Hfin.
      destruct (raw_median_standard (map snd (s :: dq))) as (m' & Hm' & Hstd);
        [done | by apply Forall_map |].
      rewrite Hm in Hm'. injection Hm' as <-. eauto.
  - simpl. split; [tauto|]. discriminate.
Qed.

Lemma get_user_median_standard_without_nan_witness :
  ∃ m, (Raw.get_user_median
          (Raw.mkService None
             [(Raw.JStr "u1",
               [(1700000000, Raw.Num (3#1)); (1700000010, Raw.Inf false);
                (1700000020, Raw.Num (2#1))])]
             stats_init) "u1").1
       = Raw.OK (Raw.mkMedianBody (Some m))
       ∧ Raw.standard_median [Raw.Num (3#1); Raw.Inf false; Raw.Num (2#1)] m.
Proof.
  apply (proj2 (get_user_median_standard_without_nan
                  (Raw.mkService None
                     [(Raw.JStr "u1",
                       [(1700000000, Raw.Num (3#1));
                        (1700000010, Raw.Inf false);
                        (1700000020, Raw.Num (2#1))])]
                     stats_init) "u1")
               [(1700000000, Raw.Num (3#1)); (1700000010, Raw.Inf false);
                (1700000020, Raw.Num (2#1))]).
  - reflexivity.
  - discriminate.
  - repeat constructor; discriminate.
Defined.

(** C3 as stated, at a deque with a NaN score.  For the deque with scores
    NaN, 0.5, 1.0 the handler answers 0.5, which is not the standard median
    of these scores: 0.5, 1.0, NaN is an arrangement of them in which no
    score is below an earlier one, and its middle is 1.0.  The same scores
    in that order are answered with 1.0. *)
Lemma get_user_median_nan_not_standard :
  let w := [(1700000000, Raw.NaN); (1700000010, Raw.Num (1#2));
            (1700000020, Raw.Num (1#1))] in
  let w' := [(1700000010, Raw.Num (1#2)); (1700000020, Raw.Num (1#1));
             (1700000000, Raw.NaN)] in
  let answer dq :=
    (Raw.get_user_median
       (Raw.mkService None [(Raw.JStr "u1", dq)] stats_init) "u1").1 in
  answer w = Raw.OK (Raw.mkMedianBody (Some (Raw.Num (1#2))))
  ∧ ¬ Raw.standard_median (map snd w) (Raw.Num (1#2))
  ∧ Permutation (map snd w) (map snd w')
  ∧ answer w' = Raw.OK (Raw.mkMedianBody (Some (Raw.Num (1#1)))).
Proof.
  cbv zeta. split; [reflexivity|]. split; [|split; [|reflexivity]].
  - intros [_ Huniq].
    destruct (Huniq [Raw.Num (1#2); Raw.Num (1#1); Raw.NaN])
      as (m' & Hm' & Heq).
    + simpl. symmetry. apply (Permutation_cons_append [_; _]).
    + repeat constructor.
    + injection Hm' as <-. simpl in Heq. discriminate.
  - simpl. apply (Permutation_cons_append [_; _]).
Qed.

(** X11.  With no NaN among them, the scores in another order have the same
    median. *)
Theorem raw_median_order_independent (data data' : list Raw.pyfloat) :
  Permutation data data' → data ≠ [] →
  Forall (λ x, x ≠ Raw.NaN) data →
  ∃ m m', Raw.median data = Some m ∧ Raw.median data' = Some m'
          ∧ Raw.same_value m m'.
Proof.
  intros Hp Hne Hfin.
  assert (Hne' : data' ≠ []).
  { intros ->. by apply Permutation_nil_r in Hp. }
  assert (Hfin' : Forall (λ x, x ≠ Raw.NaN) data') by (by rewrite <- Hp).
  destruct (raw_median_standard data Hne Hfin) as (m & Hm & _ & Huniq).
  destruct (Huniq (Raw.sorted data')) as (m' & Hm' & Heq).
  - by rewrite raw_sorted_perm.
  - by apply raw_sorted_sorted.
  - exists m, m'. by rewrite (raw_median_middle _ Hne').
Qed.

Lemma raw_median_order_independent_witness :
  ∃ m m',
    Raw.median [Raw.Num (3#1); Raw.Inf true; Raw.Num (2#1)] = Some m
    ∧ Raw.median [Raw.Inf true; Raw.Num (2#1); Raw.Num (3#1)] = Some m'
    ∧ Raw.same_value m m'.
Proof.
  apply raw_median_order_independent.
  - apply perm_trans with [Raw.Inf true; Raw.Num (3#1); Raw.Num (2#1)];
      [apply perm_swap | apply perm_skip, perm_swap].
  - discriminate.
  - repeat constructor; discriminate.
Defined.

(** ** [ingest] on arbitrary bodies *)

Section RawIngest.
Variable int_of_str : string → option Z.
Variable model : option Raw.Model.
Implicit Types (acc : list (Raw.json * list Raw.sample) * Z) (e : Raw.json).

(** An object that is not counted is skipped: no change, no exception. *)
Lemma raw_ingest_event_skip acc e :
  Raw.is_object e = true → Raw.counted model e = false →
  Raw.ingest_event int_of_str model acc e = inr acc.
Proof.
  destruct e as [| | | | | |fields]; try discriminate. intros _.
  unfold Raw.counted, Raw.has_all_fields, Raw.scoring_succeeds,
    Raw.ingest_event. cbv zeta.
  destruct (Raw.is_None (Raw.dict_get "user_id" fields)); [reflexivity|].
  destruct (Raw.is_None (Raw.dict_get "timestamp" fields)); [reflexivity|].
  destruct (Raw.is_None (Raw.dict_get "features" fields)); [reflexivity|].
  simpl. by destruct (Raw._predict_sync model _).
Qed.

(** A counted item that can go into a deque is recorded and counted. *)
Lemma raw_ingest_event_count acc e :
  Raw.counted model e = true → Raw.recordable int_of_str e = true →
  ∃ us, Raw.ingest_event int_of_str model acc e = inr (us, acc.2 + 1).
Proof.
  destruct e as [| | | | | |fields]; try discriminate.
  unfold Raw.counted, Raw.has_all_fields, Raw.scoring_succeeds,
    Raw.recordable, Raw.ingest_event, Raw._update_user_scores. cbv zeta.
  destruct (Raw.is_None (Raw.dict_get "user_id" fields)); [discriminate|].
  destruct (Raw.is_None (Raw.dict_get "timestamp" fields)); [discriminate|].
  destruct (Raw.is_None (Raw.dict_get "features" fields)); [discriminate|].
  simpl. destruct (Raw._predict_sync model _); [discriminate|]. intros _.
  destruct (Raw.int int_of_str _); [discriminate|]. intros ->. eauto.
Qed.

(** An item that does not pass raises. *)
Lemma raw_ingest_event_raise acc e :
  Raw.passes int_of_str model e = false →
  ∃ exc, Raw.ingest_event int_of_str model acc e = inl exc
         ∧ exc ∈ [Raw.AttributeError; Raw.ValueError; Raw.TypeError;
               Raw.OverflowError].
Proof.
  unfold Raw.passes.
  destruct e as [| | | | | |fields];
    try (intros _; exists Raw.AttributeError; split;
         [reflexivity|set_solver]).
  unfold Raw.counted, Raw.has_all_fields, Raw.scoring_succeeds,
    Raw.recordable, Raw.ingest_event, Raw._update_user_scores. cbv zeta.
  destruct (Raw.is_None (Raw.dict_get "user_id" fields)); [discriminate|].
  destruct (Raw.is_None (Raw.dict_get "timestamp" fields)) eqn:Ets;
    [discriminate|].
  destruct (Raw.is_None (Raw.dict_get "features" fields)); [discriminate|].
  simpl. destruct (Raw._predict_sync model _); [discriminate|].
  simpl. destruct (Raw.int int_of_str _) as [exc|z] eqn:Ei.
  - intros _. exists exc. split; [reflexivity|].
    unfold Raw.int in Ei. repeat case_match; simplify_eq; set_solver.
  - intros ->. exists Raw.TypeError. split; [reflexivity|set_solver].
Qed.

Lemma raw_passes_cases e :
  Raw.passes int_of_str model e = true →
  (Raw.is_object e = true ∧ Raw.counted model e = false)
  ∨ (Raw.counted model e = true ∧ Raw.recordable int_of_str e = true).
Proof.
  unfold Raw.passes. intros [Ho H]%andb_true_iff.
  destruct (Raw.counted model e); simpl in H; auto.
Qed.

(** The loop over items that all pass. *)
Lemma raw_ingest_loop_passes items acc :
  forallb (Raw.passes int_of_str model) items = true →
  ∃ us, Raw.ingest_loop int_of_str model items acc
        = (None, (us, acc.2 + Z.of_nat (length (List.filter (Raw.counted model) items)))).
Proof.
  revert acc. induction items as [|e items IH]; intros acc; simpl.
  - intros _. destruct acc as [us n]. exists us. simpl. by rewrite Z.add_0_r.
  - intros [He Hrest]%andb_true_iff.
    destruct (raw_passes_cases e He) as [[Ho Hc]|[Hc Hr]].
    + rewrite (raw_ingest_event_skip _ _ Ho Hc), Hc. by apply IH.
    + destruct (raw_ingest_event_count acc e Hc Hr) as [us ->].
      rewrite Hc. destruct (IH (us, acc.2 + 1) Hrest) as [us' ->].
      exists us'. simpl length. simpl. rewrite Nat2Z.inj_succ.
      do 2 f_equal. lia.
Qed.

(** The loop over items one of which does not pass. *)
Lemma raw_ingest_loop_raises items acc :
  forallb (Raw.passes int_of_str model) items = false →
  ∃ exc acc', Raw.ingest_loop int_of_str model items acc = (Some exc, acc')
              ∧ exc ∈ [Raw.AttributeError; Raw.ValueError; Raw.TypeError;
               Raw.OverflowError].
Proof.
  revert acc. induction items as [|e items IH]; intros acc; simpl;
    [discriminate|].
  destruct (Raw.passes int_of_str model e) eqn:He; simpl.
  - intros Hrest.
    destruct (raw_passes_cases e He) as [[Ho Hc]|[Hc Hr]].
    + rewrite (raw_ingest_event_skip _ _ Ho Hc). by apply IH.
    + destruct (raw_ingest_event_count acc e Hc Hr) as [us ->]. by apply IH.
  - intros _. destruct (raw_ingest_event_raise acc e He) as (exc & -> & Hin).
    eauto.
Qed.
End RawIngest.

(** A body whose ["events"] is a list of items that all pass. *)
Lemma raw_ingest_ok int_of_str sv payload items t0 t1 :
  Raw.dict_get "events" payload = Raw.JList items →
  forallb (Raw.passes int_of_str (Raw._loaded_model sv)) items = true →
  let n := Z.of_nat (length (List.filter (Raw.counted (Raw._loaded_model sv)) items)) in
  ∃ us, Raw.ingest int_of_str sv payload t0 t1
        = (Raw.OK (mkIngestBody n),
           Raw.mkService (Raw._loaded_model sv) us
             (mkStats (ingest_requests (Raw.stats sv) + 1)
                      (events_processed (Raw.stats sv) + n)
                      (median_requests (Raw.stats sv))
                      (ingest_latencies (Raw.stats sv) ++ [(t1 - t0)%Q]))).
Proof.
  intros Hev Hall. cbv zeta. unfold Raw.ingest. cbv zeta. rewrite Hev. simpl.
  destruct (raw_ingest_loop_passes int_of_str (Raw._loaded_model sv) items
              (Raw.user_scores sv, 0) Hall) as [us ->].
  exists us. reflexivity.
Qed.

(** A body whose ["events"] is a list with an item that does not pass. *)
Lemma raw_ingest_raises int_of_str sv payload items t0 t1 :
  Raw.dict_get "events" payload = Raw.JList items →
  forallb (Raw.passes int_of_str (Raw._loaded_model sv)) items = false →
  ∃ exc us, Raw.ingest int_of_str sv payload t0 t1
            = (Raw.Raise exc,
               Raw.mkService (Raw._loaded_model sv) us
                 (Raw.with_ingest_request (Raw.stats sv)))
            ∧ exc ∈ [Raw.AttributeError; Raw.ValueError; Raw.TypeError;
               Raw.OverflowError].
Proof.
  intros Hev Hall. unfold Raw.ingest. cbv zeta. rewrite Hev. simpl.
  destruct (raw_ingest_loop_raises int_of_str (Raw._loaded_model sv) items
              (Raw.user_scores sv, 0) Hall) as (exc & [us n] & -> & Hin).
  exists exc, us. split; [reflexivity|exact Hin].
Qed.


(** C4, as it holds.  Let the value of ["events"] be a list.  When every
    item is an object, and every item that has its three fields and is
    scored has a timestamp that [int] takes and a user id with a hash,
    [ingest] answers [{"processed": n}] with [n] the number of items that
    have all three fields and whose scoring call returned a score, and adds
    [n] to [events_processed].  Whenever [ingest] answers with a count, the
    count is that number.  An object that lacks a field, or whose scoring
    call raised, is passed over: the turn of the loop changes neither store
    nor count and raises nothing. *)
Theorem ingest_processed_count_when_recordable
    int_of_str sv payload items t0 t1 :
  Raw.dict_get "events" payload = Raw.JList items →
  let model := Raw._loaded_model sv in
  let n := Z.of_nat (length (List.filter (Raw.counted model) items)) in
  let out := Raw.ingest int_of_str sv payload t0 t1 in
  (Forall (λ e, Raw.is_object e = true) items →
   Forall (λ e, Raw.counted model e = true →
                Raw.recordable int_of_str e = true) items →
   out.1 = Raw.OK (mkIngestBody n)
   ∧ events_processed (Raw.stats out.2)
     = events_processed (Raw.stats sv) + n)
  ∧ (∀ body, out.1 = Raw.OK body → body = mkIngestBody n)
  ∧ (∀ acc e, Raw.is_object e = true → Raw.counted model e = false →
              Raw.ingest_event int_of_str model acc e = inr acc).
Proof.
  intros Hev. cbv zeta. split; [|split].
  - intros Hobj Hrec.
    destruct (raw_ingest_ok int_of_str sv payload items t0 t1 Hev) as [us ->].
    + apply forallb_forall. intros e He.
      rewrite List.Forall_forall in Hobj, Hrec.
      unfold Raw.passes. rewrite (Hobj e He). simpl.
      destruct (Raw.counted (Raw._loaded_model sv) e) eqn:Hc; [|reflexivity].
      simpl. by apply Hrec.
    + split; reflexivity.
  - intros body Hbody.
    destruct (forallb (Raw.passes int_of_str (Raw._loaded_model sv)) items)
      eqn:Hall.
    + destruct (raw_ingest_ok int_of_str sv payload items t0 t1 Hev Hall)
        as [us Heq].
      rewrite Heq in Hbody. simpl in Hbody. by injection Hbody as <-.
    + destruct (raw_ingest_raises int_of_str sv payload items t0 t1 Hev Hall)
        as (exc & us & Heq & _).
      rewrite Heq in Hbody. discriminate.
  - intros acc e. apply raw_ingest_event_skip.
Qed.

Lemma ingest_processed_count_when_recordable_witness :
  let items :=
    [ Raw.JObj [("user_id", Raw.JStr "u1"); ("timestamp", Raw.JInt 1700000000);
                ("features", Raw.JList [Raw.JFloat (Raw.Num (1#10));
                                        Raw.JFloat (Raw.Num (2#10));
                                        Raw.JFloat (Raw.Num (3#10))])];
      Raw.JObj [("user_id", Raw.JStr "u1"); ("timestamp", Raw.JStr "abc")];
      Raw.JObj [("user_id", Raw.JStr "u2"); ("timestamp", Raw.JStr "1700000002");
                ("features", Raw.JList [Raw.JFloat (Raw.Num (1#1));
                                        Raw.JFloat (Raw.Num (2#1));
                                        Raw.JFloat (Raw.Num (3#1))])] ] in
  (Raw.ingest Raw.int_of_decimal (Raw.fresh (Some raw_sum3))
     [("events", Raw.JList items)] (10#1) (11#1)).1
  = Raw.OK (mkIngestBody 2).
Proof.
  cbv zeta.
  destruct (ingest_processed_count_when_recordable
              Raw.int_of_decimal (Raw.fresh (Some raw_sum3))
              [("events", Raw.JList
                 [ Raw.JObj [("user_id", Raw.JStr "u1");
                             ("timestamp", Raw.JInt 1700000000);
                             ("features", Raw.JList [Raw.JFloat (Raw.Num (1#10));
                                                     Raw.JFloat (Raw.Num (2#10));
                                                     Raw.JFloat (Raw.Num (3#10))])];
                   Raw.JObj [("user_id", Raw.JStr "u1");
                             ("timestamp", Raw.JStr "abc")];
                   Raw.JObj [("user_id", Raw.JStr "u2");
                             ("timestamp", Raw.JStr "1700000002");
                             ("features", Raw.JList [Raw.JFloat (Raw.Num (1#1));
                                                     Raw.JFloat (Raw.Num (2#1));
                                                     Raw.JFloat (Raw.Num (3#1))])] ])]
              _ (10#1) (11#1) eq_refl) as [H _].
  destruct H as [H _]; [| |exact H].
  - repeat constructor.
  - repeat first [apply List.Forall_nil | apply List.Forall_cons];
      first [intros _; reflexivity | intros H; vm_compute in H; discriminate H].
Defined.

(** C4 as stated, at a batch of one item with its three fields, features
    that are scored, and the timestamp ["abc"].  [int("abc")] raises
    [ValueError] outside the [try]: the batch is not answered with a count,
    the client gets status 500, and [ingest_requests] has already been
    incremented while no latency is recorded. *)
Lemma ingest_raises_on_timestamp :
  let item :=
    Raw.JObj [("user_id", Raw.JStr "u1"); ("timestamp", Raw.JStr "abc");
              ("features", Raw.JList [Raw.JFloat (Raw.Num (1#10));
                                      Raw.JFloat (Raw.Num (2#10));
                                      Raw.JFloat (Raw.Num (3#10))])] in
  let sv := Raw.fresh (Some raw_sum3) in
  let out := Raw.ingest Raw.int_of_decimal sv [("events", Raw.JList [item])]
                        (10#1) (11#1) in
  Raw.has_all_fields item = true
  ∧ Raw.scoring_succeeds (Raw._loaded_model sv) item = true
  ∧ out.1 = Raw.Raise Raw.ValueError
  ∧ Raw.status_code out.1 = 500
  ∧ (∀ body, out.1 ≠ Raw.OK body)
  ∧ Raw.stats out.2 = mkStats 1 0 0 [].
Proof. cbv zeta. repeat split; try reflexivity. intros body. discriminate. Qed.

(** ** What [ingest] answers and what it leaves *)

Lemma raw_ingest_missing int_of_str sv payload t0 t1 :
  Raw.dict_get "events" payload = Raw.JNull →
  Raw.ingest int_of_str sv payload t0 t1
  = (Raw.Raise (Raw.HTTPException 400 missing_events), sv).
Proof. intros H. unfold Raw.ingest. cbv zeta. by rewrite H. Qed.

Lemma raw_ingest_not_iterable int_of_str sv payload t0 t1 exc :
  Raw.is_None (Raw.dict_get "events" payload) = false →
  Raw.iterate (Raw.dict_get "events" payload) = inl exc →
  exc = Raw.TypeError
  ∧ Raw.ingest int_of_str sv payload t0 t1
    = (Raw.Raise Raw.TypeError,
       Raw.mkService (Raw._loaded_model sv) (Raw.user_scores sv)
                     (Raw.with_ingest_request (Raw.stats sv))).
Proof.
  intros Hn Hi. unfold Raw.ingest. cbv zeta. rewrite Hn, Hi.
  assert (exc = Raw.TypeError) as ->; [|done].
  destruct (Raw.dict_get "events" payload); simpl in Hi; congruence.
Qed.

Lemma raw_ingest_iter_ok int_of_str sv payload items t0 t1 :
  Raw.is_None (Raw.dict_get "events" payload) = false →
  Raw.iterate (Raw.dict_get "events" payload) = inr items →
  forallb (Raw.passes int_of_str (Raw._loaded_model sv)) items = true →
  let n := Z.of_nat (length (List.filter (Raw.counted (Raw._loaded_model sv)) items)) in
  ∃ us, Raw.ingest int_of_str sv payload t0 t1
        = (Raw.OK (mkIngestBody n),
           Raw.mkService (Raw._loaded_model sv) us
             (mkStats (ingest_requests (Raw.stats sv) + 1)
                      (events_processed (Raw.stats sv) + n)
                      (median_requests (Raw.stats sv))
                      (ingest_latencies (Raw.stats sv) ++ [(t1 - t0)%Q]))).
Proof.
  intros Hn Hi Hall. cbv zeta. unfold Raw.ingest. cbv zeta. rewrite Hn, Hi.
  destruct (raw_ingest_loop_passes int_of_str (Raw._loaded_model sv) items
              (Raw.user_scores sv, 0) Hall) as [us ->].
  exists us. reflexivity.
Qed.

Lemma raw_ingest_iter_raises int_of_str sv payload items t0 t1 :
  Raw.is_None (Raw.dict_get "events" payload) = false →
  Raw.iterate (Raw.dict_get "events" payload) = inr items →
  forallb (Raw.passes int_of_str (Raw._loaded_model sv)) items = false →
  ∃ exc us, Raw.ingest int_of_str sv payload t0 t1
            = (Raw.Raise exc,
               Raw.mkService (Raw._loaded_model sv) us
                 (Raw.with_ingest_request (Raw.stats sv)))
            ∧ exc ∈ [Raw.AttributeError; Raw.ValueError; Raw.TypeError;
               Raw.OverflowError].
Proof.
  intros Hn Hi Hall. unfold Raw.ingest. cbv zeta. rewrite Hn, Hi.
  destruct (raw_ingest_loop_raises int_of_str (Raw._loaded_model sv) items
              (Raw.user_scores sv, 0) Hall) as (exc & [us n] & -> & Hin).
  exists exc, us. split; [reflexivity|exact Hin].
Qed.

Lemma raw_is_None_JNull v : Raw.is_None v = true → v = Raw.JNull.
Proof. by destruct v. Qed.

(** What serving one request does to [stats] and to the model. *)
Lemma raw_serve_stats int_of_str sv rq :
  let m := Raw._loaded_model sv in
  let sv' := Raw.serve int_of_str sv rq in
  Raw._loaded_model sv' = m
  ∧ ingest_requests (Raw.stats sv')
    = ingest_requests (Raw.stats sv) + Raw.request_ingests rq
  ∧ events_processed (Raw.stats sv')
    = events_processed (Raw.stats sv) + Raw.request_processed int_of_str m rq
  ∧ median_requests (Raw.stats sv')
    = median_requests (Raw.stats sv) + Raw.request_medians rq
  ∧ ingest_latencies (Raw.stats sv')
    = ingest_latencies (Raw.stats sv) ++ Raw.request_latency int_of_str m rq.
Proof.
  cbv zeta. destruct rq as [payload t0 t1|uid|]; simpl.
  - unfold Raw.request_processed, Raw.request_latency, Raw.answered_count.
    cbv zeta.
    destruct (Raw.is_None (Raw.dict_get "events" payload)) eqn:Hn.
    { apply raw_is_None_JNull in Hn.
      rewrite (raw_ingest_missing _ _ _ _ _ Hn). simpl.
      rewrite app_nil_r. repeat split; lia. }
    destruct (Raw.iterate (Raw.dict_get "events" payload)) as [exc|items] eqn:Hi.
    { destruct (raw_ingest_not_iterable int_of_str sv payload t0 t1 exc Hn Hi)
        as [_ ->].
      simpl. rewrite app_nil_r. repeat split; lia. }
    destruct (forallb (Raw.passes int_of_str (Raw._loaded_model sv)) items)
      eqn:Hall.
    + destruct (raw_ingest_iter_ok int_of_str sv payload items t0 t1 Hn Hi Hall)
        as [us ->].
      simpl. repeat split; lia.
    + destruct (raw_ingest_iter_raises int_of_str sv payload items t0 t1 Hn Hi Hall)
        as (exc & us & -> & _).
      simpl. rewrite app_nil_r. repeat split; lia.
  - rewrite raw_get_user_median_state.
    unfold Raw.request_processed, Raw.request_latency. simpl.
    rewrite app_nil_r. repeat split; lia.
  - unfold Raw.request_processed, Raw.request_latency. simpl.
    rewrite app_nil_r. repeat split; lia.
Qed.

Lemma raw_serve_all_stats_eq int_of_str sv rqs :
  let m := Raw._loaded_model sv in
  let sv' := Raw.serve_all int_of_str sv rqs in
  Raw._loaded_model sv' = m
  ∧ ingest_requests (Raw.stats sv')
    = ingest_requests (Raw.stats sv) + sumZ (map Raw.request_ingests rqs)
  ∧ events_processed (Raw.stats sv')
    = events_processed (Raw.stats sv)
      + sumZ (map (Raw.request_processed int_of_str m) rqs)
  ∧ median_requests (Raw.stats sv')
    = median_requests (Raw.stats sv) + sumZ (map Raw.request_medians rqs)
  ∧ ingest_latencies (Raw.stats sv')
    = ingest_latencies (Raw.stats sv)
      ++ flat_map (Raw.request_latency int_of_str m) rqs.
Proof.
  cbv zeta. unfold Raw.serve_all. revert sv.
  induction rqs as [|rq rqs IH]; intros sv; simpl.
  - rewrite app_nil_r. repeat split; lia.
  - destruct (IH (Raw.serve int_of_str sv rq)) as (H0 & H1 & H2 & H3 & H4).
    destruct (raw_serve_stats int_of_str sv rq) as (S0 & S1 & S2 & S3 & S4).
    rewrite S0 in H0, H2, H4.
    rewrite H0, H1, H2, H3, H4, S1, S2, S3, S4, <- app_assoc.
    repeat split; lia.
Qed.

(** X9.  After any sequence of requests served one after the other:
    [ingest_requests] has grown by the number of ingest requests whose body
    had ["events"], be they answered or not; [events_processed] by the sum of
    the counts of those that were answered with a count; [median_requests] by
    the number of median requests; and [ingest_latencies] has gained one
    sample per ingest request answered with a count, in the order served.  No
    counter goes down, and the latency list grows by no more than
    [ingest_requests] does. *)
Theorem raw_serve_all_stats int_of_str sv rqs :
  let sv' := Raw.serve_all int_of_str sv rqs in
  let m := Raw._loaded_model sv in
  ingest_requests (Raw.stats sv')
  = ingest_requests (Raw.stats sv) + sumZ (map Raw.request_ingests rqs)
  ∧ events_processed (Raw.stats sv')
    = events_processed (Raw.stats sv)
      + sumZ (map (Raw.request_processed int_of_str m) rqs)
  ∧ median_requests (Raw.stats sv')
    = median_requests (Raw.stats sv) + sumZ (map Raw.request_medians rqs)
  ∧ ingest_latencies (Raw.stats sv')
    = ingest_latencies (Raw.stats sv)
      ++ flat_map (Raw.request_latency int_of_str m) rqs
  ∧ ingest_requests (Raw.stats sv) <= ingest_requests (Raw.stats sv')
  ∧ events_processed (Raw.stats sv) <= events_processed (Raw.stats sv')
  ∧ median_requests (Raw.stats sv) <= median_requests (Raw.stats sv')
  ∧ Z.of_nat (length (ingest_latencies (Raw.stats sv')))
    - Z.of_nat (length (ingest_latencies (Raw.stats sv)))
    <= ingest_requests (Raw.stats sv') - ingest_requests (Raw.stats sv).
Proof.
  cbv zeta.
  destruct (raw_serve_all_stats_eq int_of_str sv rqs) as (_ & H1 & H2 & H3 & H4).
  set (m := Raw._loaded_model sv) in *.
  assert (N1 : ∀ rq, 0 <= Raw.request_ingests rq).
  { intros [payload ? ?| |]; simpl; try lia.
    destruct (Raw.is_None _); lia. }
  assert (N2 : ∀ rq, 0 <= Raw.request_processed int_of_str m rq).
  { intros rq. unfold Raw.request_processed, Raw.answered_count.
    destruct rq as [payload ? ?| |]; simpl; try lia.
    repeat case_match; simpl; lia. }
  assert (N3 : ∀ rq, 0 <= Raw.request_medians rq).
  { intros [| |]; simpl; lia. }
  assert (N4 : ∀ rq, Z.of_nat (length (Raw.request_latency int_of_str m rq))
                     <= Raw.request_ingests rq).
  { intros rq. unfold Raw.request_latency, Raw.answered_count.
    destruct rq as [payload ? ?| |]; simpl; try lia.
    destruct (Raw.is_None _); simpl; [lia|].
    destruct (Raw.iterate _); simpl; [lia|].
    destruct (forallb _ _); simpl; lia. }
  pose proof (sumZ_nonneg Raw.request_ingests rqs N1).
  pose proof (sumZ_nonneg (Raw.request_processed int_of_str m) rqs N2).
  pose proof (sumZ_nonneg Raw.request_medians rqs N3).
  repeat split; try assumption; try lia.
  rewrite H4, H1, length_app.
  assert (Z.of_nat (length (flat_map (Raw.request_latency int_of_str m) rqs))
          <= sumZ (map Raw.request_ingests rqs)); [|lia].
  clear -N4. induction rqs as [|rq rqs IH]; simpl; [lia|].
  rewrite length_app. specialize (N4 rq). lia.
Qed.

Example raw_serve_all_stats_ex :
  Raw.stats
    (Raw.serve_all Raw.int_of_decimal (Raw.fresh (Some raw_sum3))
       [ Raw.ReqMedian "u1";
         Raw.ReqIngest [] 0%Q 1%Q;
         Raw.ReqIngest
           [("events",
             Raw.JList
               [Raw.JObj [("user_id", Raw.JStr "u1"); ("timestamp", Raw.JInt 5);
                          ("features", Raw.JList [Raw.JFloat (Raw.Num 1);
                                                  Raw.JFloat (Raw.Num 2);
                                                  Raw.JFloat (Raw.Num 3)])];
                Raw.JObj [("user_id", Raw.JStr "u1"); ("timestamp", Raw.JInt 6)]])]
           (2#1) (5#1);
         Raw.ReqIngest
           [("events",
             Raw.JList
               [Raw.JObj [("user_id", Raw.JStr "u1"); ("timestamp", Raw.JStr "abc");
                          ("features", Raw.JList [Raw.JFloat (Raw.Num 1);
                                                  Raw.JFloat (Raw.Num 2);
                                                  Raw.JFloat (Raw.Num 3)])]])]
           (6#1) (7#1);
         Raw.ReqStats; Raw.ReqMedian "u1" ])
  = mkStats 2 1 2 [((5#1) - (2#1))%Q].
Proof. reflexivity. Qed.


(** X8.  A count that [ingest] answers for a list of items lies between 0
    and the number of items, and it is the number of items exactly when every
    item has its three fields and is scored. *)
Theorem raw_ingest_count_bounds int_of_str sv payload items t0 t1 n :
  Raw.dict_get "events" payload = Raw.JList items →
  (Raw.ingest int_of_str sv payload t0 t1).1 = Raw.OK (mkIngestBody n) →
  0 <= n <= Z.of_nat (length items)
  ∧ (n = Z.of_nat (length items)
     ↔ Forall (λ e, Raw.counted (Raw._loaded_model sv) e = true) items).
Proof.
  intros Hev Hok.
  assert (Hn : n = Z.of_nat (length (List.filter
                 (Raw.counted (Raw._loaded_model sv)) items))).
  { destruct (forallb (Raw.passes int_of_str (Raw._loaded_model sv)) items)
      eqn:Hall.
    - destruct (raw_ingest_ok int_of_str sv payload items t0 t1 Hev Hall)
        as [us Heq].
      rewrite Heq in Hok. simpl in Hok. by injection Hok.
    - destruct (raw_ingest_raises int_of_str sv payload items t0 t1 Hev Hall)
        as (exc & us & Heq & _).
      rewrite Heq in Hok. discriminate. }
  subst n. clear Hev Hok.
  generalize (Raw.counted (Raw._loaded_model sv)). intros f.
  assert (Hle : ∀ l : list Raw.json, (length (List.filter f l) <= length l)%nat).
  { induction l as [|e l IH]; simpl; [lia|]. destruct (f e); simpl; lia. }
  pose proof (Hle items). split; [lia|]. split.
  - intros H'. assert (Hlen : length (List.filter f items) = length items) by lia.
    clear H' H. induction items as [|e items IH]; [constructor|].
    simpl in Hlen. pose proof (Hle items).
    destruct (f e) eqn:E; simpl in Hlen; [|lia].
    constructor; [exact E | apply IH; lia].
  - intros Hall. clear H. induction Hall as [|e items He _ IH]; simpl; [reflexivity|].
    rewrite He. simpl length. lia.
Qed.

Lemma raw_ingest_count_bounds_witness :
  0 <= 1 <= Z.of_nat 2.
Proof.
  apply (proj1 (raw_ingest_count_bounds Raw.int_of_decimal
                  (Raw.fresh (Some raw_sum3))
                  [("events", Raw.JList raw_batch_example)]
                  raw_batch_example (2#1) (5#1) 1 eq_refl eq_refl)).
Defined.

(** [get_user_median] never raises. *)
Lemma raw_get_user_median_total sv uid :
  ∃ body, (Raw.get_user_median sv uid).1 = Raw.OK body.
Proof.
  unfold Raw.get_user_median. cbv zeta.
  destruct (Raw.store_get _ _) as [[|s dq]|]; [simpl; eauto| |simpl; eauto].
  destruct (raw_median_is_Some (map snd (s :: dq))) as [m Hm]; [done|].
  rewrite Hm. simpl. eauto.
Qed.

(** X22.  The ways [ingest] can end, on any body.  A normal answer: one more
    request, the count added to [events_processed], one more latency.
    [HTTPException]: only with status 400, for a body without ["events"], and
    the state is untouched.  Any other exception is [AttributeError],
    [ValueError], [TypeError] or [OverflowError]: ["events"] was there,
    [ingest_requests] is one up, and [events_processed] and the latency list
    are as before.
    [get_user_median] always answers normally. *)
Theorem raw_ingest_outcomes int_of_str sv payload t0 t1 :
  let out := Raw.ingest int_of_str sv payload t0 t1 in
  match out.1 with
  | Raw.OK body =>
      Raw.stats out.2
      = mkStats (ingest_requests (Raw.stats sv) + 1)
                (events_processed (Raw.stats sv) + processed body)
                (median_requests (Raw.stats sv))
                (ingest_latencies (Raw.stats sv) ++ [(t1 - t0)%Q])
  | Raw.Raise (Raw.HTTPException status detail) =>
      status = 400 ∧ detail = missing_events
      ∧ Raw.dict_get "events" payload = Raw.JNull ∧ out.2 = sv
  | Raw.Raise exc =>
      exc ∈ [Raw.AttributeError; Raw.ValueError; Raw.TypeError;
               Raw.OverflowError]
      ∧ Raw.dict_get "events" payload ≠ Raw.JNull
      ∧ Raw.stats out.2 = Raw.with_ingest_request (Raw.stats sv)
  end
  ∧ ∀ uid, ∃ body, (Raw.get_user_median sv uid).1 = Raw.OK body.
Proof.
  cbv zeta. split.
  - destruct (Raw.is_None (Raw.dict_get "events" payload)) eqn:Hn.
    { pose proof (raw_is_None_JNull _ Hn) as Hnull.
      rewrite (raw_ingest_missing _ _ _ _ _ Hnull). simpl. tauto. }
    assert (Hne : Raw.dict_get "events" payload ≠ Raw.JNull)
      by (intros E; rewrite E in Hn; discriminate).
    destruct (Raw.iterate (Raw.dict_get "events" payload)) as [exc|items] eqn:Hi.
    { destruct (raw_ingest_not_iterable int_of_str sv payload t0 t1 exc Hn Hi)
        as [_ ->].
      simpl. split; [set_solver|]. done. }
    destruct (forallb (Raw.passes int_of_str (Raw._loaded_model sv)) items)
      eqn:Hall.
    + destruct (raw_ingest_iter_ok int_of_str sv payload items t0 t1 Hn Hi Hall)
        as [us ->]. reflexivity.
    + destruct (raw_ingest_iter_raises int_of_str sv payload items t0 t1 Hn Hi Hall)
        as (exc & us & -> & Hin).
      simpl.
      pose proof Hin as H. rewrite !elem_of_cons, elem_of_nil in H.
      destruct H as [-> | [-> | [-> | [-> | []]]]]; done.
  - intros uid. apply raw_get_user_median_total.
Qed.

(** ** Running without model, on arbitrary bodies *)

Lemma raw_counted_no_model e : Raw.counted None e = false.
Proof.
  unfold Raw.counted, Raw.scoring_succeeds. simpl.
  destruct e; simpl; try reflexivity. apply andb_false_r.
Qed.

Lemma raw_ingest_loop_skips int_of_str model items acc :
  Forall (λ e, Raw.is_object e = true) items →
  Forall (λ e, Raw.counted model e = false) items →
  Raw.ingest_loop int_of_str model items acc = (None, acc).
Proof.
  intros Hobj. revert acc.
  induction Hobj as [|e items He _ IH]; intros acc Hc; simpl; [reflexivity|].
  apply Forall_cons in Hc as [Hce Hc].
  rewrite (raw_ingest_event_skip _ _ _ _ He Hce). by apply IH.
Qed.

(** X24.  A service that came up without model stays without model,
    whatever requests it serves.  In each state it reaches: the scoring call
    raises the "model not loaded" [RuntimeError] on anything; a list of
    objects is answered [{"processed": 0}] by [ingest], whatever their
    timestamps and user ids, with the window store untouched;
    [get_user_median] and [get_stats] answer normally. *)
Theorem raw_no_model_still_available int_of_str rqs :
  let sv := Raw.serve_all int_of_str (Raw.fresh None) rqs in
  Raw._loaded_model sv = None
  ∧ (∀ features, Raw._predict_sync (Raw._loaded_model sv) features
                 = inl (Raw.RuntimeError model_not_loaded))
  ∧ (∀ payload items t0 t1,
       Raw.dict_get "events" payload = Raw.JList items →
       Forall (λ e, Raw.is_object e = true) items →
       ∃ sv', Raw.ingest int_of_str sv payload t0 t1
              = (Raw.OK (mkIngestBody 0), sv')
              ∧ Raw.user_scores sv' = Raw.user_scores sv
              ∧ events_processed (Raw.stats sv')
                = events_processed (Raw.stats sv))
  ∧ (∀ uid, ∃ body, (Raw.get_user_median sv uid).1 = Raw.OK body)
  ∧ (∃ body, Raw.get_stats sv = (Raw.OK body, sv)).
Proof.
  cbv zeta.
  destruct (raw_serve_all_stats_eq int_of_str (Raw.fresh None) rqs) as [Hm _].
  simpl in Hm.
  set (sv := Raw.serve_all int_of_str (Raw.fresh None) rqs) in *.
  split; [exact Hm|]. split; [by rewrite Hm|]. split; [|split].
  - intros payload items t0 t1 Hev Hobj.
    unfold Raw.ingest. cbv zeta. rewrite Hev. simpl.
    rewrite raw_ingest_loop_skips; [|exact Hobj|].
    + eexists. split; [reflexivity|]. simpl. split; [reflexivity|lia].
    + rewrite Hm. apply Forall_forall. intros e _. apply raw_counted_no_model.
  - intros uid. apply raw_get_user_median_total.
  - eexists. reflexivity.
Qed.

(** ** Bodies of the documented types *)

Lemma raw_same_key_str k uid :
  Raw.same_key k (Raw.JStr uid) = true ↔ k = Raw.JStr uid.
Proof.
  destruct k as [| | | |s| |]; simpl; try (split; [discriminate|done]).
  rewrite String.eqb_eq. split; [by intros -> | by intros [= ->]].
Qed.

Lemma raw_store_get_set uid uid' dq store :
  Raw.store_get (Raw.JStr uid') (Raw.store_set (Raw.JStr uid) dq store)
  = if decide (uid = uid') then Some dq
    else Raw.store_get (Raw.JStr uid') store.
Proof.
  induction store as [|[k d] rest IH]; simpl.
  - destruct (decide (uid = uid')) as [->|Hne].
    + by rewrite String.eqb_refl.
    + by apply String.eqb_neq in Hne as ->.
  - destruct (Raw.same_key k (Raw.JStr uid)) eqn:Ek; simpl.
    + apply raw_same_key_str in Ek as ->. simpl.
      destruct (decide (uid = uid')) as [->|Hne].
      * by rewrite String.eqb_refl.
      * by apply String.eqb_neq in Hne as ->.
    + rewrite IH. destruct (decide (uid = uid')) as [->|Hne].
      * by rewrite Ek.
      * reflexivity.
Qed.

Lemma raw_prune_of_sample cutoff (dq : list sample) :
  Raw.prune cutoff (map of_sample dq) = map of_sample (prune cutoff dq).
Proof.
  induction dq as [|s dq IH]; simpl; [reflexivity|].
  destruct (s.1 <? cutoff); [exact IH | reflexivity].
Qed.

Lemma to_floats_of_features (fs : list Q) :
  to_floats (of_features fs) = Some fs.
Proof. simpl. by apply mapM_fmap_Some. Qed.


Lemma raw_ingest_event_typed int_of_str model us rus n (e : Event) :
  same_windows us rus →
  ∃ rus',
    Raw.ingest_event int_of_str (of_model <$> model) (rus, n) (of_event e)
    = inr (rus', (ingest_event model (us, n) e).2)
    ∧ same_windows (ingest_event model (us, n) e).1 rus'.
Proof.
  intros Hw. destruct e as [[uid|] [ts|] [fs|]];
    try (exists rus; split; [reflexivity | exact Hw]).
  unfold ingest_event, Raw.ingest_event, of_event.
  cbn [from_option user_id timestamp features]. cbv zeta.
  change (Raw.dict_get "user_id" _) with (Raw.JStr uid).
  change (Raw.dict_get "timestamp" _) with (Raw.JInt ts).
  change (Raw.dict_get "features" _) with (of_features fs).
  simpl Raw.is_None. simpl orb. cbv iota.
  simpl user_id. simpl timestamp. simpl features. cbv iota.
  destruct model as [forward|]; simpl _predict_sync; simpl Raw._predict_sync.
  - unfold of_model at 1. rewrite to_floats_of_features. simpl.
    destruct (forward fs) as [score|]; simpl.
    + eexists. split; [reflexivity|].
      intros uid'. rewrite raw_store_get_set.
      unfold _update_user_scores, record_sample. cbv zeta.
      destruct (decide (uid = uid')) as [->|Hne].
      * rewrite lookup_insert_eq. simpl. f_equal.
        rewrite (Hw uid'). rewrite <- raw_prune_of_sample.
        f_equal. rewrite map_app. simpl. f_equal.
        by destruct (us !! uid').
      * rewrite lookup_insert_ne by done. apply Hw.
    + exists rus. split; [reflexivity | exact Hw].
  - exists rus. split; [reflexivity | exact Hw].
Qed.

Lemma raw_ingest_loop_typed int_of_str model evs us rus n :
  same_windows us rus →
  ∃ rus',
    Raw.ingest_loop int_of_str (of_model <$> model) (map of_event evs) (rus, n)
    = (None, (rus', (fold_left (ingest_event model) evs (us, n)).2))
    ∧ same_windows (fold_left (ingest_event model) evs (us, n)).1 rus'.
Proof.
  revert us rus n. induction evs as [|e evs IH]; intros us rus n Hw.
  - exists rus. split; [reflexivity | exact Hw].
  - cbn [map Raw.ingest_loop fold_left].
    destruct (raw_ingest_event_typed int_of_str model us rus n e Hw)
      as (rus1 & -> & Hw1).
    destruct (ingest_event model (us, n) e) as [us1 n1] eqn:E.
    cbn [fst snd] in *. apply IH. exact Hw1.
Qed.



Lemma same_state_fresh model :
  same_state (fresh model) (Raw.fresh (of_model <$> model)).
Proof. repeat split. Qed.

(** X25.  On a body of the documented types the handlers on arbitrary bodies
    do what the handlers of the first model do.  From states that hold the
    same, [ingest] on the body as JSON, [get_user_median] and [get_stats]
    give the same answers and leave states that hold the same. *)
Theorem typed_bodies_agree int_of_str sv rsv :
  same_state sv rsv →
  (∀ payload t0 t1,
     let out := ingest sv payload t0 t1 in
     let rout := Raw.ingest int_of_str rsv (of_payload payload) t0 t1 in
     rout.1 = of_response out.1 ∧ same_state out.2 rout.2)
  ∧ (∀ uid,
       let out := get_user_median sv uid in
       let rout := Raw.get_user_median rsv uid in
       rout.1 = of_median_response out.1 ∧ same_state out.2 rout.2)
  ∧ (let out := get_stats sv in
     let rout := Raw.get_stats rsv in
     rout.1 = of_response out.1 ∧ same_state out.2 rout.2).
Proof.
  intros (Hm & Hst & Hw). split; [|split].
  - intros [[evs|]] t0 t1; cbv zeta.
    + rewrite ingest_ok. cbv zeta.
      unfold Raw.ingest, of_payload. cbv zeta. simpl events.
      change (Raw.dict_get "events" _) with (Raw.JList (map of_event evs)).
      simpl Raw.is_None. cbv iota. simpl Raw.iterate. cbv iota.
      rewrite Hm.
      destruct (raw_ingest_loop_typed int_of_str (_loaded_model sv) evs
                  (user_scores sv) (Raw.user_scores rsv) 0 Hw)
        as (rus' & -> & Hw').
      simpl. split; [reflexivity|].
      split; [reflexivity|]. split; [|exact Hw'].
      simpl. unfold Raw.with_ingest_request. rewrite Hst. reflexivity.
    + simpl. split; [reflexivity|]. by split.
  - intros uid. cbv zeta.
    rewrite get_user_median_state, raw_get_user_median_state.
    split; [|by repeat split; simpl; rewrite ?Hst].
    unfold get_user_median, Raw.get_user_median. cbv zeta.
    rewrite (Hw uid).
    destruct (user_scores sv !! uid) as [[|s dq]|]; try reflexivity.
    simpl fmap. cbv iota.
    replace (map snd (of_sample s :: map of_sample dq))
      with (map Raw.Num (map snd (s :: dq))).
    2:{ simpl. f_equal. rewrite !map_map. reflexivity. }
    rewrite raw_median_finite.
    destruct (median_standard (map snd (s :: dq))) as (m & -> & _); [done|].
    reflexivity.
  - cbv zeta. simpl. rewrite Hst. split; [reflexivity|]. by split.
Qed.

Lemma typed_bodies_agree_witness :
  let payload :=
    mkPayload (Some [mkEvent (Some "u1") (Some 1700000000)
                             (Some [1#10; 2#10; 3#10]%Q)]) in
  (Raw.ingest Raw.int_of_decimal (Raw.fresh (of_model <$> Some sum3))
     (of_payload payload) 0%Q 1%Q).1
  = of_response (ingest (fresh (Some sum3)) payload 0%Q 1%Q).1.
Proof.
  cbv zeta.
  apply (proj1 (typed_bodies_agree Raw.int_of_decimal (fresh (Some sum3))
                  (Raw.fresh (of_model <$> Some sum3))
                  (same_state_fresh (Some sum3)))).
Defined.

(** ** Module import *)

(** C7, at an input where it fails.  When [from create_model import
    InefficientModel] raises, [MODEL_PATH] is not bound yet; the handler
    formats it into the warning, [NameError] leaves the module body, and
    [main] is not imported: the service does not start.  When the import
    succeeds and reading or building the model raises, the module loads with
    [_loaded_model = None]; when nothing raises, with the model. *)
Theorem import_failure_is_not_survived (M : Type) (load : option M) :
  import_main (mkEnvironment false load) = inl (NameError "MODEL_PATH")
  ∧ import_main (mkEnvironment true None) = inr (@None M)
  ∧ (∀ model : M,
       import_main (mkEnvironment true (Some model)) = inr (Some model)).
Proof. repeat split. Qed.

(** ** The pruning loop behind a recent left end *)

(** C2, at an input where it fails.  The deque of a user holds entries with
    timestamps 1000 and 0, in this order, and an entry with timestamp 1000
    is recorded.  The cutoff is 700.  The loop looks at the left end, finds
    1000 and stops: nothing is pruned, although the entry with timestamp 0
    is below the cutoff. *)
Theorem prune_stops_at_recent_head :
  let us := record_all ∅ "u" [(1000, 1%Q); (0, 2%Q)] in
  let cutoff := 1000 - ROLLING_WINDOW_SECONDS in
  let us' := _update_user_scores us "u" 1000 3%Q in
  window us "u" = [(1000, 1%Q); (0, 2%Q)]
  ∧ window us' "u" = window us "u" ++ [(1000, 3%Q)]
  ∧ List.filter (λ s, fst s <? cutoff) (window us "u" ++ [(1000, 3%Q)])
    = [(0, 2%Q)]
  ∧ In (0, 2%Q) (window us' "u").
Proof.
  cbv zeta. split; [reflexivity|]. split; [reflexivity|].
  split; [reflexivity|].
  change (In (0, 2%Q) [(1000, 1%Q); (0, 2%Q); (1000, 3%Q)]).
  right. left. reflexivity.
Qed.
